(** * Souffle middle-end: RAM transformations, binding store and
      aggregation-variable renaming

    A shallow embedding of
    - [src/RamTransforms.cpp] (condition levelling, index creation,
      existence-check conversion),
    - [src/ast/transform/MagicSet.h] (class [BindingStore]),
    - [src/ast/transform/UniqueAggregationVariables.cpp],
    together with the properties of these passes. *)

From Stdlib Require Import ZArith List Bool String Lia.
From Stdlib Require DecimalString.
From stdpp Require Import base option list gmap strings.
From Equations Require Import Equations.
Import ListNotations.

Set Warnings "-register-all,-clear-no-such-hyp".
Local Open Scope string_scope.
Local Open Scope Z_scope.
Local Open Scope list_scope.

(** ** The RAM tree *)

Module Ram.

(** Modelled from the spec: [RamRelation.h] is not among the sources.
    A relation is referenced through its name and arity
    ([rel.getArity()] sizes the query pattern of an index scan). *)
Record RamRelation := mkRelation { relName : string; getArity : nat }.

(** Modelled from the spec: [BinaryConstraintOps.h] is not among the
    sources; the passes test for [EQ] only. *)
Inductive BinaryConstraintOp := EQ | NE | LT | LE | GT | GE.

(** Modelled from the spec: [RamExpression.h] is not among the sources
    (section 3.1).  Identifiers and levels are [int]s, columns are
    [size_t] indices into a tuple.  The argument vector of a pack
    operation may hold null pointers (the passes test for them), which
    is what [option] stands for. *)
Inductive RamExpression :=
| RamNumber (constant : Z)
| RamElementAccess (identifier : Z) (element : nat)
| RamIntrinsicOperator (operator : string) (arguments : list RamExpression)
| RamUserDefinedOperator (name : string) (arguments : list RamExpression)
| RamPackRecord (arguments : list (option RamExpression)).

(** Modelled from the spec: [RamCondition.h] is not among the sources
    (section 3.1).  The values of an existence check are a pattern, one
    optional expression per column. *)
Inductive RamCondition :=
| RamConjunction (lhs rhs : RamCondition)
| RamNegation (operand : RamCondition)
| RamConstraint (op : BinaryConstraintOp) (lhs rhs : RamExpression)
| RamEmptinessCheck (rel : RamRelation)
| RamExistenceCheck (rel : RamRelation) (values : list (option RamExpression)).

(** Modelled from the spec: [RamOperation.h] is not among the sources.
    The subclasses of [RamRelationSearch] are [RamScan] and
    [RamIndexScan], which the passes recognise by [dynamic_cast];
    [OtherSearch] stands for an object of any further subclass, for
    which no branch of these [dynamic_cast]s is taken. *)
Inductive RelationSearchKind :=
| Scan
| IndexScan (rangePattern : list (option RamExpression))
| OtherSearch.

(** Modelled from the spec: [RamOperation.h] is not among the sources
    (section 3.1).  Operations form a nest: relation searches, the
    unpacking of a record and filters hold one nested operation,
    projections and returns end the nest.  A nested operation carries a
    profile text.  A filter owns its condition through a [unique_ptr],
    which can be null: [option]. *)
Inductive RamOperation :=
| RamRelationSearch (kind : RelationSearchKind) (rel : RamRelation)
    (identifier : Z) (operation : RamOperation) (profileText : string)
| RamUnpackRecord (identifier referenceLevel : Z) (referencePosition arity : nat)
    (operation : RamOperation) (profileText : string)
| RamFilter (condition : option RamCondition) (operation : RamOperation)
    (profileText : string)
| RamProject (rel : RamRelation) (values : list RamExpression)
| RamReturn (values : list (option RamExpression)).

Abbreviation RamScan := (RamRelationSearch Scan).
Abbreviation RamIndexScan rel i pattern := (RamRelationSearch (IndexScan pattern) rel i).

(** *** Induction over expressions, through the argument vectors *)

Definition ForallOpt {A} (P : A -> Prop) (o : option A) : Prop :=
  match o with Some a => P a | None => True end.

Section ExpressionInduction.
Variable P : RamExpression -> Prop.
Hypothesis HNumber : forall z, P (RamNumber z).
Hypothesis HAccess : forall i c, P (RamElementAccess i c).
Hypothesis HIntrinsic : forall o args, Forall P args -> P (RamIntrinsicOperator o args).
Hypothesis HUser : forall n args, Forall P args -> P (RamUserDefinedOperator n args).
Hypothesis HPack : forall args, Forall (ForallOpt P) args -> P (RamPackRecord args).

End ExpressionInduction.

(** *** Conjunct enumeration *)

(** The loop of [getConditions] on a non-null pointer: the right operand
    of a conjunction is emitted, the walk continues in the left one. *)
Fixpoint getConditionsFrom (condition : RamCondition) : list RamCondition :=
  match condition with
  | RamConjunction lhs rhs => rhs :: getConditionsFrom lhs
  | _ => [condition]
  end.

(** [getConditions]: the argument is a pointer, null gives no conjunct. *)
Definition getConditions (condition : option RamCondition) : list RamCondition :=
  match condition with
  | None => []
  | Some c => getConditionsFrom c
  end.

Definition isConjunction (c : RamCondition) : bool :=
  match c with RamConjunction _ _ => true | _ => false end.

(** A right-leaning chain [c1 /\ (c2 /\ (... /\ cn))]. *)
Fixpoint rightChain (c : RamCondition) (cs : list RamCondition) : RamCondition :=
  match cs with
  | [] => c
  | d :: ds => RamConjunction c (rightChain d ds)
  end.

(** A left-leaning chain [((c1 /\ c2) /\ ...) /\ cn]. *)
Definition leftChain (c : RamCondition) (cs : list RamCondition) : RamCondition :=
  fold_left RamConjunction cs c.

(** *** The analyses *)

(** Modelled from the spec: [RamExpressionLevelAnalysis::getLevel]
    (the pass member [rvla]) is not among the sources.  The level of an
    element access is its identifier; a compound expression takes the
    maximum over its children; an expression without element access is
    at the outer level [-1]. *)
Fixpoint getLevel (value : RamExpression) : Z :=
  match value with
  | RamNumber _ => -1
  | RamElementAccess identifier _ => identifier
  | RamIntrinsicOperator _ args =>
      fold_right (fun a acc => Z.max (getLevel a) acc) (-1) args
  | RamUserDefinedOperator _ args =>
      fold_right (fun a acc => Z.max (getLevel a) acc) (-1) args
  | RamPackRecord args =>
      fold_right
        (fun a acc => match a with Some x => Z.max (getLevel x) acc | None => acc end)
        (-1) args
  end.

(** Modelled from the spec: [RamConstValueAnalysis::isConstant] (the
    pass member [rcva]) is not among the sources.  An expression is
    constant iff it contains no element access. *)
Fixpoint isConstant (value : RamExpression) : bool :=
  match value with
  | RamNumber _ => true
  | RamElementAccess _ _ => false
  | RamIntrinsicOperator _ args => forallb isConstant args
  | RamUserDefinedOperator _ args => forallb isConstant args
  | RamPackRecord args =>
      forallb (fun a => match a with Some x => isConstant x | None => true end) args
  end.

Definition patternLevel (values : list (option RamExpression)) : Z :=
  fold_right
    (fun a acc => match a with Some x => Z.max (getLevel x) acc | None => acc end)
    (-1) values.

(** Modelled from the spec: [RamConditionLevelAnalysis::getLevel] (the
    pass member [rcla]) is not among the sources.  The level of a
    condition is the maximum over its children. *)
Fixpoint getConditionLevel (condition : RamCondition) : Z :=
  match condition with
  | RamConjunction lhs rhs => Z.max (getConditionLevel lhs) (getConditionLevel rhs)
  | RamNegation operand => getConditionLevel operand
  | RamConstraint _ lhs rhs => Z.max (getLevel lhs) (getLevel rhs)
  | RamEmptinessCheck _ => -1
  | RamExistenceCheck _ values => patternLevel values
  end.

(** *** Index creation: [CreateIndicesTransformer] *)

(** [getIndexElement]: the returned expression is the value of the
    binding, the output parameter [element] its column; a null result
    is [None]. *)
Definition getIndexElement (c : RamCondition) (identifier : Z)
  : option (nat * RamExpression) :=
  match c with
  | RamConstraint EQ lhs rhs =>
      match
        (match lhs with
         | RamElementAccess lhsIdent lhsElement =>
             if (getLevel lhs =? identifier)
                && (isConstant rhs || (getLevel rhs <? identifier))
             then Some (lhsElement, rhs) else None
         | _ => None
         end)
      with
      | Some binding => Some binding
      | None =>
          match rhs with
          | RamElementAccess rhsIdent rhsElement =>
              if (getLevel rhs =? identifier)
                 && (isConstant lhs || (getLevel lhs <? identifier))
              then Some (rhsElement, lhs) else None
          | _ => None
          end
      end
  | _ => None
  end.

(** The residual condition is built by the lambda [addCondition]: the
    first condition is taken as it is, each later one becomes the right
    operand of a new conjunction.  (The lambda of the same name in
    [levelConditions] does the same on its two arguments.) *)
Definition addCondition (condition : option RamCondition) (c : RamCondition)
  : option RamCondition :=
  match condition with
  | Some d => Some (RamConjunction d c)
  | None => Some c
  end.

(** The locals of [rewriteScan] that the loop updates. *)
Record IndexState := mkIndexState {
  queryPattern : list (option RamExpression);
  condition : option RamCondition;
  indexable : bool
}.

(** One iteration of the loop over the conjuncts.  [queryPattern[element]]
    is an unchecked vector access: beyond the arity the behaviour is
    undefined, which the outer [None] stands for. *)
Definition rewriteScanStep (identifier : Z) (st : IndexState) (cond : RamCondition)
  : option IndexState :=
  match getIndexElement cond identifier with
  | Some (element, value) =>
      match queryPattern st !! element with
      | None => None
      | Some None =>
          Some (mkIndexState (<[element := Some value]> (queryPattern st))
                  (condition st) true)
      | Some (Some _) =>
          Some (mkIndexState (queryPattern st) (addCondition (condition st) cond) true)
      end
  | None =>
      Some (mkIndexState (queryPattern st) (addCondition (condition st) cond)
              (indexable st))
  end.

Fixpoint rewriteScanLoop (identifier : Z) (conds : list RamCondition) (st : IndexState)
  : option IndexState :=
  match conds with
  | [] => Some st
  | cond :: rest =>
      match rewriteScanStep identifier st cond with
      | Some st' => rewriteScanLoop identifier rest st'
      | None => None
      end
  end.

(** [rewriteScan] on the scan [RamScan rel identifier operation profileText].
    The inner option is the returned pointer ([None] for [nullptr]); the
    outer one is [None] when the loop left the pattern vector.  The
    residual filter is built without a profile text. *)
Definition rewriteScan (rel : RamRelation) (identifier : Z) (operation : RamOperation)
    (profileText : string) : option (option RamOperation) :=
  match operation with
  | RamFilter filterCondition inner _ =>
      match rewriteScanLoop identifier (getConditions filterCondition)
              (mkIndexState (replicate (getArity rel) None) None false) with
      | None => None
      | Some st =>
          if indexable st then
            Some (Some (RamIndexScan rel identifier (queryPattern st)
                          (match condition st with
                           | None => inner
                           | Some c => RamFilter (Some c) inner ""
                           end)
                          profileText))
          else Some None
      end
  | _ => Some None
  end.

(** *** Existence-check conversion: [ConvertExistenceChecksTransformer] *)

(** What [visitDepthFirst] offers to a visitor of [RamProject], of
    [RamUnpackRecord] and of [RamExpression] nodes: every such node of
    the subtree, the root included. *)
Fixpoint projectsOf (operation : RamOperation) : list (list RamExpression) :=
  match operation with
  | RamRelationSearch _ _ _ inner _ => projectsOf inner
  | RamUnpackRecord _ _ _ _ inner _ => projectsOf inner
  | RamFilter _ inner _ => projectsOf inner
  | RamProject _ values => [values]
  | RamReturn _ => []
  end.

Fixpoint referenceLevelsOf (operation : RamOperation) : list Z :=
  match operation with
  | RamRelationSearch _ _ _ inner _ => referenceLevelsOf inner
  | RamUnpackRecord _ referenceLevel _ _ inner _ => referenceLevel :: referenceLevelsOf inner
  | RamFilter _ inner _ => referenceLevelsOf inner
  | RamProject _ _ => []
  | RamReturn _ => []
  end.

(** An expression with all the expressions below it (null pack arguments
    are not nodes). *)
Fixpoint expressionNodes (value : RamExpression) : list RamExpression :=
  value ::
  match value with
  | RamNumber _ => []
  | RamElementAccess _ _ => []
  | RamIntrinsicOperator _ args => flat_map expressionNodes args
  | RamUserDefinedOperator _ args => flat_map expressionNodes args
  | RamPackRecord args =>
      flat_map (fun a => match a with Some x => expressionNodes x | None => [] end) args
  end.

Definition patternNodes (values : list (option RamExpression)) : list RamExpression :=
  flat_map (fun a => match a with Some x => expressionNodes x | None => [] end) values.

Fixpoint conditionExpressions (c : RamCondition) : list RamExpression :=
  match c with
  | RamConjunction lhs rhs => conditionExpressions lhs ++ conditionExpressions rhs
  | RamNegation operand => conditionExpressions operand
  | RamConstraint _ lhs rhs => expressionNodes lhs ++ expressionNodes rhs
  | RamEmptinessCheck _ => []
  | RamExistenceCheck _ values => patternNodes values
  end.

Fixpoint expressionsOf (operation : RamOperation) : list RamExpression :=
  match operation with
  | RamRelationSearch kind _ _ inner _ =>
      match kind with IndexScan pattern => patternNodes pattern | _ => [] end
      ++ expressionsOf inner
  | RamUnpackRecord _ _ _ _ inner _ => expressionsOf inner
  | RamFilter c inner _ =>
      match c with Some c => conditionExpressions c | None => [] end
      ++ expressionsOf inner
  | RamProject _ values => flat_map expressionNodes values
  | RamReturn values => patternNodes values
  end.

(** Sizes, for the termination of the two work lists. *)
Fixpoint expressionSize (value : RamExpression) : nat :=
  match value with
  | RamNumber _ => 1
  | RamElementAccess _ _ => 1
  | RamIntrinsicOperator _ args =>
      S (fold_right (fun a acc => (S (expressionSize a) + acc)%nat) 0%nat args)
  | RamUserDefinedOperator _ args =>
      S (fold_right (fun a acc => (S (expressionSize a) + acc)%nat) 0%nat args)
  | RamPackRecord args =>
      S (fold_right
           (fun a acc =>
              (S (match a with Some x => expressionSize x | None => 0 end) + acc)%nat)
           0%nat args)
  end.

Definition queueSize (queue : list RamExpression) : nat :=
  fold_right (fun a acc => (S (expressionSize a) + acc)%nat) 0%nat queue.

Definition valuesSize (values : list (option RamExpression)) : nat :=
  fold_right
    (fun a acc => (S (match a with Some x => expressionSize x | None => 0 end) + acc)%nat)
    0%nat values.

Lemma queueSize_app (q1 q2 : list RamExpression) :
  queueSize (q1 ++ q2) = (queueSize q1 + queueSize q2)%nat.
Proof. induction q1 as [|a q1 IH]; simpl; [reflexivity | rewrite IH; lia]. Qed.

Lemma queueSize_rev (q : list RamExpression) : queueSize (rev q) = queueSize q.
Proof.
  induction q as [|a q IH]; simpl; [reflexivity|].
  rewrite queueSize_app, IH. simpl. lia.
Qed.

Lemma valuesSize_app (q1 q2 : list (option RamExpression)) :
  valuesSize (q1 ++ q2) = (valuesSize q1 + valuesSize q2)%nat.
Proof. induction q1 as [|a q1 IH]; simpl; [reflexivity | rewrite IH; lia]. Qed.

Lemma valuesSize_rev (q : list (option RamExpression)) : valuesSize (rev q) = valuesSize q.
Proof.
  induction q as [|a q IH]; simpl; [reflexivity|].
  rewrite valuesSize_app, IH. simpl. lia.
Qed.

Lemma valuesSize_Some (q : list RamExpression) : valuesSize (map Some q) = queueSize q.
Proof. induction q as [|a q IH]; simpl; [reflexivity | rewrite IH; lia]. Qed.

(** The [while (!values.empty())] loop run for one [RamProject].  The
    vector is kept with its back at the head of the list, so that
    [values.back()] / [pop_back()] take the head and an insertion at
    [values.end()] prepends the reversed arguments.  The result is the
    value of [isExistCheck] when the loop is left. *)
Equations? projectLoop (identifier : Z) (values : list (option RamExpression)) : bool
  by wf (valuesSize values) lt :=
projectLoop identifier [] := true;
projectLoop identifier (None :: rest) := projectLoop identifier rest;
projectLoop identifier (Some (RamPackRecord args) :: rest) :=
  projectLoop identifier (rev args ++ rest);
projectLoop identifier (Some (RamIntrinsicOperator _ args) :: rest) :=
  projectLoop identifier (rev (map Some args) ++ rest);
projectLoop identifier (Some value :: rest) :=
  if negb (isConstant value) && (getLevel value =? identifier) then false
  else projectLoop identifier rest.
Proof.
  all: try (simpl; lia).
  - rewrite valuesSize_app, valuesSize_rev, valuesSize_Some.
    unfold queueSize. simpl. lia.
  - rewrite valuesSize_app, valuesSize_rev. unfold valuesSize at 1. simpl. lia.
Qed.

(** [dependsOn(const RamExpression*, int)]: the loop over [queue], kept
    like [values] above. *)
Equations? dependsOnLoop (identifier : Z) (queue : list RamExpression) : bool
  by wf (queueSize queue) lt :=
dependsOnLoop identifier [] := false;
dependsOnLoop identifier (RamElementAccess i c :: rest) :=
  if getLevel (RamElementAccess i c) =? identifier then true
  else dependsOnLoop identifier rest;
dependsOnLoop identifier (RamIntrinsicOperator _ args :: rest) :=
  dependsOnLoop identifier (rev args ++ rest);
dependsOnLoop identifier (RamUserDefinedOperator _ args :: rest) :=
  dependsOnLoop identifier (rev args ++ rest);
dependsOnLoop identifier (_ :: rest) := dependsOnLoop identifier rest.
Proof.
  all: try (simpl; lia).
  all: rewrite queueSize_app, queueSize_rev; unfold queueSize; simpl; lia.
Qed.

Definition dependsOn (value : RamExpression) (identifier : Z) : bool :=
  dependsOnLoop identifier [value].

(** The three visits that decide [isExistCheck] for the search
    [identifier] over its nested operation. *)
Definition isExistCheck (identifier : Z) (operation : RamOperation) : bool :=
  forallb (fun values => projectLoop identifier (rev (map Some values)))
    (projectsOf operation)
  && forallb (fun referenceLevel => negb (referenceLevel =? identifier))
       (referenceLevelsOf operation)
  && forallb (fun expression => negb (dependsOn expression identifier))
       (expressionsOf operation).

(** The constraint built for the replacement filter: a [unique_ptr] that
    stays null when the search is neither a scan nor an index scan.  The
    range pattern is cloned entry by entry, null entries kept. *)
Definition existenceConstraint (kind : RelationSearchKind) (rel : RamRelation)
  : option RamCondition :=
  match kind with
  | Scan => Some (RamNegation (RamEmptinessCheck rel))
  | IndexScan rangePattern =>
      Some (RamExistenceCheck rel
              (map (fun value => match value with
                                 | Some v => Some v
                                 | None => None
                                 end) rangePattern))
  | OtherSearch => None
  end.

(** The body of [RamScanCapturer::operator()] up to the descent
    [node->apply( *this)]: the node it continues with, and whether
    [modified] was set. *)
Definition convertSearch (node : RamOperation) : RamOperation * bool :=
  match node with
  | RamRelationSearch kind rel identifier operation profileText =>
      if isExistCheck identifier operation then
        (RamFilter (existenceConstraint kind rel) operation profileText, true)
      else (node, false)
  | _ => (node, false)
  end.

(** [RamScanCapturer::operator()] with the descent: the children of the
    node that [convertSearch] returned are mapped in turn.  The mutable
    member [modified] is threaded through. *)
Fixpoint scanCapturer (node : RamOperation) (modified : bool) : RamOperation * bool :=
  match node with
  | RamRelationSearch kind rel identifier operation profileText =>
      if isExistCheck identifier operation then
        let (operation', modified') := scanCapturer operation true in
        (RamFilter (existenceConstraint kind rel) operation' profileText, modified')
      else
        let (operation', modified') := scanCapturer operation modified in
        (RamRelationSearch kind rel identifier operation' profileText, modified')
  | RamUnpackRecord identifier referenceLevel referencePosition arity operation
      profileText =>
      let (operation', modified') := scanCapturer operation modified in
      (RamUnpackRecord identifier referenceLevel referencePosition arity operation'
         profileText, modified')
  | RamFilter c operation profileText =>
      let (operation', modified') := scanCapturer operation modified in
      (RamFilter c operation' profileText, modified')
  | RamProject _ _ => (node, modified)
  | RamReturn _ => (node, modified)
  end.

(** *** Condition levelling: [LevelConditionsTransformer] *)

(** Modelled from the spec: [RamStatement.h] is not among the sources.
    A statement is a query, which owns one operation, or a sequence of
    statements. *)
Inductive RamStatement :=
| RamQuery (operation : RamOperation)
| RamSequence (statements : list RamStatement).

(** The lambda [insertFilter] applied to a query or to a search: its one
    operation child is wrapped in a new filter (no profile text). *)
Definition insertFilter (operation : RamOperation) (condition : RamCondition)
  : RamOperation :=
  RamFilter (Some condition) operation "".

(** The recursive lambda [filterRewriter], for the level that is looked
    for ([-1] in the first sweep, the identifier of the search in the
    second).  The captured [newCondition] and [changed] are threaded
    through.  A filter at the level is removed: its condition is
    collected, its rewritten operation returned in its place.
    [getCondition] dereferences the pointer; a filter without condition
    is outside the domain of the pass and the model leaves it in place. *)
Fixpoint filterRewriter (level : Z) (node : RamOperation)
    (st : option RamCondition * bool) : RamOperation * (option RamCondition * bool) :=
  match node with
  | RamFilter (Some c) operation profileText =>
      if getConditionLevel c =? level then
        filterRewriter level operation (addCondition (fst st) c, true)
      else
        let (operation', st') := filterRewriter level operation st in
        (RamFilter (Some c) operation' profileText, st')
  | RamFilter None operation profileText =>
      let (operation', st') := filterRewriter level operation st in
      (RamFilter None operation' profileText, st')
  | RamRelationSearch kind rel identifier operation profileText =>
      let (operation', st') := filterRewriter level operation st in
      (RamRelationSearch kind rel identifier operation' profileText, st')
  | RamUnpackRecord identifier referenceLevel referencePosition arity operation
      profileText =>
      let (operation', st') := filterRewriter level operation st in
      (RamUnpackRecord identifier referenceLevel referencePosition arity operation'
         profileText, st')
  | RamProject _ _ => (node, st)
  | RamReturn _ => (node, st)
  end.

(** What one visit does below a query or a search: the filters at the
    level are removed from the nested operation, and a filter with the
    collected condition is put on top of it. *)
Definition hoist (level : Z) (operation : RamOperation) (changed : bool)
  : RamOperation * bool :=
  let '(operation', (newCondition, changed')) :=
    filterRewriter level operation (None, changed) in
  match newCondition with
  | Some c => (insertFilter operation' c, true)
  | None => (operation', changed')
  end.

Fixpoint operationSize (node : RamOperation) : nat :=
  match node with
  | RamRelationSearch _ _ _ operation _ => S (operationSize operation)
  | RamUnpackRecord _ _ _ _ operation _ => S (operationSize operation)
  | RamFilter _ operation _ => S (operationSize operation)
  | RamProject _ _ => 1
  | RamReturn _ => 1
  end.

Lemma filterRewriter_size level node st :
  (operationSize (fst (filterRewriter level node st)) <= operationSize node)%nat
  /\ (fst (snd (filterRewriter level node st)) = fst st
      \/ (operationSize (fst (filterRewriter level node st)) < operationSize node)%nat).
Proof.
  revert st; induction node as [k r i b IH p|i rl rp a b IH p|c b IH p|r v|v]; intros st; simpl;
    try (split; [lia | left; reflexivity]).
  1,2: specialize (IH st); destruct (filterRewriter level b st) as [b' st']; simpl in *;
       destruct IH as [Hle [Heq|Hlt]]; (split; [lia | (left; assumption) || (right; lia)]).
  destruct c as [c|]; [destruct (getConditionLevel c =? level)|].
  - specialize (IH (addCondition (fst st) c, true)).
    destruct (filterRewriter level b _) as [b' st']. simpl in *.
    split; [lia | right; lia].
  - specialize (IH st); destruct (filterRewriter level b st) as [b' st']; simpl in *;
      destruct IH as [Hle [Heq|Hlt]]; (split; [lia | (left; assumption) || (right; lia)]).
  - specialize (IH st); destruct (filterRewriter level b st) as [b' st']; simpl in *;
      destruct IH as [Hle [Heq|Hlt]]; (split; [lia | (left; assumption) || (right; lia)]).
Qed.

Lemma hoist_size level operation changed :
  (operationSize (fst (hoist level operation changed)) <= operationSize operation)%nat.
Proof.
  unfold hoist.
  destruct (filterRewriter_size level operation (None, changed)) as [Hle Hlt].
  destruct (filterRewriter level operation (None, changed)) as [b' [[c|] ch]]; simpl in *.
  - destruct Hlt as [Heq|Hlt]; [discriminate | lia].
  - lia.
Qed.

Section LevelConditions.

(** Whether [RamUnpackRecord] derives from [RamSearch], and so is among
    the nodes of the second sweep; its declaration is not among the
    sources. *)
Variable unpackIsSearch : bool.

(** The second sweep below one query: [visitDepthFirst] reaches the
    searches in pre-order; each one hoists the filters at its own level
    to its nested operation, and the visit goes on into the operation
    as it then stands. *)
Equations? hoistSearches (node : RamOperation) (changed : bool) : RamOperation * bool
  by wf (operationSize node) lt :=
hoistSearches (RamRelationSearch kind rel identifier operation profileText) changed :=
  let r := hoistSearches (fst (hoist identifier operation changed))
             (snd (hoist identifier operation changed)) in
  (RamRelationSearch kind rel identifier (fst r) profileText, snd r);
hoistSearches (RamUnpackRecord identifier referenceLevel referencePosition arity operation
                 profileText) changed :=
  let r := if unpackIsSearch
           then hoistSearches (fst (hoist identifier operation changed))
                  (snd (hoist identifier operation changed))
           else hoistSearches operation changed in
  (RamUnpackRecord identifier referenceLevel referencePosition arity (fst r) profileText,
   snd r);
hoistSearches (RamFilter c operation profileText) changed :=
  let r := hoistSearches operation changed in
  (RamFilter c (fst r) profileText, snd r);
hoistSearches node changed := (node, changed).
Proof.
  all: try (simpl; lia).
  all: pose proof (hoist_size identifier operation changed); simpl; lia.
Qed.

(** A sweep over the statements applies the visit to every query. *)
Fixpoint sweepQueries (visit : RamOperation -> bool -> RamOperation * bool)
    (statement : RamStatement) (changed : bool) : RamStatement * bool :=
  match statement with
  | RamQuery operation =>
      let (operation', changed') := visit operation changed in
      (RamQuery operation', changed')
  | RamSequence statements =>
      let (statements', changed') :=
        (fix sweepAll (l : list RamStatement) (changed : bool) :=
           match l with
           | [] => ([], changed)
           | s :: rest =>
               let (s', changed1) := sweepQueries visit s changed in
               let (rest', changed2) := sweepAll rest changed1 in
               (s' :: rest', changed2)
           end) statements changed in
      (RamSequence statements', changed')
  end.

(** [levelConditions]: the sweep that hoists the conditions independent
    of every search to the top of each query, then the sweep over the
    searches.  Returns the program and the flag [changed]. *)
Definition levelConditions (program : RamStatement) : RamStatement * bool :=
  let (program1, changed1) := sweepQueries (hoist (-1)) program false in
  sweepQueries hoistSearches program1 changed1.

End LevelConditions.

(** Modelled from the spec: [getProfileText] is declared in
    [RamOperation.h], not among the sources; it returns the profile
    text that the node was built with. *)
Definition getProfileText (node : RamOperation) : string :=
  match node with
  | RamRelationSearch _ _ _ _ profileText => profileText
  | RamUnpackRecord _ _ _ _ _ profileText => profileText
  | RamFilter _ _ profileText => profileText
  | RamProject _ _ => ""
  | RamReturn _ => ""
  end.

(** ** Properties of the conjunct enumeration *)

Lemma getConditionsFrom_leftChain (c : RamCondition) (cs : list RamCondition) :
  getConditionsFrom (leftChain c cs) = rev cs ++ getConditionsFrom c.
Proof.
  unfold leftChain. revert c.
  induction cs as [|d cs IH]; intros c; simpl.
  - reflexivity.
  - rewrite IH. simpl. rewrite <- app_assoc. reflexivity.
Qed.

Lemma getConditionsFrom_atomic (c : RamCondition) :
  isConjunction c = false -> getConditionsFrom c = [c].
Proof. destruct c; simpl; intros H; (discriminate || reflexivity). Qed.

(** C2, as amended.  The enumeration descends to the left and emits the
    right operands on its way: on a left-leaning chain
    [((c1 /\ c2) /\ ...) /\ cn] whose first conjunct [c1] is not a
    conjunction it returns exactly [c1 ... cn], from right to left,
    that is [cn; ...; c2; c1]. *)
Theorem getConditions_left_chain (c : RamCondition) (cs : list RamCondition) :
  isConjunction c = false ->
  getConditions (Some (leftChain c cs)) = rev (c :: cs).
Proof.
  intros Hc. simpl.
  rewrite getConditionsFrom_leftChain, (getConditionsFrom_atomic c Hc).
  reflexivity.
Qed.

Lemma getConditions_left_chain_witness :
  getConditions
    (Some (leftChain (RamEmptinessCheck (mkRelation "A" 1))
             [RamEmptinessCheck (mkRelation "B" 1); RamEmptinessCheck (mkRelation "C" 1)]))
  = [RamEmptinessCheck (mkRelation "C" 1); RamEmptinessCheck (mkRelation "B" 1);
     RamEmptinessCheck (mkRelation "A" 1)].
Proof.
  apply (getConditions_left_chain (RamEmptinessCheck (mkRelation "A" 1))
           [RamEmptinessCheck (mkRelation "B" 1); RamEmptinessCheck (mkRelation "C" 1)]).
  reflexivity.
Defined.

(** C2 as stated fails: on the right-leaning chain [c1 /\ c2] of two
    atomic conjuncts the enumeration yields [c2; c1], not [c1; c2]. *)
Lemma getConditions_right_chain_counterexample :
  ~ (forall (c : RamCondition) (cs : list RamCondition),
        isConjunction c = false ->
        Forall (fun d => isConjunction d = false) cs ->
        getConditions (Some (rightChain c cs)) = c :: cs).
Proof.
  intros H.
  specialize (H (RamConstraint EQ (RamElementAccess 0 0) (RamNumber 7))
                [RamConstraint EQ (RamElementAccess 0 0) (RamNumber 9)]).
  simpl in H.
  assert (Hf : Forall (fun d => isConjunction d = false)
                 [RamConstraint EQ (RamElementAccess 0 0) (RamNumber 9)])
    by (repeat constructor).
  specialize (H eq_refl Hf). discriminate H.
Qed.

(** On a right-leaning chain of three conjuncts the right operand is
    returned whole: it is not split into its atomic conjuncts. *)
Example getConditions_right_chain_three :
  getConditions
    (Some (rightChain (RamEmptinessCheck (mkRelation "A" 1))
             [RamEmptinessCheck (mkRelation "B" 1); RamEmptinessCheck (mkRelation "C" 1)]))
  = [RamConjunction (RamEmptinessCheck (mkRelation "B" 1))
       (RamEmptinessCheck (mkRelation "C" 1));
     RamEmptinessCheck (mkRelation "A" 1)].
Proof. reflexivity. Qed.

(** ** Properties of index creation *)

(** The value that a conjunct binds to column [col], if it binds it. *)
Definition bindingOn (i : Z) (col : nat) (c : RamCondition) : option RamExpression :=
  match getIndexElement c i with
  | Some (element, value) => if decide (element = col) then Some value else None
  | None => None
  end.

(** The value of the first conjunct of [cs] that binds column [col]. *)
Definition firstBinding (i : Z) (col : nat) (cs : list RamCondition)
  : option RamExpression :=
  head (omap (bindingOn i col) cs).

(** A conjunct stays in the residual condition when it binds no column,
    or a column that an earlier conjunct binds. *)
Definition keptAsResidual (i : Z) (earlier : list RamCondition) (c : RamCondition) : bool :=
  match getIndexElement c i with
  | None => true
  | Some (col, _) =>
      match firstBinding i col earlier with Some _ => true | None => false end
  end.

Fixpoint residualFrom (i : Z) (earlier cs : list RamCondition) : list RamCondition :=
  match cs with
  | [] => []
  | c :: rest =>
      (if keptAsResidual i earlier c then [c] else [])
      ++ residualFrom i (earlier ++ [c]) rest
  end.

Definition conjoin (cs : list RamCondition) : option RamCondition :=
  fold_left addCondition cs None.

Definition withResidual (residual : option RamCondition) (inner : RamOperation)
  : RamOperation :=
  match residual with
  | None => inner
  | Some c => RamFilter (Some c) inner ""
  end.

Lemma firstBinding_snoc i col cs c :
  firstBinding i col (cs ++ [c]) =
  match firstBinding i col cs with
  | Some v => Some v
  | None => bindingOn i col c
  end.
Proof.
  unfold firstBinding. rewrite omap_app. simpl.
  destruct (omap (bindingOn i col) cs) as [|v l]; simpl.
  - destruct (bindingOn i col c); reflexivity.
  - reflexivity.
Qed.

Lemma firstBinding_app_Some i col cs cs' v :
  firstBinding i col cs = Some v -> firstBinding i col (cs ++ cs') = Some v.
Proof.
  unfold firstBinding. rewrite omap_app.
  destruct (omap (bindingOn i col) cs); simpl; [discriminate | trivial].
Qed.

Lemma residualFrom_snoc i earlier cs c :
  residualFrom i earlier (cs ++ [c]) =
  residualFrom i earlier cs ++ (if keptAsResidual i (earlier ++ cs) c then [c] else []).
Proof.
  revert earlier. induction cs as [|d cs IH]; intros earlier; simpl.
  - rewrite !app_nil_r. reflexivity.
  - rewrite IH, <- !app_assoc. reflexivity.
Qed.

Lemma conjoin_snoc cs c : conjoin (cs ++ [c]) = addCondition (conjoin cs) c.
Proof. unfold conjoin. rewrite fold_left_app. reflexivity. Qed.

Definition isIndexable (i : Z) (c : RamCondition) : bool :=
  match getIndexElement c i with Some _ => true | None => false end.

(** What the locals of [rewriteScan] hold after the conjuncts [seen]. *)
Definition afterConjuncts (i : Z) (arity : nat) (seen : list RamCondition)
    (st : IndexState) : Prop :=
  length (queryPattern st) = arity
  /\ (forall col, (col < arity)%nat ->
        queryPattern st !! col = Some (firstBinding i col seen))
  /\ condition st = conjoin (residualFrom i [] seen)
  /\ indexable st = existsb (isIndexable i) seen.

Lemma rewriteScanStep_spec i arity seen st c st' :
  afterConjuncts i arity seen st ->
  rewriteScanStep i st c = Some st' ->
  afterConjuncts i arity (seen ++ [c]) st'.
Proof.
  intros (Hlen & Hpat & Hcond & Hidx). unfold rewriteScanStep.
  destruct (getIndexElement c i) as [[e v]|] eqn:Hc.
  - destruct (queryPattern st !! e) as [[w|]|] eqn:He; [| |discriminate].
    + intros [= <-]. simpl.
      assert (He' : (e < arity)%nat) by (rewrite <- Hlen; eapply lookup_lt_Some; eauto).
      pose proof (Hpat e He') as Hfe. rewrite He in Hfe. inversion Hfe as [Hw].
      unfold afterConjuncts; simpl. repeat split.
      * exact Hlen.
      * intros col Hcol. rewrite Hpat by exact Hcol. f_equal.
        rewrite firstBinding_snoc. unfold bindingOn. rewrite Hc.
        destruct (firstBinding i col seen) eqn:Hf; [reflexivity|].
        destruct (decide (e = col)) as [->|]; [congruence | reflexivity].
      * rewrite residualFrom_snoc. unfold keptAsResidual. simpl. rewrite Hc, <- Hw.
        rewrite conjoin_snoc, Hcond. reflexivity.
      * rewrite existsb_app. simpl. unfold isIndexable at 2. rewrite Hc.
        rewrite orb_true_r. reflexivity.
    + intros [= <-]. simpl.
      assert (He' : (e < arity)%nat) by (rewrite <- Hlen; eapply lookup_lt_Some; eauto).
      pose proof (Hpat e He') as Hfe. rewrite He in Hfe. inversion Hfe as [Hw].
      unfold afterConjuncts; simpl. repeat split.
      * rewrite length_insert. exact Hlen.
      * intros col Hcol. rewrite firstBinding_snoc. unfold bindingOn. rewrite Hc.
        destruct (decide (e = col)) as [->|Hne].
        -- rewrite list_lookup_insert_eq by lia. rewrite <- Hw. reflexivity.
        -- rewrite list_lookup_insert_ne by exact Hne. rewrite Hpat by exact Hcol.
           destruct (firstBinding i col seen); reflexivity.
      * rewrite residualFrom_snoc. unfold keptAsResidual. simpl. rewrite Hc, <- Hw.
        rewrite app_nil_r. exact Hcond.
      * rewrite existsb_app. simpl. unfold isIndexable at 2. rewrite Hc.
        rewrite orb_true_r. reflexivity.
  - intros [= <-]. unfold afterConjuncts; simpl. repeat split.
    + exact Hlen.
    + intros col Hcol. rewrite Hpat by exact Hcol. f_equal.
      rewrite firstBinding_snoc. unfold bindingOn. rewrite Hc.
      destruct (firstBinding i col seen); reflexivity.
    + rewrite residualFrom_snoc. unfold keptAsResidual. simpl. rewrite Hc.
      rewrite conjoin_snoc, Hcond. reflexivity.
    + rewrite existsb_app. simpl. unfold isIndexable at 2. rewrite Hc.
      rewrite Hidx, !orb_false_r. reflexivity.
Qed.

Lemma rewriteScanLoop_spec i arity rest : forall seen st st',
  afterConjuncts i arity seen st ->
  rewriteScanLoop i rest st = Some st' ->
  afterConjuncts i arity (seen ++ rest) st'.
Proof.
  induction rest as [|c rest IH]; intros seen st st' Hinv; simpl.
  - intros [= <-]. rewrite app_nil_r. exact Hinv.
  - destruct (rewriteScanStep i st c) as [st1|] eqn:Hstep; [|discriminate].
    intros Hloop.
    replace (seen ++ c :: rest) with ((seen ++ [c]) ++ rest)
      by (rewrite <- app_assoc; reflexivity).
    eapply IH; [|exact Hloop].
    eapply rewriteScanStep_spec; eauto.
Qed.

Lemma afterConjuncts_init i arity :
  afterConjuncts i arity [] (mkIndexState (replicate arity None) None false).
Proof.
  repeat split; simpl.
  - apply length_replicate.
  - intros col Hcol. apply lookup_replicate_2. exact Hcol.
Qed.

Lemma residualFrom_kept i c : forall cs earlier pre post,
  cs = pre ++ c :: post ->
  keptAsResidual i (earlier ++ pre) c = true ->
  c ∈ residualFrom i earlier cs.
Proof.
  induction cs as [|d cs IH]; intros earlier pre post Heq Hk.
  - destruct pre; discriminate.
  - destruct pre as [|d' pre]; simpl in Heq; inversion Heq; subst.
    + rewrite app_nil_r in Hk. simpl. rewrite Hk. simpl. apply list_elem_of_here.
    + simpl. apply elem_of_app. right.
      apply (IH (earlier ++ [d']) pre post); [reflexivity|].
      rewrite <- app_assoc. exact Hk.
Qed.

(** A conjunct of a condition: the condition itself, or a conjunct of
    an operand of a conjunction. *)
Fixpoint conjunctOf (c cond : RamCondition) : Prop :=
  c = cond \/
  match cond with
  | RamConjunction lhs rhs => conjunctOf c lhs \/ conjunctOf c rhs
  | _ => False
  end.

(** The operation below the index scan: the nested operation of the
    filter, below a new filter (without profile text) on the left-leaning
    conjunction of the residual conjuncts when there are any. *)
Definition filterOver (residual : list RamCondition) (body : RamOperation)
  : RamOperation :=
  match residual with
  | [] => body
  | c :: rest => RamFilter (Some (leftChain c rest)) body ""
  end.

(** The conjunct is in the filter [inner] that stands on [body]. *)
Definition inResidualFilter (c : RamCondition) (inner body : RamOperation) : Prop :=
  exists cond, inner = RamFilter (Some cond) body "" /\ conjunctOf c cond.

(** An equality between two element accesses of level [i]. *)
Definition sameLevelEquality (i : Z) (c1 c2 : nat) : RamCondition :=
  RamConstraint EQ (RamElementAccess i c1) (RamElementAccess i c2).

Lemma conjunctOf_refl (c : RamCondition) : conjunctOf c c.
Proof. destruct c; left; reflexivity. Qed.

Lemma conjunctOf_chain (c : RamCondition) (rest : list RamCondition) : forall acc,
  conjunctOf c acc \/ c ∈ rest -> conjunctOf c (fold_left RamConjunction rest acc).
Proof.
  induction rest as [|d rest IH]; intros acc H; simpl.
  - destruct H as [H|H]; [exact H|]. inversion H.
  - apply IH. destruct H as [H|H].
    + left. right. left. exact H.
    + apply elem_of_cons in H. destruct H as [->|H]; [|right; exact H].
      left. right. right. apply conjunctOf_refl.
Qed.

Lemma filterOver_holds (c : RamCondition) (residual : list RamCondition)
    (body : RamOperation) :
  c ∈ residual -> inResidualFilter c (filterOver residual body) body.
Proof.
  destruct residual as [|c1 rest]; intros Hin; [inversion Hin|].
  exists (leftChain c1 rest). split; [reflexivity|].
  unfold leftChain. apply conjunctOf_chain.
  apply elem_of_cons in Hin. destruct Hin as [->|Hin]; [left | right; exact Hin].
  apply conjunctOf_refl.
Qed.

Lemma conjoin_filterOver (residual : list RamCondition) (body : RamOperation) :
  withResidual (conjoin residual) body = filterOver residual body.
Proof.
  destruct residual as [|c rest]; [reflexivity|].
  unfold conjoin, filterOver, leftChain. simpl.
  generalize c. induction rest as [|d rest IH]; intros acc; simpl; [reflexivity|].
  apply IH.
Qed.

(** A loop that ends has met bound columns below the arity only. *)
Lemma rewriteScanLoop_columns i arity rest : forall seen st st',
  afterConjuncts i arity seen st ->
  rewriteScanLoop i rest st = Some st' ->
  forall c, c ∈ rest -> forall col v,
    getIndexElement c i = Some (col, v) -> (col < arity)%nat.
Proof.
  induction rest as [|d rest IH]; intros seen st st' Hinv Hloop c Hc col v Hget.
  - inversion Hc.
  - simpl in Hloop.
    destruct (rewriteScanStep i st d) as [st1|] eqn:Hstep; [|discriminate].
    apply elem_of_cons in Hc. destruct Hc as [->|Hc].
    + unfold rewriteScanStep in Hstep. rewrite Hget in Hstep.
      destruct Hinv as (Hlen & _).
      destruct (queryPattern st !! col) as [e|] eqn:Hcol; [|discriminate].
      rewrite <- Hlen. eapply lookup_lt_Some. exact Hcol.
    + eapply (IH (seen ++ [d]) st1 st'); eauto.
      eapply rewriteScanStep_spec; eauto.
Qed.

(** The index scan that [rewriteScan] returns, in closed form. *)
Lemma rewriteScan_closed (rel : RamRelation) (i : Z) (fc : option RamCondition)
    (body : RamOperation) (filterText profileText : string) (out : RamOperation) :
  rewriteScan rel i (RamFilter fc body filterText) profileText = Some (Some out) ->
  exists pattern,
    out = RamIndexScan rel i pattern
            (filterOver (residualFrom i [] (getConditions fc)) body) profileText
    /\ length pattern = getArity rel
    /\ (forall col, (col < getArity rel)%nat ->
          pattern !! col = Some (firstBinding i col (getConditions fc)))
    /\ (forall c, c ∈ getConditions fc -> forall col v,
          getIndexElement c i = Some (col, v) -> (col < getArity rel)%nat).
Proof.
  intros Hrw. unfold rewriteScan in Hrw.
  destruct (rewriteScanLoop i (getConditions fc) _) as [st|] eqn:Hloop; [|discriminate].
  pose proof (rewriteScanLoop_spec i (getArity rel) _ [] _ _
                (afterConjuncts_init i (getArity rel)) Hloop) as Hinv.
  pose proof (rewriteScanLoop_columns i (getArity rel) _ [] _ _
                (afterConjuncts_init i (getArity rel)) Hloop) as Hcols.
  simpl in Hinv. destruct Hinv as (Hlen & Hpat & Hcond & Hidx).
  destruct (indexable st); [|discriminate].
  inversion Hrw; subst out. exists (queryPattern st).
  split; [|split; [exact Hlen | split; [exact Hpat | exact Hcols]]].
  rewrite <- conjoin_filterOver, <- Hcond. reflexivity.
Qed.

Lemma residualFrom_unindexable (i : Z) (c : RamCondition) (cs : list RamCondition) :
  c ∈ cs -> getIndexElement c i = None -> c ∈ residualFrom i [] cs.
Proof.
  intros Hin Hnone. apply list_elem_of_split in Hin.
  destruct Hin as (earlier & later & Heq).
  apply (residualFrom_kept i c cs [] earlier later Heq).
  unfold keptAsResidual. rewrite Hnone. reflexivity.
Qed.

Lemma sameLevelEquality_unindexable (i : Z) (c1 c2 : nat) :
  getIndexElement (sameLevelEquality i c1 c2) i = None.
Proof. simpl. rewrite Z.ltb_irrefl, andb_false_r. reflexivity. Qed.

(** C3.  [getIndexElement] returns the binding [(col, v)] exactly for the
    equalities one side of which is the element access [(i, col)] while
    the other side, [v], is constant or of a level below [i].  An
    equality between two element accesses of level [i] gives no
    binding.  It remains in the residual filter: when [rewriteScan]
    replaces the scan, the operation below the index scan is a new
    filter on the nested operation of which the equality is a conjunct;
    and when it is the whole condition of the filter, [rewriteScan]
    returns a null pointer, so the scan and its filter stay. *)
Theorem getIndexElement_indexable (c : RamCondition) (i : Z) :
  (forall (col : nat) (v : RamExpression),
      getIndexElement c i = Some (col, v) <->
      exists a b, c = RamConstraint EQ a b /\
        ((a = RamElementAccess i col /\ v = b /\
            (isConstant b = true \/ getLevel b < i)) \/
         (b = RamElementAccess i col /\ v = a /\
            (isConstant a = true \/ getLevel a < i)))) /\
  (forall (c1 c2 : nat),
      getIndexElement (sameLevelEquality i c1 c2) i = None
      /\ (forall rel fc body filterText profileText out,
            sameLevelEquality i c1 c2 ∈ getConditions fc ->
            rewriteScan rel i (RamFilter fc body filterText) profileText
            = Some (Some out) ->
            exists pattern inner,
              out = RamIndexScan rel i pattern inner profileText
              /\ inResidualFilter (sameLevelEquality i c1 c2) inner body)
      /\ (forall rel body filterText profileText,
            rewriteScan rel i
              (RamFilter (Some (sameLevelEquality i c1 c2)) body filterText) profileText
            = Some None)).
Proof.
  split.
  - intros col v. split.
    + destruct c as [| |op a b| |]; try discriminate.
      destruct op; try discriminate.
      intros H. exists a, b. split; [reflexivity|].
      unfold getIndexElement in H.
      destruct a as [za|ai ae|? ?|? ?|?].
      2: { destruct ((getLevel (RamElementAccess ai ae) =? i)
                     && (isConstant b || (getLevel b <? i))) eqn:E.
           - inversion H; subst. apply andb_true_iff in E. destruct E as [E1 E2].
             simpl in E1. apply Z.eqb_eq in E1. subst ai.
             left. repeat split. apply orb_true_iff in E2.
             destruct E2 as [E2|E2]; [left; exact E2 | right; apply Z.ltb_lt; exact E2].
           - destruct b as [zb|bi be|? ?|? ?|?]; try discriminate.
             destruct ((getLevel (RamElementAccess bi be) =? i)
                       && (isConstant (RamElementAccess ai ae)
                           || (getLevel (RamElementAccess ai ae) <? i))) eqn:E';
               [|discriminate].
             inversion H; subst. apply andb_true_iff in E'. destruct E' as [E1 E2].
             simpl in E1. apply Z.eqb_eq in E1. subst bi.
             right. repeat split. apply orb_true_iff in E2.
             destruct E2 as [E2|E2]; [left; exact E2 | right; apply Z.ltb_lt; exact E2]. }
      all: destruct b as [zb|bi be|? ?|? ?|?]; try discriminate;
        match type of H with
        | (if ?t then _ else _) = _ => destruct t eqn:E; [|discriminate]
        end;
        inversion H; subst; apply andb_true_iff in E; destruct E as [E1 E2];
        simpl in E1; apply Z.eqb_eq in E1; subst bi;
        right; repeat split; apply orb_true_iff in E2;
        destruct E2 as [E2|E2]; [left; exact E2 | right; apply Z.ltb_lt; exact E2].
    + intros (a & b & -> & [(-> & -> & Hb)|(-> & -> & Ha)]); simpl.
      * rewrite Z.eqb_refl. simpl.
        assert (Hb' : isConstant b || (getLevel b <? i) = true).
        { apply orb_true_iff. destruct Hb as [Hb|Hb]; [left; exact Hb|].
          right. apply Z.ltb_lt. exact Hb. }
        rewrite Hb'. reflexivity.
      * assert (Ha' : isConstant a || (getLevel a <? i) = true).
        { apply orb_true_iff. destruct Ha as [Ha|Ha]; [left; exact Ha|].
          right. apply Z.ltb_lt. exact Ha. }
        destruct a as [za|ai ae|? ?|? ?|?]; simpl in Ha' |- *;
          rewrite ?Z.ltb_irrefl, ?andb_false_r, ?Z.eqb_refl; simpl;
          rewrite ?Ha'; reflexivity.
  - intros c1 c2.
    pose proof (sameLevelEquality_unindexable i c1 c2) as Hnone.
    split; [exact Hnone|]. split.
    + intros rel fc body filterText profileText out Hin Hrw.
      destruct (rewriteScan_closed rel i fc body filterText profileText out Hrw)
        as (pattern & -> & _).
      exists pattern, (filterOver (residualFrom i [] (getConditions fc)) body).
      split; [reflexivity|]. apply filterOver_holds.
      apply residualFrom_unindexable; assumption.
    + intros rel body filterText profileText.
      unfold rewriteScan. cbn [getConditions getConditionsFrom sameLevelEquality].
      cbn [rewriteScanLoop]. unfold rewriteScanStep.
      fold (sameLevelEquality i c1 c2). rewrite Hnone. reflexivity.
Qed.

(** The filter of scenario S3 with a further conjunct that compares two
    columns of the scanned tuple. *)
Definition withSameLevelEquality : RamCondition :=
  RamConjunction (sameLevelEquality 0 0 1)
                 (RamConstraint EQ (RamElementAccess 0 0) (RamNumber 9)).

Lemma getIndexElement_indexable_witness :
  exists pattern inner,
    RamIndexScan (mkRelation "R" 2) 0 [Some (RamNumber 9); None]
      (RamFilter (Some (sameLevelEquality 0 0 1)) (RamProject (mkRelation "S" 0) []) "")
      "scan"
    = RamIndexScan (mkRelation "R" 2) 0 pattern inner "scan"
    /\ inResidualFilter (sameLevelEquality 0 0 1) inner (RamProject (mkRelation "S" 0) []).
Proof.
  apply (proj1 (proj2 (proj2 (getIndexElement_indexable (sameLevelEquality 0 0 1) 0) 0%nat 1%nat))
           (mkRelation "R" 2) (Some withSameLevelEquality)
           (RamProject (mkRelation "S" 0) []) "" "scan").
  - apply list_elem_of_further. apply list_elem_of_here.
  - reflexivity.
Defined.

(** C4.  When [rewriteScan] replaces the scan, column [col] of the
    pattern of the index scan holds the value of the first conjunct, in
    the order of [getConditions], that binds [col].  The operation below
    the index scan is the nested operation of the filter, below a new
    filter on the residual conjuncts when there are any.  Each later
    conjunct that binds a column already bound is, as it is, a conjunct
    of the condition of that filter; and every conjunct of the old
    filter either has its value in the pattern or is a conjunct of the
    condition of the new filter: none is dropped. *)
Theorem rewriteScan_collision (rel : RamRelation) (i : Z) (fc : option RamCondition)
    (body : RamOperation) (filterText profileText : string) (out : RamOperation) :
  rewriteScan rel i (RamFilter fc body filterText) profileText = Some (Some out) ->
  exists pattern inner,
    out = RamIndexScan rel i pattern inner profileText
    /\ length pattern = getArity rel
    /\ (forall col, (col < getArity rel)%nat ->
          pattern !! col = Some (firstBinding i col (getConditions fc)))
    /\ inner = filterOver (residualFrom i [] (getConditions fc)) body
    /\ (forall earlier c later col v,
          getConditions fc = earlier ++ c :: later ->
          getIndexElement c i = Some (col, v) ->
          (firstBinding i col earlier = None -> pattern !! col = Some (Some v))
          /\ (firstBinding i col earlier <> None -> inResidualFilter c inner body))
    /\ (forall c, c ∈ getConditions fc ->
          inResidualFilter c inner body
          \/ exists col v, getIndexElement c i = Some (col, v)
                           /\ pattern !! col = Some (Some v)).
Proof.
  intros Hrw.
  destruct (rewriteScan_closed rel i fc body filterText profileText out Hrw)
    as (pattern & -> & Hlen & Hpat & Hcols).
  set (cs := getConditions fc) in *.
  exists pattern, (filterOver (residualFrom i [] cs) body).
  assert (Hsplit : forall earlier c later col v,
        cs = earlier ++ c :: later ->
        getIndexElement c i = Some (col, v) ->
        (firstBinding i col earlier = None -> pattern !! col = Some (Some v))
        /\ (firstBinding i col earlier <> None ->
            inResidualFilter c (filterOver (residualFrom i [] cs) body) body)).
  { intros earlier c later col v Heq Hc.
    assert (Hin : c ∈ cs)
      by (rewrite Heq; apply elem_of_app; right; apply list_elem_of_here).
    split.
    - intros Hnone. rewrite (Hpat col (Hcols c Hin col v Hc)). f_equal. rewrite Heq.
      replace (earlier ++ c :: later) with ((earlier ++ [c]) ++ later)
        by (rewrite <- app_assoc; reflexivity).
      apply firstBinding_app_Some. rewrite firstBinding_snoc, Hnone.
      unfold bindingOn. rewrite Hc. rewrite decide_True by reflexivity. reflexivity.
    - intros Hsome. apply filterOver_holds.
      apply (residualFrom_kept i c cs [] earlier later Heq).
      unfold keptAsResidual. rewrite Hc. simpl.
      destruct (firstBinding i col earlier); [reflexivity | congruence]. }
  split; [reflexivity|]. split; [exact Hlen|]. split; [exact Hpat|].
  split; [reflexivity|]. split; [exact Hsplit|].
  intros c Hin. pose proof Hin as Hin'. apply list_elem_of_split in Hin'.
  destruct Hin' as (earlier & later & Heq).
  destruct (getIndexElement c i) as [[col v]|] eqn:Hc.
  - destruct (Hsplit earlier c later col v Heq Hc) as [Hfirst Hlater].
    destruct (firstBinding i col earlier) eqn:Hf.
    + left. apply Hlater. congruence.
    + right. exists col, v. split; [reflexivity | apply Hfirst; reflexivity].
  - left. apply filterOver_holds. apply residualFrom_unindexable; assumption.
Qed.

(** The filter of scenario S3 over a relation of arity two: the
    enumeration starts with the right conjunct, which therefore supplies
    the pattern; the left one is the residual condition. *)
Definition duplicateColumn : RamCondition :=
  RamConjunction (RamConstraint EQ (RamElementAccess 0 0) (RamNumber 7))
                 (RamConstraint EQ (RamElementAccess 0 0) (RamNumber 9)).

Example rewriteScan_duplicate_column :
  rewriteScan (mkRelation "R" 2) 0
    (RamFilter (Some duplicateColumn) (RamProject (mkRelation "S" 0) []) "") "scan"
  = Some (Some (RamIndexScan (mkRelation "R" 2) 0 [Some (RamNumber 9); None]
                  (RamFilter (Some (RamConstraint EQ (RamElementAccess 0 0) (RamNumber 7)))
                     (RamProject (mkRelation "S" 0) []) "")
                  "scan")).
Proof. reflexivity. Qed.

Lemma rewriteScan_collision_witness :
  exists pattern inner,
    RamIndexScan (mkRelation "R" 2) 0 [Some (RamNumber 9); None]
      (RamFilter (Some (RamConstraint EQ (RamElementAccess 0 0) (RamNumber 7)))
         (RamProject (mkRelation "S" 0) []) "")
      "scan"
    = RamIndexScan (mkRelation "R" 2) 0 pattern inner "scan"
    /\ length pattern = 2%nat
    /\ (forall col, (col < 2)%nat ->
          pattern !! col = Some (firstBinding 0 col (getConditions (Some duplicateColumn))))
    /\ inner = filterOver (residualFrom 0 [] (getConditions (Some duplicateColumn)))
                 (RamProject (mkRelation "S" 0) [])
    /\ (forall earlier c later col v,
          getConditions (Some duplicateColumn) = earlier ++ c :: later ->
          getIndexElement c 0 = Some (col, v) ->
          (firstBinding 0 col earlier = None -> pattern !! col = Some (Some v))
          /\ (firstBinding 0 col earlier <> None ->
              inResidualFilter c inner (RamProject (mkRelation "S" 0) [])))
    /\ (forall c, c ∈ getConditions (Some duplicateColumn) ->
          inResidualFilter c inner (RamProject (mkRelation "S" 0) [])
          \/ exists col v, getIndexElement c 0 = Some (col, v)
                           /\ pattern !! col = Some (Some v)).
Proof.
  exact (rewriteScan_collision (mkRelation "R" 2) 0 (Some duplicateColumn)
           (RamProject (mkRelation "S" 0) []) "" "scan" _ eq_refl).
Defined.

(** The loop never leaves the pattern vector when every bound column
    lies below the arity, so the result of [rewriteScan] is defined. *)
Lemma rewriteScan_defined (rel : RamRelation) (i : Z) (operation : RamOperation)
    (profileText : string) :
  (forall fc body text c col v,
      operation = RamFilter fc body text ->
      c ∈ getConditions fc ->
      getIndexElement c i = Some (col, v) -> (col < getArity rel)%nat) ->
  rewriteScan rel i operation profileText <> None.
Proof.
  intros Hcols. unfold rewriteScan.
  destruct operation as [| |fc body text| |]; try discriminate.
  assert (Hloop : forall rest seen st,
             afterConjuncts i (getArity rel) seen st ->
             (forall c, c ∈ rest -> forall col v,
                   getIndexElement c i = Some (col, v) -> (col < getArity rel)%nat) ->
             rewriteScanLoop i rest st <> None).
  { induction rest as [|c rest IH]; intros seen st Hinv Hin; simpl; [discriminate|].
    destruct (rewriteScanStep i st c) as [st1|] eqn:Hstep.
    - apply (IH (seen ++ [c]) st1).
      + eapply rewriteScanStep_spec; eauto.
      + intros d Hd. apply Hin. apply list_elem_of_further. exact Hd.
    - exfalso. unfold rewriteScanStep in Hstep.
      destruct (getIndexElement c i) as [[e v]|] eqn:Hc; [|discriminate].
      assert (He : (e < getArity rel)%nat)
        by (eapply Hin; [apply list_elem_of_here | exact Hc]).
      destruct Hinv as (Hlen & Hpat & _).
      rewrite (Hpat e He) in Hstep.
      destruct (firstBinding i e seen); discriminate. }
  destruct (rewriteScanLoop i (getConditions fc) _) as [st|] eqn:Hl.
  - destruct (indexable st); discriminate.
  - exfalso. revert Hl. apply (Hloop _ []); [apply afterConjuncts_init|].
    intros c Hc col v. apply (Hcols fc body text c col v eq_refl Hc).
Qed.

Lemma scanCapturer_profileText (node : RamOperation) (modified : bool) :
  getProfileText (fst (scanCapturer node modified)) = getProfileText node.
Proof.
  destruct node as [k r i b p|i rl rp a b p|c b p|r v|v]; simpl; try reflexivity.
  - destruct (isExistCheck i b).
    + destruct (scanCapturer b true); reflexivity.
    + destruct (scanCapturer b modified); reflexivity.
  - destruct (scanCapturer b modified); reflexivity.
  - destruct (scanCapturer b modified); reflexivity.
Qed.

Lemma scanCapturer_modified (node : RamOperation) :
  snd (scanCapturer node true) = true.
Proof.
  induction node as [k r i b IH p|i rl rp a b IH p|c b IH p|r v|v]; simpl; try reflexivity.
  - destruct (isExistCheck i b); destruct (scanCapturer b true); exact IH.
  - destruct (scanCapturer b true); exact IH.
  - destruct (scanCapturer b true); exact IH.
Qed.

(** C8.  The index scan that [rewriteScan] returns carries the profile
    text of the scan, and the filter by which the existence-check
    conversion replaces a relation search carries the profile text of
    the search; the mapper of the conversion leaves the profile text of
    every node it returns as it was. *)
Theorem profileText_carried (rel : RamRelation) (i : Z) (operation : RamOperation)
    (profileText : string) :
  (forall out,
      rewriteScan rel i operation profileText = Some (Some out) ->
      (exists pattern inner, out = RamIndexScan rel i pattern inner profileText)
      /\ getProfileText out = profileText)
  /\ (forall kind out,
        convertSearch (RamRelationSearch kind rel i operation profileText) = (out, true) ->
        (exists c, out = RamFilter c operation profileText)
        /\ getProfileText out = profileText)
  /\ (forall kind modified,
        getProfileText
          (fst (scanCapturer (RamRelationSearch kind rel i operation profileText) modified))
        = profileText).
Proof.
  split; [|split].
  - intros out. unfold rewriteScan.
    destruct operation as [| |fc body text| |]; try discriminate.
    destruct (rewriteScanLoop i (getConditions fc) _) as [st|]; [|discriminate].
    destruct (indexable st); [|discriminate].
    intros [= <-]. split; [eauto | reflexivity].
  - intros kind out. unfold convertSearch.
    destruct (isExistCheck i operation); [|discriminate].
    intros [= <-]. split; [eauto | reflexivity].
  - intros kind modified. apply scanCapturer_profileText.
Qed.

Lemma profileText_carried_witness :
  getProfileText
    (RamIndexScan (mkRelation "R" 2) 0 [Some (RamNumber 9); None]
       (RamFilter (Some (RamConstraint EQ (RamElementAccess 0 0) (RamNumber 7)))
          (RamProject (mkRelation "S" 0) []) "")
       "scan") = "scan"
  /\ getProfileText
       (RamFilter (Some (RamNegation (RamEmptinessCheck (mkRelation "R" 2))))
          (RamFilter (Some duplicateColumn) (RamProject (mkRelation "S" 0) []) "")
          "scan") = "scan".
Proof.
  pose proof (profileText_carried (mkRelation "R" 2) 1
                (RamFilter (Some duplicateColumn) (RamProject (mkRelation "S" 0) []) "")
                "scan") as [_ [Hconv _]].
  pose proof (profileText_carried (mkRelation "R" 2) 0
                (RamFilter (Some duplicateColumn) (RamProject (mkRelation "S" 0) []) "")
                "scan") as [Hscan _].
  split.
  - exact (proj2 (Hscan _ eq_refl)).
  - exact (proj2 (Hconv Scan _ eq_refl)).
Defined.

(** C9.  For a relation search that is neither a scan nor an index scan
    and whose nested operation passes the three visits, no constraint
    is built, and the search is nevertheless replaced: by a filter whose
    condition is null, with [modified] set. *)
Theorem convertSearch_other_subclass (rel : RamRelation) (i : Z) (body : RamOperation)
    (profileText : string) :
  isExistCheck i body = true ->
  existenceConstraint OtherSearch rel = None
  /\ convertSearch (RamRelationSearch OtherSearch rel i body profileText)
     = (RamFilter None body profileText, true)
  /\ forall modified,
       scanCapturer (RamRelationSearch OtherSearch rel i body profileText) modified
       = (RamFilter None (fst (scanCapturer body true)) profileText, true).
Proof.
  intros Hcheck. split; [reflexivity|]. split.
  - unfold convertSearch. rewrite Hcheck. reflexivity.
  - intros modified. simpl. rewrite Hcheck.
    pose proof (scanCapturer_modified body) as Hm.
    destruct (scanCapturer body true) as [b' m']. simpl in *. rewrite Hm. reflexivity.
Qed.

Lemma convertSearch_other_subclass_witness :
  convertSearch
    (RamRelationSearch OtherSearch (mkRelation "R" 1) 0
       (RamProject (mkRelation "S" 1) [RamNumber 1]) "search")
  = (RamFilter None (RamProject (mkRelation "S" 1) [RamNumber 1]) "search", true).
Proof.
  exact (proj1 (proj2 (convertSearch_other_subclass (mkRelation "R" 1) 0
                         (RamProject (mkRelation "S" 1) [RamNumber 1]) "search"
                         eq_refl))).
Defined.

(** ** Properties of the existence-check conversion *)


























Lemma clone_pattern (values : list (option RamExpression)) :
  map (fun value : option RamExpression =>
         match value with Some v => Some v | None => None end) values = values.
Proof.
  induction values as [|[v|] l IH]; simpl; [reflexivity | rewrite IH ..]; reflexivity.
Qed.



(** A scan whose projection reads its own tuple is left as it is. *)
Example convertSearch_dependent :
  convertSearch
    (RamScan (mkRelation "R" 1) 0
       (RamProject (mkRelation "S" 1) [RamElementAccess 0 0]) "")
  = (RamScan (mkRelation "R" 1) 0
       (RamProject (mkRelation "S" 1) [RamElementAccess 0 0]) "", false).
Proof. reflexivity. Qed.

(** ** Properties of condition levelling *)

(** The conditions that [filterRewriter] collects for a level, in the
    order in which it meets them, and the operation it returns. *)
Fixpoint collect (level : Z) (node : RamOperation) : list RamCondition :=
  match node with
  | RamFilter (Some c) operation _ =>
      if getConditionLevel c =? level then c :: collect level operation
      else collect level operation
  | RamFilter None operation _ => collect level operation
  | RamRelationSearch _ _ _ operation _ => collect level operation
  | RamUnpackRecord _ _ _ _ operation _ => collect level operation
  | RamProject _ _ => []
  | RamReturn _ => []
  end.

Fixpoint strip (level : Z) (node : RamOperation) : RamOperation :=
  match node with
  | RamFilter (Some c) operation profileText =>
      if getConditionLevel c =? level then strip level operation
      else RamFilter (Some c) (strip level operation) profileText
  | RamFilter None operation profileText =>
      RamFilter None (strip level operation) profileText
  | RamRelationSearch kind rel identifier operation profileText =>
      RamRelationSearch kind rel identifier (strip level operation) profileText
  | RamUnpackRecord identifier referenceLevel referencePosition arity operation
      profileText =>
      RamUnpackRecord identifier referenceLevel referencePosition arity
        (strip level operation) profileText
  | RamProject _ _ => node
  | RamReturn _ => node
  end.

Definition nonEmpty {A} (l : list A) : bool :=
  match l with [] => false | _ => true end.

(** The nested operation after one visit of [hoist]. *)
Definition hoisted (level : Z) (operation : RamOperation) : RamOperation :=
  match collect level operation with
  | [] => strip level operation
  | c :: cs => insertFilter (strip level operation) (leftChain c cs)
  end.

Lemma filterRewriter_spec (level : Z) (node : RamOperation) :
  forall acc changed,
    filterRewriter level node (acc, changed)
    = (strip level node,
       (fold_left addCondition (collect level node) acc,
        changed || nonEmpty (collect level node))).
Proof.
  induction node as [k r i b IH p|i rl rp a b IH p|c b IH p|r v|v];
    intros acc changed; simpl.
  - rewrite IH. reflexivity.
  - rewrite IH. reflexivity.
  - destruct c as [c|].
    + destruct (getConditionLevel c =? level).
      * rewrite IH. simpl. rewrite orb_true_r. reflexivity.
      * rewrite IH. reflexivity.
    + rewrite IH. reflexivity.
  - rewrite orb_false_r. reflexivity.
  - rewrite orb_false_r. reflexivity.
Qed.

Lemma fold_addCondition (cs : list RamCondition) (c : RamCondition) :
  fold_left addCondition cs (Some c) = Some (leftChain c cs).
Proof.
  unfold leftChain. revert c. induction cs as [|d cs IH]; intros c; simpl.
  - reflexivity.
  - apply IH.
Qed.

Lemma hoist_spec (level : Z) (operation : RamOperation) (changed : bool) :
  hoist level operation changed
  = (hoisted level operation, changed || nonEmpty (collect level operation)).
Proof.
  unfold hoist, hoisted. rewrite filterRewriter_spec.
  destruct (collect level operation) as [|c cs]; simpl.
  - reflexivity.
  - rewrite fold_addCondition, orb_true_r. reflexivity.
Qed.

Lemma strip_free (level : Z) (node : RamOperation) :
  collect level node = [] -> strip level node = node.
Proof.
  induction node as [k r i b IH p|i rl rp a b IH p|c b IH p|r v|v]; simpl; intros H.
  - rewrite IH by exact H. reflexivity.
  - rewrite IH by exact H. reflexivity.
  - destruct c as [c|].
    + destruct (getConditionLevel c =? level); [discriminate|].
      rewrite IH by exact H. reflexivity.
    + rewrite IH by exact H. reflexivity.
  - reflexivity.
  - reflexivity.
Qed.

Lemma collect_strip (level level' : Z) (node : RamOperation) :
  collect level (strip level' node)
  = if level =? level' then [] else collect level node.
Proof.
  induction node as [k r i b IH p|i rl rp a b IH p|c b IH p|r v|v]; simpl;
    try exact IH.
  - destruct c as [c|]; [|exact IH].
    destruct (Z.eqb_spec (getConditionLevel c) level') as [Hc|Hc].
    + rewrite IH. destruct (Z.eqb_spec level level') as [Hl|Hl]; [reflexivity|].
      destruct (Z.eqb_spec (getConditionLevel c) level); [lia | reflexivity].
    + simpl. rewrite IH. destruct (Z.eqb_spec level level') as [Hl|Hl].
      * destruct (Z.eqb_spec (getConditionLevel c) level); [lia | reflexivity].
      * reflexivity.
  - destruct (level =? level'); reflexivity.
  - destruct (level =? level'); reflexivity.
Qed.

Lemma collect_level (level : Z) (node : RamOperation) :
  Forall (fun c => getConditionLevel c = level) (collect level node).
Proof.
  induction node as [k r i b IH p|i rl rp a b IH p|c b IH p|r v|v]; simpl;
    try exact IH; try constructor.
  destruct c as [c|]; [|exact IH].
  destruct (Z.eqb_spec (getConditionLevel c) level); [constructor; assumption | exact IH].
Qed.

Lemma leftChain_level (level : Z) (cs : list RamCondition) : forall c,
  getConditionLevel c = level ->
  Forall (fun d => getConditionLevel d = level) cs ->
  getConditionLevel (leftChain c cs) = level.
Proof.
  unfold leftChain. induction cs as [|d cs IH]; intros c Hc Hcs; simpl.
  - exact Hc.
  - apply Forall_cons_1 in Hcs. destruct Hcs as [Hd Hcs].
    apply IH; [|exact Hcs]. simpl. lia.
Qed.

(** Where the visit collects nothing, it changes nothing; a filter at
    the level on top of an operation without such filters is taken off
    and put back. *)
Lemma hoisted_free (level : Z) (operation : RamOperation) :
  collect level operation = [] -> hoisted level operation = operation.
Proof. intros H. unfold hoisted. rewrite H. apply strip_free. exact H. Qed.

Lemma hoisted_top (level : Z) (c : RamCondition) (operation : RamOperation) :
  getConditionLevel c = level -> collect level operation = [] ->
  hoisted level (insertFilter operation c) = insertFilter operation c
  /\ collect level (insertFilter operation c) = [c].
Proof.
  intros Hc Hfree. unfold hoisted, insertFilter. simpl.
  rewrite Hc, Z.eqb_refl, Hfree. simpl.
  rewrite (strip_free level operation Hfree). split; reflexivity.
Qed.

Lemma hoisted_free_other (level level' : Z) (operation : RamOperation) :
  collect level operation = [] -> collect level (hoisted level' operation) = [].
Proof.
  intros Hfree. unfold hoisted.
  pose proof (collect_level level' operation) as Hlevels.
  destruct (collect level' operation) as [|c cs] eqn:Hcol.
  - rewrite collect_strip, Hfree. destruct (level =? level'); reflexivity.
  - unfold insertFilter. simpl. rewrite collect_strip, Hfree.
    apply Forall_cons_1 in Hlevels. destruct Hlevels as [Hc Hcs].
    rewrite (leftChain_level level' cs c Hc Hcs).
    destruct (Z.eqb_spec level' level) as [Heq|Hne].
    + rewrite Heq, Hfree in Hcol. discriminate.
    + destruct (level =? level'); reflexivity.
Qed.

(** The program and the flag of a sweep whose visit adds its own flag
    to the one it is given. *)
Fixpoint mapQueries (f : RamOperation -> RamOperation) (statement : RamStatement)
  : RamStatement :=
  match statement with
  | RamQuery operation => RamQuery (f operation)
  | RamSequence statements => RamSequence (map (mapQueries f) statements)
  end.

Fixpoint anyQuery (g : RamOperation -> bool) (statement : RamStatement) : bool :=
  match statement with
  | RamQuery operation => g operation
  | RamSequence statements => existsb (anyQuery g) statements
  end.

Section StatementInduction.
Variable P : RamStatement -> Prop.
Hypothesis HQuery : forall operation, P (RamQuery operation).
Hypothesis HSequence : forall statements, Forall P statements -> P (RamSequence statements).

Fixpoint RamStatement_nested_ind (s : RamStatement) : P s :=
  match s with
  | RamQuery operation => HQuery operation
  | RamSequence statements =>
      HSequence statements
        ((fix go (l : list RamStatement) : Forall P l :=
            match l with
            | [] => @List.Forall_nil _ P
            | a :: l' => @List.Forall_cons _ P a l' (RamStatement_nested_ind a) (go l')
            end) statements)
  end.
End StatementInduction.

Lemma sweepQueries_spec (visit : RamOperation -> bool -> RamOperation * bool)
    (f : RamOperation -> RamOperation) (g : RamOperation -> bool) :
  (forall operation changed, visit operation changed = (f operation, changed || g operation)) ->
  forall statement changed,
    sweepQueries visit statement changed
    = (mapQueries f statement, changed || anyQuery g statement).
Proof.
  intros Hvisit statement.
  induction statement as [operation|statements IH] using RamStatement_nested_ind;
    intros changed; simpl.
  - rewrite Hvisit. reflexivity.
  - revert changed. induction IH as [|s l Hs Hl IHl]; intros changed; simpl.
    + rewrite orb_false_r. reflexivity.
    + rewrite Hs.
      match goal with
      | |- (let (_, _) := (let (_, _) := ?t in _) in _) = _ =>
          specialize (IHl (changed || anyQuery g s)); destruct t as [l' c'] eqn:Ht
      end.
      inversion IHl; subst. rewrite orb_assoc. reflexivity.
Qed.

Lemma mapQueries_pointwise (f f' : RamOperation -> RamOperation) (statement : RamStatement) :
  (forall operation, f operation = f' operation) ->
  mapQueries f statement = mapQueries f' statement.
Proof.
  intros Hf.
  induction statement as [operation|statements IH] using RamStatement_nested_ind; simpl.
  - rewrite Hf. reflexivity.
  - f_equal. induction IH as [|s l Hs Hl IHl]; simpl; [reflexivity|].
    rewrite Hs, IHl. reflexivity.
Qed.

Lemma mapQueries_compose (f f' : RamOperation -> RamOperation) (statement : RamStatement) :
  mapQueries f (mapQueries f' statement) = mapQueries (fun o => f (f' o)) statement.
Proof.
  induction statement as [operation|statements IH] using RamStatement_nested_ind; simpl.
  - reflexivity.
  - f_equal. induction IH as [|s l Hs Hl IHl]; simpl; [reflexivity|].
    rewrite Hs, IHl. reflexivity.
Qed.

Lemma anyQuery_pointwise (g g' : RamOperation -> bool) (statement : RamStatement) :
  (forall operation, g operation = g' operation) ->
  anyQuery g statement = anyQuery g' statement.
Proof.
  intros Hg.
  induction statement as [operation|statements IH] using RamStatement_nested_ind; simpl.
  - apply Hg.
  - induction IH as [|s l Hs Hl IHl]; simpl; [reflexivity|].
    rewrite Hs, IHl. reflexivity.
Qed.

Lemma anyQuery_mapQueries (g : RamOperation -> bool) (f : RamOperation -> RamOperation)
    (statement : RamStatement) :
  anyQuery g (mapQueries f statement) = anyQuery (fun o => g (f o)) statement.
Proof.
  induction statement as [operation|statements IH] using RamStatement_nested_ind; simpl.
  - reflexivity.
  - induction IH as [|s l Hs Hl IHl]; simpl; [reflexivity|].
    rewrite Hs, IHl. reflexivity.
Qed.

Lemma hoistSearches_step (unpackIsSearch : bool) (node : RamOperation) (changed : bool) :
  hoistSearches unpackIsSearch node changed =
  match node with
  | RamRelationSearch kind rel identifier operation profileText =>
      let r := hoistSearches unpackIsSearch (hoisted identifier operation)
                 (changed || nonEmpty (collect identifier operation)) in
      (RamRelationSearch kind rel identifier (fst r) profileText, snd r)
  | RamUnpackRecord identifier referenceLevel referencePosition arity operation
      profileText =>
      let r := if unpackIsSearch
               then hoistSearches unpackIsSearch (hoisted identifier operation)
                      (changed || nonEmpty (collect identifier operation))
               else hoistSearches unpackIsSearch operation changed in
      (RamUnpackRecord identifier referenceLevel referencePosition arity (fst r)
         profileText, snd r)
  | RamFilter c operation profileText =>
      let r := hoistSearches unpackIsSearch operation changed in
      (RamFilter c (fst r) profileText, snd r)
  | _ => (node, changed)
  end.
Proof.
  destruct node; simp hoistSearches; try reflexivity.
  all: rewrite hoist_spec; reflexivity.
Qed.

Lemma hoisted_size (level : Z) (operation : RamOperation) :
  (operationSize (hoisted level operation) <= operationSize operation)%nat.
Proof.
  pose proof (hoist_size level operation false) as H.
  rewrite hoist_spec in H. exact H.
Qed.

(** The operation and the flag that the second sweep returns. *)
Definition searchesHoisted (unpackIsSearch : bool) (node : RamOperation) : RamOperation :=
  fst (hoistSearches unpackIsSearch node false).

Definition searchesChanged (unpackIsSearch : bool) (node : RamOperation) : bool :=
  snd (hoistSearches unpackIsSearch node false).

Lemma hoistSearches_flag_sized (unpackIsSearch : bool) (n : nat) : forall node changed,
  (operationSize node <= n)%nat ->
  hoistSearches unpackIsSearch node changed
  = (searchesHoisted unpackIsSearch node, changed || searchesChanged unpackIsSearch node).
Proof.
  unfold searchesHoisted, searchesChanged.
  induction n as [|n IH]; intros node changed Hsize.
  - destruct node; simpl in Hsize; lia.
  - rewrite (hoistSearches_step unpackIsSearch node changed), (hoistSearches_step unpackIsSearch node false).
    destruct node as [k r i b p|i rl rp a b p|c b p|r v|v]; simpl in Hsize |- *.
    + pose proof (hoisted_size i b) as Hh.
      rewrite (IH (hoisted i b) (changed || nonEmpty (collect i b))) by lia.
      rewrite (IH (hoisted i b) (nonEmpty (collect i b))) by lia.
      simpl. rewrite orb_assoc. reflexivity.
    + destruct unpackIsSearch.
      * pose proof (hoisted_size i b) as Hh.
        rewrite (IH (hoisted i b) (changed || nonEmpty (collect i b))) by lia.
        rewrite (IH (hoisted i b) (nonEmpty (collect i b))) by lia.
        simpl. rewrite orb_assoc. reflexivity.
      * rewrite (IH b changed) by lia. simpl. reflexivity.
    + rewrite (IH b changed) by lia. simpl. reflexivity.
    + rewrite orb_false_r. reflexivity.
    + rewrite orb_false_r. reflexivity.
Qed.

Lemma hoistSearches_flag (unpackIsSearch : bool) (node : RamOperation) (changed : bool) :
  hoistSearches unpackIsSearch node changed
  = (searchesHoisted unpackIsSearch node, changed || searchesChanged unpackIsSearch node).
Proof. apply (hoistSearches_flag_sized unpackIsSearch (operationSize node)). lia. Qed.

Lemma searchesHoisted_step (unpackIsSearch : bool) (node : RamOperation) :
  searchesHoisted unpackIsSearch node =
  match node with
  | RamRelationSearch kind rel identifier operation profileText =>
      RamRelationSearch kind rel identifier
        (searchesHoisted unpackIsSearch (hoisted identifier operation)) profileText
  | RamUnpackRecord identifier referenceLevel referencePosition arity operation
      profileText =>
      RamUnpackRecord identifier referenceLevel referencePosition arity
        (searchesHoisted unpackIsSearch (if unpackIsSearch then hoisted identifier operation
                          else operation)) profileText
  | RamFilter c operation profileText =>
      RamFilter c (searchesHoisted unpackIsSearch operation) profileText
  | _ => node
  end.
Proof.
  unfold searchesHoisted at 1. rewrite (hoistSearches_step unpackIsSearch).
  destruct node; simpl; try reflexivity.
  2: destruct unpackIsSearch; [|reflexivity].
  all: rewrite hoistSearches_flag; reflexivity.
Qed.

Lemma searchesChanged_step (unpackIsSearch : bool) (node : RamOperation) :
  searchesChanged unpackIsSearch node =
  match node with
  | RamRelationSearch _ _ identifier operation _ =>
      nonEmpty (collect identifier operation)
      || searchesChanged unpackIsSearch (hoisted identifier operation)
  | RamUnpackRecord identifier _ _ _ operation _ =>
      if unpackIsSearch
      then nonEmpty (collect identifier operation)
           || searchesChanged unpackIsSearch (hoisted identifier operation)
      else searchesChanged unpackIsSearch operation
  | RamFilter _ operation _ => searchesChanged unpackIsSearch operation
  | _ => false
  end.
Proof.
  unfold searchesChanged at 1. rewrite (hoistSearches_step unpackIsSearch).
  destruct node; simpl; try reflexivity.
  2: destruct unpackIsSearch; [|reflexivity].
  all: rewrite hoistSearches_flag; reflexivity.
Qed.

(** The second sweep brings no filter of a level into an operation
    that has none. *)
Lemma searchesHoisted_free_sized (unpackIsSearch : bool) (level : Z) (n : nat) : forall node,
  (operationSize node <= n)%nat ->
  collect level node = [] -> collect level (searchesHoisted unpackIsSearch node) = [].
Proof.
  induction n as [|n IH]; intros node Hsize Hfree.
  - destruct node; simpl in Hsize; lia.
  - rewrite (searchesHoisted_step unpackIsSearch).
    destruct node as [k r i b p|i rl rp a b p|c b p|r v|v]; simpl in Hsize, Hfree |- *.
    + pose proof (hoisted_size i b). apply IH; [lia|].
      apply hoisted_free_other. exact Hfree.
    + destruct unpackIsSearch.
      * pose proof (hoisted_size i b). apply IH; [lia|].
        apply hoisted_free_other. exact Hfree.
      * apply IH; [lia | exact Hfree].
    + destruct c as [c|].
      * destruct (getConditionLevel c =? level); [discriminate|]. apply IH; [lia | exact Hfree].
      * apply IH; [lia | exact Hfree].
    + reflexivity.
    + reflexivity.
Qed.

Lemma searchesHoisted_free (unpackIsSearch : bool) (level : Z) (node : RamOperation) :
  collect level node = [] -> collect level (searchesHoisted unpackIsSearch node) = [].
Proof. apply (searchesHoisted_free_sized unpackIsSearch level (operationSize node)). lia. Qed.

(** After the second sweep below it, a visit of [hoist] for the same
    level finds what the first one put there, takes it off and puts it
    back. *)
Lemma hoisted_settled (unpackIsSearch : bool) (level : Z) (operation : RamOperation) :
  hoisted level (searchesHoisted unpackIsSearch (hoisted level operation))
  = searchesHoisted unpackIsSearch (hoisted level operation)
  /\ nonEmpty (collect level (searchesHoisted unpackIsSearch (hoisted level operation)))
     = nonEmpty (collect level operation).
Proof.
  pose proof (collect_level level operation) as Hlevels.
  destruct (collect level operation) as [|c cs] eqn:Hcol.
  - rewrite (hoisted_free level operation Hcol).
    pose proof (searchesHoisted_free unpackIsSearch level operation Hcol) as Hfree.
    rewrite (hoisted_free level _ Hfree), Hfree. split; reflexivity.
  - apply Forall_cons_1 in Hlevels. destruct Hlevels as [Hc Hcs].
    pose proof (leftChain_level level cs c Hc Hcs) as Hchain.
    assert (Hfree : collect level (searchesHoisted unpackIsSearch (strip level operation)) = []).
    { apply (searchesHoisted_free unpackIsSearch). rewrite collect_strip, Z.eqb_refl. reflexivity. }
    assert (Hh : hoisted level operation
                 = insertFilter (strip level operation) (leftChain c cs))
      by (unfold hoisted; rewrite Hcol; reflexivity).
    rewrite Hh. unfold insertFilter at 1 2 3. rewrite (searchesHoisted_step unpackIsSearch).
    destruct (hoisted_top level (leftChain c cs)
                (searchesHoisted unpackIsSearch (strip level operation)) Hchain Hfree) as [Htop Hcollect].
    unfold insertFilter in Htop, Hcollect. rewrite Htop, Hcollect. split; reflexivity.
Qed.

Lemma searchesHoisted_idempotent_sized (unpackIsSearch : bool) (n : nat) : forall node,
  (operationSize node <= n)%nat ->
  searchesHoisted unpackIsSearch (searchesHoisted unpackIsSearch node)
  = searchesHoisted unpackIsSearch node
  /\ searchesChanged unpackIsSearch (searchesHoisted unpackIsSearch node)
     = searchesChanged unpackIsSearch node.
Proof.
  induction n as [|n IH]; intros node Hsize.
  - destruct node; simpl in Hsize; lia.
  - rewrite (searchesHoisted_step unpackIsSearch node), (searchesChanged_step unpackIsSearch node).
    destruct node as [k r i b p|i rl rp a b p|c b p|r v|v]; simpl in Hsize.
    + pose proof (hoisted_size i b) as Hh.
      destruct (IH (hoisted i b) ltac:(lia)) as [IH1 IH2].
      destruct (hoisted_settled unpackIsSearch i b) as [Hs1 Hs2].
      rewrite (searchesHoisted_step unpackIsSearch), (searchesChanged_step unpackIsSearch).
      rewrite Hs1, Hs2, IH1, IH2. split; reflexivity.
    + rewrite (searchesHoisted_step unpackIsSearch), (searchesChanged_step unpackIsSearch).
      destruct unpackIsSearch.
      * pose proof (hoisted_size i b) as Hh.
        destruct (IH (hoisted i b) ltac:(lia)) as [IH1 IH2].
        destruct (hoisted_settled true i b) as [Hs1 Hs2].
        rewrite Hs1, Hs2, IH1, IH2. split; reflexivity.
      * destruct (IH b ltac:(lia)) as [IH1 IH2].
        rewrite IH1, IH2. split; reflexivity.
    + destruct (IH b ltac:(lia)) as [IH1 IH2].
      rewrite (searchesHoisted_step unpackIsSearch), (searchesChanged_step unpackIsSearch).
      rewrite IH1, IH2. split; reflexivity.
    + split; reflexivity.
    + split; reflexivity.
Qed.

Lemma searchesHoisted_idempotent (unpackIsSearch : bool) (node : RamOperation) :
  searchesHoisted unpackIsSearch (searchesHoisted unpackIsSearch node)
  = searchesHoisted unpackIsSearch node
  /\ searchesChanged unpackIsSearch (searchesHoisted unpackIsSearch node)
     = searchesChanged unpackIsSearch node.
Proof. apply (searchesHoisted_idempotent_sized unpackIsSearch (operationSize node)). lia. Qed.

Lemma levelConditions_spec (unpackIsSearch : bool) (program : RamStatement) :
  levelConditions unpackIsSearch program
  = (mapQueries (fun o => searchesHoisted unpackIsSearch (hoisted (-1) o)) program,
     anyQuery (fun o => nonEmpty (collect (-1) o)) program
     || anyQuery (fun o => searchesChanged unpackIsSearch (hoisted (-1) o)) program).
Proof.
  unfold levelConditions.
  rewrite (sweepQueries_spec (hoist (-1)) (hoisted (-1))
             (fun o => nonEmpty (collect (-1) o)))
    by (intros; apply hoist_spec).
  rewrite (sweepQueries_spec (hoistSearches unpackIsSearch)
             (searchesHoisted unpackIsSearch) (searchesChanged unpackIsSearch))
    by (intros; apply (hoistSearches_flag unpackIsSearch)).
  rewrite mapQueries_compose, anyQuery_mapQueries. simpl. reflexivity.
Qed.

(** C1.  The code departs from the claim.  A second application of
    [levelConditions] returns the program of the first as it is, and
    with it the same flag: the filters that the first application has
    put at the top of a query or below a search are taken off and put
    back by the second, which sets [changed] although the program is
    what it was.  So the second application reports a change whenever
    the first one did. *)
Theorem levelConditions_second_application (unpackIsSearch : bool)
    (program : RamStatement) :
  levelConditions unpackIsSearch (fst (levelConditions unpackIsSearch program))
  = levelConditions unpackIsSearch program.
Proof.
  rewrite (levelConditions_spec unpackIsSearch (fst (levelConditions unpackIsSearch program))).
  rewrite (levelConditions_spec unpackIsSearch program). simpl.
  rewrite !mapQueries_compose, !anyQuery_mapQueries.
  f_equal; [|f_equal].
  - apply mapQueries_pointwise. intros o.
    rewrite (proj1 (hoisted_settled unpackIsSearch (-1) o)).
    apply (proj1 (searchesHoisted_idempotent unpackIsSearch _)).
  - apply anyQuery_pointwise. intros o. apply (proj2 (hoisted_settled unpackIsSearch (-1) o)).
  - apply anyQuery_pointwise. intros o.
    rewrite (proj1 (hoisted_settled unpackIsSearch (-1) o)).
    apply (proj2 (searchesHoisted_idempotent unpackIsSearch _)).
Qed.

(** Scenario S1: the filter on [3 = 3] below the scan is hoisted to the
    top of the query. *)
Definition outerFilterQuery : RamStatement :=
  RamQuery
    (RamScan (mkRelation "R" 1) 0
       (RamFilter (Some (RamConstraint EQ (RamNumber 3) (RamNumber 3)))
          (RamProject (mkRelation "S" 1) [RamElementAccess 0 0]) "") "").

Example levelConditions_outer_filter (unpackIsSearch : bool) :
  levelConditions unpackIsSearch outerFilterQuery
  = (RamQuery
       (RamFilter (Some (RamConstraint EQ (RamNumber 3) (RamNumber 3)))
          (RamScan (mkRelation "R" 1) 0
             (RamProject (mkRelation "S" 1) [RamElementAccess 0 0]) "") ""),
     true).
Proof. destruct unpackIsSearch; reflexivity. Qed.

(** On the program that the first application returns for scenario S1,
    the second application returns the same program and reports a
    change. *)
Example levelConditions_second_run (unpackIsSearch : bool) :
  levelConditions unpackIsSearch (fst (levelConditions unpackIsSearch outerFilterQuery))
  = (fst (levelConditions unpackIsSearch outerFilterQuery), true).
Proof. destruct unpackIsSearch; reflexivity. Qed.

(** C1 as stated fails: on the program that the first application
    returns for scenario S1, the second application reports a change
    again (and returns the same program). *)
Lemma levelConditions_idempotence_counterexample :
  ~ (forall (unpackIsSearch : bool) (program : RamStatement),
        snd (levelConditions unpackIsSearch
               (fst (levelConditions unpackIsSearch program))) = false).
Proof.
  intros H. specialize (H true outerFilterQuery). vm_compute in H. discriminate H.
Qed.

(** ** Further properties of condition levelling *)

(** A sweep that reports no change has left every query as it was. *)
Lemma searchesChanged_false_sized (unpackIsSearch : bool) (n : nat) : forall node,
  (operationSize node <= n)%nat ->
  searchesChanged unpackIsSearch node = false ->
  searchesHoisted unpackIsSearch node = node.
Proof.
  induction n as [|n IH]; intros node Hsize.
  - destruct node; simpl in Hsize; lia.
  - rewrite (searchesHoisted_step unpackIsSearch node),
      (searchesChanged_step unpackIsSearch node).
    destruct node as [k r i b p|i rl rp a b p|c b p|r v|v]; simpl in Hsize;
      intros Hch; try reflexivity.
    + apply orb_false_iff in Hch. destruct Hch as [Hcol Hch].
      destruct (collect i b) eqn:Hc; [|discriminate].
      rewrite (hoisted_free i b Hc) in Hch |- *. rewrite IH by (lia || assumption).
      reflexivity.
    + destruct unpackIsSearch.
      * apply orb_false_iff in Hch. destruct Hch as [Hcol Hch].
        destruct (collect i b) eqn:Hc; [|discriminate].
        rewrite (hoisted_free i b Hc) in Hch |- *. rewrite IH by (lia || assumption).
        reflexivity.
      * rewrite IH by (lia || assumption). reflexivity.
    + rewrite IH by (lia || assumption). reflexivity.
Qed.

Lemma mapQueries_unchanged (f : RamOperation -> RamOperation) (g : RamOperation -> bool)
    (statement : RamStatement) :
  (forall o, g o = false -> f o = o) ->
  anyQuery g statement = false -> mapQueries f statement = statement.
Proof.
  intros Hfg.
  induction statement as [operation|statements IH] using RamStatement_nested_ind; simpl.
  - intros Hg. rewrite Hfg by exact Hg. reflexivity.
  - intros Hg. f_equal. induction IH as [|s l Hs Hl IHl]; simpl in *; [reflexivity|].
    apply orb_false_iff in Hg. destruct Hg as [Hg1 Hg2].
    rewrite Hs by exact Hg1. rewrite IHl by exact Hg2. reflexivity.
Qed.

Lemma anyQuery_orb (g g' : RamOperation -> bool) (statement : RamStatement) :
  anyQuery (fun o => g o || g' o) statement
  = anyQuery g statement || anyQuery g' statement.
Proof.
  induction statement as [operation|statements IH] using RamStatement_nested_ind; simpl.
  - reflexivity.
  - induction IH as [|s l Hs Hl IHl]; simpl; [reflexivity|].
    rewrite Hs, IHl.
    destruct (anyQuery g s), (anyQuery g' s), (existsb (anyQuery g) l); reflexivity.
Qed.

(** X1.  When [levelConditions] returns [false], the program is
    structurally what it was: no filter was removed or inserted. *)
Theorem levelConditions_unchanged (unpackIsSearch : bool) (program : RamStatement) :
  snd (levelConditions unpackIsSearch program) = false ->
  fst (levelConditions unpackIsSearch program) = program.
Proof.
  rewrite (levelConditions_spec unpackIsSearch program). simpl. intros Hch.
  apply (mapQueries_unchanged _
           (fun o => nonEmpty (collect (-1) o)
                     || searchesChanged unpackIsSearch (hoisted (-1) o))).
  - intros o Ho. apply orb_false_iff in Ho. destruct Ho as [Hcol Hs].
    destruct (collect (-1) o) eqn:Hc; [|discriminate].
    rewrite (hoisted_free (-1) o Hc) in Hs |- *.
    apply (searchesChanged_false_sized unpackIsSearch (operationSize o)); [lia | exact Hs].
  - rewrite anyQuery_orb. exact Hch.
Qed.

Lemma levelConditions_unchanged_witness :
  fst (levelConditions true
         (RamQuery (RamScan (mkRelation "R" 1) 0
                      (RamProject (mkRelation "S" 1) [RamElementAccess 0 0]) "")))
  = RamQuery (RamScan (mkRelation "R" 1) 0
                (RamProject (mkRelation "S" 1) [RamElementAccess 0 0]) "").
Proof.
  apply (levelConditions_unchanged true). reflexivity.
Defined.

(** The operations of the queries of a program, in the order of the
    sweep. *)
Fixpoint queriesOf (statement : RamStatement) : list RamOperation :=
  match statement with
  | RamQuery operation => [operation]
  | RamSequence statements => flat_map queriesOf statements
  end.

Lemma queriesOf_mapQueries (f : RamOperation -> RamOperation) (statement : RamStatement) :
  queriesOf (mapQueries f statement) = map f (queriesOf statement).
Proof.
  induction statement as [operation|statements IH] using RamStatement_nested_ind; simpl.
  - reflexivity.
  - induction IH as [|s l Hs Hl IHl]; simpl; [reflexivity|].
    rewrite Hs, IHl, map_app. reflexivity.
Qed.

Lemma queriesOf_levelConditions (unpackIsSearch : bool) (program : RamStatement) :
  queriesOf (fst (levelConditions unpackIsSearch program))
  = map (fun o => searchesHoisted unpackIsSearch (hoisted (-1) o)) (queriesOf program).
Proof.
  rewrite (levelConditions_spec unpackIsSearch program). simpl.
  apply queriesOf_mapQueries.
Qed.

(** The nest of an operation without its filters. *)
Fixpoint withoutFilters (node : RamOperation) : RamOperation :=
  match node with
  | RamRelationSearch kind rel identifier operation profileText =>
      RamRelationSearch kind rel identifier (withoutFilters operation) profileText
  | RamUnpackRecord identifier referenceLevel referencePosition arity operation
      profileText =>
      RamUnpackRecord identifier referenceLevel referencePosition arity
        (withoutFilters operation) profileText
  | RamFilter _ operation _ => withoutFilters operation
  | RamProject _ _ => node
  | RamReturn _ => node
  end.

Lemma withoutFilters_strip (level : Z) (node : RamOperation) :
  withoutFilters (strip level node) = withoutFilters node.
Proof.
  induction node as [k r i b IH p|i rl rp a b IH p|c b IH p|r v|v]; simpl;
    try (rewrite IH; reflexivity); try reflexivity.
  destruct c as [c|]; [destruct (getConditionLevel c =? level)|]; simpl; exact IH.
Qed.

Lemma withoutFilters_hoisted (level : Z) (node : RamOperation) :
  withoutFilters (hoisted level node) = withoutFilters node.
Proof.
  unfold hoisted. destruct (collect level node); simpl; apply withoutFilters_strip.
Qed.

Lemma withoutFilters_searchesHoisted_sized (unpackIsSearch : bool) (n : nat) :
  forall node, (operationSize node <= n)%nat ->
  withoutFilters (searchesHoisted unpackIsSearch node) = withoutFilters node.
Proof.
  induction n as [|n IH]; intros node Hsize.
  - destruct node; simpl in Hsize; lia.
  - rewrite (searchesHoisted_step unpackIsSearch node).
    destruct node as [k r i b p|i rl rp a b p|c b p|r v|v]; simpl in Hsize |- *;
      try reflexivity.
    + pose proof (hoisted_size i b). rewrite IH by lia.
      rewrite withoutFilters_hoisted. reflexivity.
    + destruct unpackIsSearch.
      * pose proof (hoisted_size i b). rewrite IH by lia.
        rewrite withoutFilters_hoisted. reflexivity.
      * rewrite IH by lia. reflexivity.
    + apply IH. lia.
Qed.

(** X2.  [levelConditions] moves filters only: with the filters taken
    out, every query is the same nest of searches, unpackings and
    projection as before, and there are as many queries, in the same
    order. *)
Theorem levelConditions_nest (unpackIsSearch : bool) (program : RamStatement) :
  map withoutFilters (queriesOf (fst (levelConditions unpackIsSearch program)))
  = map withoutFilters (queriesOf program).
Proof.
  rewrite queriesOf_levelConditions, map_map. apply map_ext. intros o.
  rewrite (withoutFilters_searchesHoisted_sized unpackIsSearch
             (operationSize (hoisted (-1) o))) by lia.
  apply withoutFilters_hoisted.
Qed.

(** The conjuncts of a condition, and those of all the filters of an
    operation. *)
Fixpoint conjunctsOf (c : RamCondition) : list RamCondition :=
  match c with
  | RamConjunction lhs rhs => conjunctsOf lhs ++ conjunctsOf rhs
  | _ => [c]
  end.

Fixpoint filterConjuncts (node : RamOperation) : list RamCondition :=
  match node with
  | RamRelationSearch _ _ _ operation _ => filterConjuncts operation
  | RamUnpackRecord _ _ _ _ operation _ => filterConjuncts operation
  | RamFilter c operation _ =>
      match c with Some c => conjunctsOf c | None => [] end ++ filterConjuncts operation
  | RamProject _ _ => []
  | RamReturn _ => []
  end.

Lemma conjunctsOf_leftChain (cs : list RamCondition) : forall c,
  conjunctsOf (leftChain c cs) = conjunctsOf c ++ flat_map conjunctsOf cs.
Proof.
  unfold leftChain. induction cs as [|d cs IH]; intros c; simpl.
  - rewrite app_nil_r. reflexivity.
  - rewrite IH. simpl. rewrite <- app_assoc. reflexivity.
Qed.

Lemma filterConjuncts_strip (level : Z) (node : RamOperation) :
  Permutation (flat_map conjunctsOf (collect level node)
               ++ filterConjuncts (strip level node))
    (filterConjuncts node).
Proof.
  induction node as [k r i b IH p|i rl rp a b IH p|c b IH p|r v|v]; simpl;
    try exact IH; try reflexivity.
  destruct c as [c|]; [|exact IH].
  destruct (getConditionLevel c =? level); simpl.
  - rewrite <- app_assoc. apply Permutation_app_head. exact IH.
  - rewrite <- IH. rewrite !app_assoc. apply Permutation_app_tail.
    apply Permutation_app_comm.
Qed.

Lemma filterConjuncts_hoisted (level : Z) (node : RamOperation) :
  Permutation (filterConjuncts (hoisted level node)) (filterConjuncts node).
Proof.
  pose proof (filterConjuncts_strip level node) as H. unfold hoisted.
  destruct (collect level node) as [|c cs]; simpl in *.
  - exact H.
  - rewrite conjunctsOf_leftChain. exact H.
Qed.

Lemma filterConjuncts_searchesHoisted_sized (unpackIsSearch : bool) (n : nat) :
  forall node, (operationSize node <= n)%nat ->
  Permutation (filterConjuncts (searchesHoisted unpackIsSearch node))
    (filterConjuncts node).
Proof.
  induction n as [|n IH]; intros node Hsize.
  - destruct node; simpl in Hsize; lia.
  - rewrite (searchesHoisted_step unpackIsSearch node).
    destruct node as [k r i b p|i rl rp a b p|c b p|r v|v]; simpl in Hsize |- *;
      try reflexivity.
    + pose proof (hoisted_size i b). rewrite IH by lia.
      apply filterConjuncts_hoisted.
    + destruct unpackIsSearch.
      * pose proof (hoisted_size i b). rewrite IH by lia.
        apply filterConjuncts_hoisted.
      * apply IH. lia.
    + apply Permutation_app_head. apply IH. lia.
Qed.

Lemma Forall2_map_left {A} (P : A -> A -> Prop) (f : A -> A) (l : list A) :
  (forall a, P (f a) a) -> Forall2 P (map f l) l.
Proof. intros H. induction l; simpl; constructor; auto. Qed.

(** X3.  [levelConditions] loses and duplicates no condition: in every
    query, the conjuncts of the filters afterwards are those of the
    filters before, in another order. *)
Theorem levelConditions_conjuncts (unpackIsSearch : bool) (program : RamStatement) :
  Forall2 (fun after before =>
             Permutation (filterConjuncts after) (filterConjuncts before))
    (queriesOf (fst (levelConditions unpackIsSearch program)))
    (queriesOf program).
Proof.
  rewrite queriesOf_levelConditions.
  apply (Forall2_map_left
           (fun after before =>
              Permutation (filterConjuncts after) (filterConjuncts before))).
  intros o.
  rewrite (filterConjuncts_searchesHoisted_sized unpackIsSearch
             (operationSize (hoisted (-1) o))) by lia.
  apply filterConjuncts_hoisted.
Qed.

(** The filters of a level are at the top only: there is none, or there
    is one, on top, built by [insertFilter]. *)
Definition atTopOnly (level : Z) (node : RamOperation) : Prop :=
  collect level node = []
  \/ exists c operation,
       node = insertFilter operation c
       /\ getConditionLevel c = level /\ collect level operation = [].

Fixpoint searchesLevelled (unpackIsSearch : bool) (node : RamOperation) : Prop :=
  match node with
  | RamRelationSearch _ _ identifier operation _ =>
      atTopOnly identifier operation /\ searchesLevelled unpackIsSearch operation
  | RamUnpackRecord identifier _ _ _ operation _ =>
      (unpackIsSearch = true -> atTopOnly identifier operation)
      /\ searchesLevelled unpackIsSearch operation
  | RamFilter _ operation _ => searchesLevelled unpackIsSearch operation
  | RamProject _ _ => True
  | RamReturn _ => True
  end.

Lemma hoisted_atTopOnly (unpackIsSearch : bool) (level : Z) (operation : RamOperation) :
  atTopOnly level (searchesHoisted unpackIsSearch (hoisted level operation)).
Proof.
  pose proof (collect_level level operation) as Hlevels.
  destruct (collect level operation) as [|c cs] eqn:Hcol.
  - left. rewrite (hoisted_free level operation Hcol).
    apply searchesHoisted_free. exact Hcol.
  - right. apply Forall_cons_1 in Hlevels. destruct Hlevels as [Hc Hcs].
    exists (leftChain c cs), (searchesHoisted unpackIsSearch (strip level operation)).
    split; [|split].
    + unfold hoisted. rewrite Hcol. unfold insertFilter.
      rewrite searchesHoisted_step. reflexivity.
    + apply leftChain_level; assumption.
    + apply searchesHoisted_free. rewrite collect_strip, Z.eqb_refl. reflexivity.
Qed.

Lemma searchesLevelled_sized (unpackIsSearch : bool) (n : nat) : forall node,
  (operationSize node <= n)%nat ->
  searchesLevelled unpackIsSearch (searchesHoisted unpackIsSearch node).
Proof.
  induction n as [|n IH]; intros node Hsize.
  - destruct node; simpl in Hsize; lia.
  - rewrite (searchesHoisted_step unpackIsSearch node).
    destruct node as [k r i b p|i rl rp a b p|c b p|r v|v]; simpl in Hsize |- *;
      try exact I.
    + pose proof (hoisted_size i b). split.
      * apply hoisted_atTopOnly.
      * apply IH. lia.
    + pose proof (hoisted_size i b). split.
      * intros ->. apply hoisted_atTopOnly.
      * apply IH. destruct unpackIsSearch; lia.
    + apply IH. lia.
Qed.

(** X4.  After [levelConditions], in every query the conditions that
    depend on no search are in one filter on top of the query, or there
    are none; and below every search, the filters at the level of the
    search are in one filter directly below it, or there are none. *)
Theorem levelConditions_levelled (unpackIsSearch : bool) (program : RamStatement) :
  Forall (fun query => atTopOnly (-1) query /\ searchesLevelled unpackIsSearch query)
    (queriesOf (fst (levelConditions unpackIsSearch program))).
Proof.
  rewrite queriesOf_levelConditions. apply List.Forall_forall.
  intros query Hin. apply in_map_iff in Hin. destruct Hin as (o & <- & _). split.
  - apply hoisted_atTopOnly.
  - apply (searchesLevelled_sized unpackIsSearch (operationSize (hoisted (-1) o))).
    lia.
Qed.

(** ** The mapper and the driver of index creation *)

(** The body of [RamScanCapturer::operator()] in [createIndices] up to
    the descent [node->apply( *this)]: a scan for which [rewriteScan]
    returns an operation is replaced by it and [modified] is set.  An
    index scan is no [RamScan].  [None] when [rewriteScan] left the
    pattern vector. *)
Definition indexScan (node : RamOperation) (modified : bool)
  : option (RamOperation * bool) :=
  match node with
  | RamRelationSearch Scan rel identifier operation profileText =>
      match rewriteScan rel identifier operation profileText with
      | None => None
      | Some (Some op) => Some (op, true)
      | Some None => Some (node, modified)
      end
  | _ => Some (node, modified)
  end.

Lemma indexScan_size (node node' : RamOperation) (modified modified' : bool) :
  indexScan node modified = Some (node', modified') ->
  (operationSize node' <= operationSize node)%nat.
Proof.
  unfold indexScan.
  destruct node as [k r i b p|i rl rp a b p|c b p|r v|v];
    try (intros [= <- <-]; lia).
  destruct k; try (intros [= <- <-]; lia).
  unfold rewriteScan. destruct b as [| |fc inner t| |]; try (intros [= <- <-]; lia).
  destruct (rewriteScanLoop i (getConditions fc) _) as [st|]; [|discriminate].
  destruct (indexable st); [|intros [= <- <-]; lia].
  intros [= <- <-]. destruct (condition st); simpl; lia.
Qed.

Definition inspected {A} (a : A) : {b : A | a = b} := exist _ a eq_refl.

(** The node rebuilt around its mapped operation child. *)
Definition rebuilt (build : RamOperation -> RamOperation)
    (r : option (RamOperation * bool)) : option (RamOperation * bool) :=
  match r with
  | Some (operation, modified) => Some (build operation, modified)
  | None => None
  end.

(** [RamScanCapturer::operator()] of [createIndices] with the descent:
    the operation child of the node that [indexScan] returned is mapped
    in turn.  The conditions and expressions of a node are offered to
    the mapper as well; they hold no scan and come back as they are.
    The mutable member [modified] is threaded through. *)
Equations? indexScanCapturer (node : RamOperation) (modified : bool)
  : option (RamOperation * bool) by wf (operationSize node) lt :=
indexScanCapturer node modified with inspected (indexScan node modified) := {
  | exist _ None _ => None
  | exist _ (Some (RamRelationSearch kind rel identifier operation profileText,
                   modified1)) Hstep =>
      rebuilt (fun operation' =>
                 RamRelationSearch kind rel identifier operation' profileText)
        (indexScanCapturer operation modified1)
  | exist _ (Some (RamUnpackRecord identifier referenceLevel referencePosition arity
                     operation profileText, modified1)) Hstep =>
      rebuilt (fun operation' =>
                 RamUnpackRecord identifier referenceLevel referencePosition arity
                   operation' profileText)
        (indexScanCapturer operation modified1)
  | exist _ (Some (RamFilter c operation profileText, modified1)) Hstep =>
      rebuilt (fun operation' => RamFilter c operation' profileText)
        (indexScanCapturer operation modified1)
  | exist _ (Some (RamProject rel values, modified1)) _ =>
      Some (RamProject rel values, modified1)
  | exist _ (Some (RamReturn values, modified1)) _ =>
      Some (RamReturn values, modified1) }.
Proof.
  all: apply indexScan_size in Hstep; simpl in Hstep; lia.
Qed.

Lemma indexScanCapturer_step (node : RamOperation) (modified : bool) :
  indexScanCapturer node modified =
  match indexScan node modified with
  | None => None
  | Some (RamRelationSearch kind rel identifier operation profileText, modified1) =>
      rebuilt (fun operation' =>
                 RamRelationSearch kind rel identifier operation' profileText)
        (indexScanCapturer operation modified1)
  | Some (RamUnpackRecord identifier referenceLevel referencePosition arity operation
            profileText, modified1) =>
      rebuilt (fun operation' =>
                 RamUnpackRecord identifier referenceLevel referencePosition arity
                   operation' profileText)
        (indexScanCapturer operation modified1)
  | Some (RamFilter c operation profileText, modified1) =>
      rebuilt (fun operation' => RamFilter c operation' profileText)
        (indexScanCapturer operation modified1)
  | Some (node', modified1) => Some (node', modified1)
  end.
Proof.
  funelim (indexScanCapturer node modified);
    match goal with
    | H : indexScan _ _ = _ |- _ => rewrite H
    | H : _ = indexScan _ _ |- _ => rewrite <- H
    end; reflexivity.
Qed.

(** The locals of [rewriteScan] after its loop over the conjuncts of the
    filter condition [fc] below a scan of [rel] with [identifier]. *)
Definition scanState (rel : RamRelation) (identifier : Z) (fc : option RamCondition)
  : option IndexState :=
  rewriteScanLoop identifier (getConditions fc)
    (mkIndexState (replicate (getArity rel) None) None false).

Lemma rebuilt_rebuilt (f g : RamOperation -> RamOperation)
    (r : option (RamOperation * bool)) :
  rebuilt f (rebuilt g r) = rebuilt (fun o => f (g o)) r.
Proof. destruct r as [[o m]|]; reflexivity. Qed.

(** The mapper by the shape of the node: a scan over a filter with an
    indexable conjunct becomes an index scan, and the descent goes
    through the residual filter into the operation below; every other
    node is kept and its operation child mapped. *)
Lemma indexScanCapturer_cases (node : RamOperation) (modified : bool) :
  indexScanCapturer node modified =
  match node with
  | RamRelationSearch kind rel identifier operation profileText =>
      match kind, operation with
      | Scan, RamFilter fc inner text =>
          match scanState rel identifier fc with
          | None => None
          | Some st =>
              if indexable st then
                rebuilt (fun inner' =>
                           RamIndexScan rel identifier (queryPattern st)
                             (withResidual (condition st) inner') profileText)
                  (indexScanCapturer inner true)
              else
                rebuilt (fun inner' =>
                           RamScan rel identifier (RamFilter fc inner' text) profileText)
                  (indexScanCapturer inner modified)
          end
      | _, _ =>
          rebuilt (fun operation' =>
                     RamRelationSearch kind rel identifier operation' profileText)
            (indexScanCapturer operation modified)
      end
  | RamUnpackRecord identifier referenceLevel referencePosition arity operation
      profileText =>
      rebuilt (fun operation' =>
                 RamUnpackRecord identifier referenceLevel referencePosition arity
                   operation' profileText)
        (indexScanCapturer operation modified)
  | RamFilter c operation profileText =>
      rebuilt (fun operation' => RamFilter c operation' profileText)
        (indexScanCapturer operation modified)
  | RamProject _ _ => Some (node, modified)
  | RamReturn _ => Some (node, modified)
  end.
Proof.
  rewrite indexScanCapturer_step.
  destruct node as [k r i b p|i rl rp a b p|c b p|r v|v]; try reflexivity.
  destruct k; try reflexivity.
  destruct b as [k' r' i' b' p'|i' rl rp a b' p'|fc inner t|r' v|v]; try reflexivity.
  unfold indexScan, rewriteScan, scanState.
  destruct (rewriteScanLoop i (getConditions fc) _) as [st|]; [|reflexivity].
  destruct (indexable st).
  - destruct (condition st) as [c|]; simpl; [|reflexivity].
    rewrite (indexScanCapturer_step (RamFilter (Some c) inner "")). simpl.
    rewrite rebuilt_rebuilt. reflexivity.
  - rewrite (indexScanCapturer_step (RamFilter fc inner t)). simpl.
    rewrite rebuilt_rebuilt. reflexivity.
Qed.

Definition isFilter (node : RamOperation) : bool :=
  match node with RamFilter _ _ _ => true | _ => false end.

Lemma rebuilt_Some (build : RamOperation -> RamOperation)
    (r : option (RamOperation * bool)) (node' : RamOperation) (modified' : bool) :
  rebuilt build r = Some (node', modified') ->
  exists operation', r = Some (operation', modified') /\ node' = build operation'.
Proof.
  destruct r as [[o m]|]; simpl; [|discriminate].
  intros [= <- <-]. exists o. split; reflexivity.
Qed.

(** The mapper keeps a filter a filter, with its condition and text, and
    makes no other node one. *)
Lemma indexScanCapturer_filter (node node' : RamOperation) (modified modified' : bool) :
  indexScanCapturer node modified = Some (node', modified') ->
  match node with
  | RamFilter c _ text => exists operation', node' = RamFilter c operation' text
  | _ => isFilter node' = false
  end.
Proof.
  rewrite indexScanCapturer_cases.
  destruct node as [k r i b p|i rl rp a b p|c b p|r v|v].
  - destruct k; [destruct b as [| |fc inner t| |]| |];
      try (intros H; apply rebuilt_Some in H; destruct H as (o & _ & ->); reflexivity).
    destruct (scanState r i fc) as [st|]; [|discriminate].
    destruct (indexable st);
      intros H; apply rebuilt_Some in H; destruct H as (o & _ & ->); reflexivity.
  - intros H; apply rebuilt_Some in H; destruct H as (o & _ & ->); reflexivity.
  - intros H; apply rebuilt_Some in H; destruct H as (o & _ & ->). exists o. reflexivity.
  - intros [= <- <-]. reflexivity.
  - intros [= <- <-]. reflexivity.
Qed.

Lemma indexScanCapturer_flag_sized (n : nat) : forall node modified node' modified',
  (operationSize node <= n)%nat ->
  indexScanCapturer node modified = Some (node', modified') ->
  (modified = true -> modified' = true) /\ (modified' = false -> node' = node).
Proof.
  induction n as [|n IH]; intros node modified node' modified' Hsize.
  - destruct node; simpl in Hsize; lia.
  - rewrite indexScanCapturer_cases.
    destruct node as [k r i b p|i rl rp a b p|c b p|r v|v]; simpl in Hsize.
    + assert (Hdescend : forall m,
                rebuilt (fun o => RamRelationSearch k r i o p) (indexScanCapturer b m)
                = Some (node', modified') ->
                (m = true -> modified' = true) /\
                (modified' = false -> node' = RamRelationSearch k r i b p)).
      { intros m H. apply rebuilt_Some in H. destruct H as (o & Ho & ->).
        apply IH in Ho; [|lia]. destruct Ho as [Ht Hf].
        split; [exact Ht | intros Hm; rewrite (Hf Hm); reflexivity]. }
      destruct k; [destruct b as [| |fc inner t| |]| |]; try apply Hdescend.
      destruct (scanState r i fc) as [st|]; [|discriminate].
      destruct (indexable st); intros H; apply rebuilt_Some in H;
        destruct H as (o & Ho & ->); simpl in Hsize; apply IH in Ho; try lia;
        destruct Ho as [Ht Hf].
      * split; [intros _; apply Ht; reflexivity|].
        intros Hm. rewrite (Ht eq_refl) in Hm. discriminate.
      * split; [exact Ht | intros Hm; rewrite (Hf Hm); reflexivity].
    + intros H. apply rebuilt_Some in H. destruct H as (o & Ho & ->).
      apply IH in Ho; [|lia]. destruct Ho as [Ht Hf].
      split; [exact Ht | intros Hm; rewrite (Hf Hm); reflexivity].
    + intros H. apply rebuilt_Some in H. destruct H as (o & Ho & ->).
      apply IH in Ho; [|lia]. destruct Ho as [Ht Hf].
      split; [exact Ht | intros Hm; rewrite (Hf Hm); reflexivity].
    + intros [= <- <-]. split; trivial.
    + intros [= <- <-]. split; trivial.
Qed.

Lemma indexScanCapturer_again_sized (n : nat) : forall node modified node' modified',
  (operationSize node <= n)%nat ->
  indexScanCapturer node modified = Some (node', modified') ->
  forall again, indexScanCapturer node' again = Some (node', again).
Proof.
  induction n as [|n IH]; intros node modified node' modified' Hsize.
  - destruct node; simpl in Hsize; lia.
  - intros Hrun. pose proof Hrun as Hcases. rewrite indexScanCapturer_cases in Hcases.
    destruct node as [k r i b p|i rl rp a b p|c b p|r v|v]; simpl in Hsize.
    + assert (Hdescend : forall m,
                (k <> Scan \/ isFilter b = false) ->
                rebuilt (fun o => RamRelationSearch k r i o p) (indexScanCapturer b m)
                = Some (node', modified') ->
                forall again, indexScanCapturer node' again = Some (node', again)).
      { intros m Hkind H again. apply rebuilt_Some in H. destruct H as (o & Ho & ->).
        pose proof (indexScanCapturer_filter _ _ _ _ Ho) as Hfilter.
        assert (Hagain : indexScanCapturer o again = Some (o, again))
          by (apply (IH b m o modified'); [lia | exact Ho]).
        rewrite indexScanCapturer_cases.
        destruct k; [|rewrite Hagain; reflexivity ..].
        destruct Hkind as [Hkind|Hkind]; [congruence|].
        destruct b; try discriminate Hkind; simpl in Hfilter;
          destruct o; try discriminate Hfilter; rewrite Hagain; reflexivity. }
      destruct k;
        [destruct b as [| |fc inner t| |]| |];
        try (apply (Hdescend modified); [(left; discriminate) || (right; reflexivity)
                                        | exact Hcases]).
      destruct (scanState r i fc) as [st|] eqn:Hst; [|discriminate].
      destruct (indexable st) eqn:Hidx; apply rebuilt_Some in Hcases;
        destruct Hcases as (o & Ho & ->); simpl in Hsize; intros again;
        assert (Hagain : indexScanCapturer o again = Some (o, again))
          by (eapply (IH inner); [lia | exact Ho]).
      * rewrite indexScanCapturer_cases.
        destruct (condition st) as [c|]; simpl.
        -- rewrite (indexScanCapturer_cases (RamFilter (Some c) o "")).
           rewrite Hagain. reflexivity.
        -- rewrite Hagain. reflexivity.
      * rewrite indexScanCapturer_cases. rewrite Hst, Hidx, Hagain. reflexivity.
    + apply rebuilt_Some in Hcases. destruct Hcases as (o & Ho & ->). intros again.
      assert (Hagain : indexScanCapturer o again = Some (o, again))
        by (eapply (IH b); [lia | exact Ho]).
      rewrite indexScanCapturer_cases, Hagain. reflexivity.
    + apply rebuilt_Some in Hcases. destruct Hcases as (o & Ho & ->). intros again.
      assert (Hagain : indexScanCapturer o again = Some (o, again))
        by (eapply (IH b); [lia | exact Ho]).
      rewrite indexScanCapturer_cases, Hagain. reflexivity.
    + inversion Hcases; subst. intros again. rewrite indexScanCapturer_cases. reflexivity.
    + inversion Hcases; subst. intros again. rewrite indexScanCapturer_cases. reflexivity.
Qed.

(** [RamQueryCapturer::operator()], for both passes that have one: the
    operation of a query is mapped by a new scan capturer, which
    [capture] stands for, and its flag is merged into [modified] by
    [merge]; any other statement has its children mapped. *)
Fixpoint queryCapturer (capture : RamOperation -> option (RamOperation * bool))
    (merge : bool -> bool -> bool) (node : RamStatement) (modified : bool)
  : option (RamStatement * bool) :=
  match node with
  | RamQuery operation =>
      match capture operation with
      | Some (operation', scanModified) =>
          Some (RamQuery operation', merge modified scanModified)
      | None => None
      end
  | RamSequence statements =>
      match
        (fix applyAll (l : list RamStatement) (modified : bool) :=
           match l with
           | [] => Some ([], modified)
           | s :: rest =>
               match queryCapturer capture merge s modified with
               | Some (s', modified1) =>
                   match applyAll rest modified1 with
                   | Some (rest', modified2) => Some (s' :: rest', modified2)
                   | None => None
                   end
               | None => None
               end
           end) statements modified
      with
      | Some (statements', modified') => Some (RamSequence statements', modified')
      | None => None
      end
  end.

(** [program.getMain()->apply(insertUpdate)]: the children of the main
    statement are mapped, not the main statement itself.  The child of
    a query is its operation, below which there is no query for the
    mapper to find. *)
Definition applyToMain (capture : RamOperation -> option (RamOperation * bool))
    (merge : bool -> bool -> bool) (main : RamStatement)
  : option (RamStatement * bool) :=
  match main with
  | RamQuery _ => Some (main, false)
  | RamSequence _ => queryCapturer capture merge main false
  end.

(** [createIndices], on the main statement of the program.  Returns the
    program and [insertUpdate.getModified()]. *)
Definition createIndices (main : RamStatement) : option (RamStatement * bool) :=
  applyToMain (fun operation => indexScanCapturer operation false)
    (fun modified scanModified =>
       if negb modified && scanModified then true else modified)
    main.

(** [convertExistenceChecks], on the main statement of the program. *)
Definition convertExistenceChecks (main : RamStatement) : RamStatement * bool :=
  match
    applyToMain (fun operation => Some (scanCapturer operation false))
      (fun modified scanModified => if scanModified then true else modified)
      main
  with
  | Some r => r
  | None => (main, false)
  end.

(** The queries that the drivers reach. *)
Definition reachedQueries (main : RamStatement) : list RamOperation :=
  match main with
  | RamQuery _ => []
  | RamSequence _ => queriesOf main
  end.

(** Every indexable conjunct of the filter below a scan names a column
    of the relation. *)
Definition columnsInRange (rel : RamRelation) (identifier : Z) (operation : RamOperation)
  : bool :=
  match operation with
  | RamFilter fc _ _ =>
      forallb (fun c => match getIndexElement c identifier with
                        | Some (col, _) => (col <? getArity rel)%nat
                        | None => true
                        end) (getConditions fc)
  | _ => true
  end.

Fixpoint scansInRange (node : RamOperation) : bool :=
  match node with
  | RamRelationSearch kind rel identifier operation _ =>
      match kind with
      | Scan => columnsInRange rel identifier operation
      | _ => true
      end && scansInRange operation
  | RamUnpackRecord _ _ _ _ operation _ => scansInRange operation
  | RamFilter _ operation _ => scansInRange operation
  | RamProject _ _ => true
  | RamReturn _ => true
  end.

Lemma scanState_defined (rel : RamRelation) (i : Z) (fc : option RamCondition)
    (inner : RamOperation) (text : string) :
  columnsInRange rel i (RamFilter fc inner text) = true ->
  scanState rel i fc <> None.
Proof.
  intros Hrange Hnone.
  apply (rewriteScan_defined rel i (RamFilter fc inner text) "").
  - intros fc' body text' c col v [= <- <- <-] Hc Hget. simpl in Hrange.
    rewrite forallb_forall in Hrange.
    apply list_elem_of_In in Hc. specialize (Hrange c Hc). rewrite Hget in Hrange.
    apply Nat.ltb_lt. exact Hrange.
  - unfold rewriteScan. unfold scanState in Hnone. rewrite Hnone. reflexivity.
Qed.

Lemma indexScanCapturer_defined_sized (n : nat) : forall node modified,
  (operationSize node <= n)%nat ->
  scansInRange node = true ->
  exists node' modified', indexScanCapturer node modified = Some (node', modified').
Proof.
  induction n as [|n IH]; intros node modified Hsize Hrange.
  - destruct node; simpl in Hsize; lia.
  - rewrite indexScanCapturer_cases.
    assert (Hdescend : forall build b m,
               (operationSize b <= n)%nat -> scansInRange b = true ->
               exists node' modified',
                 rebuilt build (indexScanCapturer b m) = Some (node', modified')).
    { intros build b m Hb Hr. destruct (IH b m Hb Hr) as (o & m' & ->).
      simpl. eauto. }
    destruct node as [k r i b p|i rl rp a b p|c b p|r v|v]; simpl in Hsize, Hrange;
      try (apply Hdescend; [lia | exact Hrange]); eauto.
    apply andb_true_iff in Hrange. destruct Hrange as [Hcols Hrange].
    destruct k; [destruct b as [| |fc inner t| |]| |];
      try (apply Hdescend; [lia | exact Hrange]).
    pose proof (scanState_defined r i fc inner t Hcols) as Hst.
    destruct (scanState r i fc) as [st|]; [|congruence].
    simpl in Hsize, Hrange.
    destruct (indexable st); apply Hdescend; (lia || exact Hrange).
Qed.

Section QueryCapturer.

Variable capture : RamOperation -> option (RamOperation * bool).
Variable merge : bool -> bool -> bool.

Fixpoint captureAll (l : list RamStatement) (modified : bool)
  : option (list RamStatement * bool) :=
  match l with
  | [] => Some ([], modified)
  | s :: rest =>
      match queryCapturer capture merge s modified with
      | Some (s', modified1) =>
          match captureAll rest modified1 with
          | Some (rest', modified2) => Some (s' :: rest', modified2)
          | None => None
          end
      | None => None
      end
  end.

Lemma queryCapturer_sequence (statements : list RamStatement) (modified : bool) :
  queryCapturer capture merge (RamSequence statements) modified =
  match captureAll statements modified with
  | Some (statements', modified') => Some (RamSequence statements', modified')
  | None => None
  end.
Proof.
  simpl.
  match goal with
  | |- match ?F statements modified with _ => _ end = _ =>
      assert (H : forall l m, F l m = captureAll l m)
  end.
  { induction l as [|s l IH]; intros m; simpl; [reflexivity|].
    destruct (queryCapturer capture merge s m) as [[s' m1]|]; [|reflexivity].
    rewrite IH. reflexivity. }
  rewrite H. reflexivity.
Qed.

(** When no flag is raised, nothing was replaced. *)
Lemma queryCapturer_unchanged :
  (forall m s, merge m s = false -> m = false /\ s = false) ->
  (forall operation operation', capture operation = Some (operation', false) ->
                                operation' = operation) ->
  forall node modified node',
    queryCapturer capture merge node modified = Some (node', false) ->
    node' = node /\ modified = false.
Proof.
  intros Hmerge Hcapture.
  induction node as [operation|statements IH] using RamStatement_nested_ind;
    intros modified node'.
  - simpl. destruct (capture operation) as [[operation' s]|] eqn:Hc; [|discriminate].
    intros [= <- Hm]. apply Hmerge in Hm. destruct Hm as [-> ->].
    rewrite (Hcapture _ _ Hc). split; reflexivity.
  - rewrite queryCapturer_sequence.
    destruct (captureAll statements modified) as [[statements' m']|] eqn:Hall;
      [|discriminate].
    intros [= <- ->].
    enough (statements' = statements /\ modified = false) as [-> ->]
        by (split; reflexivity).
    revert modified statements' Hall.
    induction IH as [|s l Hs Hl IHl]; intros modified statements'; simpl.
    + intros [= <- <-]. split; reflexivity.
    + destruct (queryCapturer capture merge s modified) as [[s' m1]|] eqn:Hq;
        [|discriminate].
      destruct (captureAll l m1) as [[rest' m2]|] eqn:Hrest; [|discriminate].
      intros [= <- ->]. destruct (IHl _ _ Hrest) as [-> ->].
      destruct (Hs _ _ Hq) as [-> ->]. split; reflexivity.
Qed.

(** When a second capture of every operation returns it with the flag
    down, a second run returns the statement and the flag it was given. *)
Lemma queryCapturer_again :
  (forall m, merge m false = m) ->
  (forall operation operation' s, capture operation = Some (operation', s) ->
                                  capture operation' = Some (operation', false)) ->
  forall node modified node' modified',
    queryCapturer capture merge node modified = Some (node', modified') ->
    forall again, queryCapturer capture merge node' again = Some (node', again).
Proof.
  intros Hmerge Hcapture.
  induction node as [operation|statements IH] using RamStatement_nested_ind;
    intros modified node' modified'.
  - simpl. destruct (capture operation) as [[operation' s]|] eqn:Hc; [|discriminate].
    intros [= <- <-] again. simpl. rewrite (Hcapture _ _ _ Hc), Hmerge. reflexivity.
  - rewrite queryCapturer_sequence.
    destruct (captureAll statements modified) as [[statements' m']|] eqn:Hall;
      [|discriminate].
    intros [= <- <-] again. rewrite queryCapturer_sequence.
    enough (captureAll statements' again = Some (statements', again)) as ->
        by reflexivity.
    revert modified statements' m' Hall again.
    induction IH as [|s l Hs Hl IHl]; intros modified statements' m'; simpl.
    + intros [= <- <-] again. reflexivity.
    + destruct (queryCapturer capture merge s modified) as [[s' m1]|] eqn:Hq;
        [|discriminate].
      destruct (captureAll l m1) as [[rest' m2]|] eqn:Hrest; [|discriminate].
      intros [= <- <-] again. simpl.
      rewrite (Hs _ _ _ Hq again), (IHl _ _ _ Hrest again). reflexivity.
Qed.

(** The run is defined when the capture of every query is. *)
Lemma queryCapturer_defined (node : RamStatement) :
  Forall (fun operation => capture operation <> None) (queriesOf node) ->
  forall modified, queryCapturer capture merge node modified <> None.
Proof.
  induction node as [operation|statements IH] using RamStatement_nested_ind;
    intros Hq modified.
  - simpl in *. apply Forall_cons_1 in Hq. destruct Hq as [Hq _].
    destruct (capture operation) as [[operation' s]|]; [discriminate | congruence].
  - rewrite queryCapturer_sequence.
    enough (captureAll statements modified <> None) as Hall
        by (destruct (captureAll statements modified) as [[l m]|];
            [discriminate | congruence]).
    simpl in Hq. revert modified Hq.
    induction IH as [|s l Hs Hl IHl]; intros modified Hq; simpl; [discriminate|].
    apply Forall_app in Hq. destruct Hq as [Hqs Hql].
    specialize (Hs Hqs modified).
    destruct (queryCapturer capture merge s modified) as [[s' m1]|]; [|congruence].
    specialize (IHl m1 Hql).
    destruct (captureAll l m1) as [[rest' m2]|]; [discriminate | congruence].
Qed.

End QueryCapturer.

Lemma indexScanCapturer_unchanged (operation operation' : RamOperation) :
  indexScanCapturer operation false = Some (operation', false) ->
  operation' = operation.
Proof.
  intros H.
  apply (indexScanCapturer_flag_sized (operationSize operation)) in H; [|lia].
  apply H. reflexivity.
Qed.

Lemma indexScanCapturer_again (operation operation' : RamOperation) (s : bool) :
  indexScanCapturer operation false = Some (operation', s) ->
  indexScanCapturer operation' false = Some (operation', false).
Proof.
  intros H.
  apply (indexScanCapturer_again_sized (operationSize operation) operation false
           operation' s); [lia | exact H].
Qed.

(** X5.  When [createIndices] returns [false], the program is what it
    was: no scan was replaced. *)
Theorem createIndices_unchanged (main main' : RamStatement) :
  createIndices main = Some (main', false) -> main' = main.
Proof.
  unfold createIndices, applyToMain. destruct main as [operation|statements].
  - intros [= <-]. reflexivity.
  - intros H. eapply queryCapturer_unchanged in H; [apply H | |].
    + intros [|] [|]; simpl; intros Hm; try discriminate. split; reflexivity.
    + apply indexScanCapturer_unchanged.
Qed.

Lemma createIndices_unchanged_witness :
  RamSequence [RamQuery (RamScan (mkRelation "R" 1) 0
                 (RamProject (mkRelation "S" 1) [RamElementAccess 0 0]) "")]
  = RamSequence [RamQuery (RamScan (mkRelation "R" 1) 0
                   (RamProject (mkRelation "S" 1) [RamElementAccess 0 0]) "")].
Proof. apply createIndices_unchanged. reflexivity. Defined.

(** X6.  [createIndices] finds nothing to do on its own result: a second
    run is defined, returns the program as it is and reports no
    change. *)
Theorem createIndices_idempotent (main main' : RamStatement) (modified : bool) :
  createIndices main = Some (main', modified) ->
  createIndices main' = Some (main', false).
Proof.
  unfold createIndices, applyToMain. destruct main as [operation|statements].
  - intros [= <- <-]. reflexivity.
  - intros H. pose proof H as Hshape. rewrite queryCapturer_sequence in Hshape.
    destruct (captureAll _ _ statements false) as [[statements' m]|];
      [|discriminate].
    inversion Hshape; subst main' modified.
    eapply queryCapturer_again in H; [exact H | |].
    + intros [|]; reflexivity.
    + apply indexScanCapturer_again.
Qed.

Lemma createIndices_idempotent_witness :
  createIndices
    (RamSequence [RamQuery (RamIndexScan (mkRelation "R" 2) 0
                    [Some (RamNumber 1); None]
                    (RamProject (mkRelation "S" 1) [RamElementAccess 0 1]) "")])
  = Some (RamSequence [RamQuery (RamIndexScan (mkRelation "R" 2) 0
                         [Some (RamNumber 1); None]
                         (RamProject (mkRelation "S" 1) [RamElementAccess 0 1]) "")],
          false).
Proof.
  apply (createIndices_idempotent
           (RamSequence [RamQuery (RamScan (mkRelation "R" 2) 0
              (RamFilter (Some (RamConstraint EQ (RamElementAccess 0 0) (RamNumber 1)))
                 (RamProject (mkRelation "S" 1) [RamElementAccess 0 1]) "") "")])
           _ true).
  vm_compute. reflexivity.
Defined.

(** X7.  [createIndices] stays within the pattern vectors, and so
    returns, when below every scan of every query that it reaches each
    indexable conjunct of the filter names a column of the relation. *)
Theorem createIndices_defined (main : RamStatement) :
  Forall (fun query => scansInRange query = true) (reachedQueries main) ->
  exists main' modified, createIndices main = Some (main', modified).
Proof.
  intros Hrange. unfold createIndices, applyToMain.
  destruct main as [operation|statements]; [eauto|].
  match goal with
  | |- exists _ _, ?run = _ =>
      destruct run as [[main' modified]|] eqn:Hrun; [eauto | exfalso]
  end.
  revert Hrun. apply queryCapturer_defined.
  eapply Forall_impl; [exact Hrange|]. intros query Hquery. simpl in Hquery.
  destruct (indexScanCapturer_defined_sized (operationSize query) query false
              ltac:(lia) Hquery) as (o & m & ->).
  discriminate.
Qed.

Lemma createIndices_defined_witness :
  exists main' modified,
    createIndices
      (RamSequence [RamQuery (RamScan (mkRelation "R" 2) 0
         (RamFilter (Some (RamConstraint EQ (RamElementAccess 0 0) (RamNumber 1)))
            (RamProject (mkRelation "S" 1) [RamElementAccess 0 1]) "") "")])
    = Some (main', modified).
Proof.
  apply createIndices_defined. repeat constructor.
Defined.

(** X8.  [rewriteScan] returns a null pointer exactly when the operation
    below the scan is no filter, or is a filter none of whose conjuncts
    is indexable for the scan. *)
Theorem rewriteScan_null (rel : RamRelation) (i : Z) (operation : RamOperation)
    (profileText : string) :
  rewriteScan rel i operation profileText = Some None <->
  (forall fc inner text, operation = RamFilter fc inner text ->
     forall c, c ∈ getConditions fc -> getIndexElement c i = None).
Proof.
  unfold rewriteScan. split.
  - intros H fc inner text -> c Hc.
    destruct (rewriteScanLoop i (getConditions fc) _) as [st|] eqn:Hloop;
      [|discriminate].
    pose proof (rewriteScanLoop_spec i (getArity rel) _ [] _ _
                  (afterConjuncts_init i (getArity rel)) Hloop) as Hinv.
    simpl in Hinv. destruct Hinv as (_ & _ & _ & Hidx).
    destruct (indexable st); [discriminate|].
    symmetry in Hidx.
    destruct (getIndexElement c i) as [b|] eqn:Hget; [exfalso | reflexivity].
    assert (Htrue : existsb (isIndexable i) (getConditions fc) = true).
    { apply existsb_exists. exists c. split; [apply list_elem_of_In; exact Hc|].
      unfold isIndexable. rewrite Hget. reflexivity. }
    congruence.
  - intros H. destruct operation as [| |fc inner text| |]; try reflexivity.
    specialize (H fc inner text eq_refl).
    assert (Hloop : forall cs st,
               (forall c, c ∈ cs -> getIndexElement c i = None) ->
               exists st', rewriteScanLoop i cs st = Some st'
                           /\ indexable st' = indexable st).
    { induction cs as [|c cs IH]; intros st Hcs; simpl; [eauto|].
      unfold rewriteScanStep. rewrite (Hcs c) by apply list_elem_of_here.
      destruct (IH (mkIndexState (queryPattern st) (addCondition (condition st) c)
                      (indexable st))) as (st' & Hst' & Hidx).
      - intros d Hd. apply Hcs. apply list_elem_of_further. exact Hd.
      - exists st'. split; assumption. }
    destruct (Hloop (getConditions fc)
                (mkIndexState (replicate (getArity rel) None) None false) H)
      as (st' & -> & Hidx).
    simpl in Hidx. rewrite Hidx. reflexivity.
Qed.

(** X9.  Every value of the pattern of the index scan that [rewriteScan]
    returns can be computed before the scan: it is constant or its
    level is below the identifier of the scan. *)
Theorem rewriteScan_pattern_values (rel : RamRelation) (i : Z) (operation : RamOperation)
    (profileText : string) (rel' : RamRelation) (i' : Z)
    (pattern : list (option RamExpression)) (inner : RamOperation) (text : string) :
  rewriteScan rel i operation profileText
  = Some (Some (RamIndexScan rel' i' pattern inner text)) ->
  forall col value, pattern !! col = Some (Some value) ->
    isConstant value = true \/ getLevel value < i.
Proof.
  unfold rewriteScan. destruct operation as [| |fc body t| |]; try discriminate.
  destruct (rewriteScanLoop i (getConditions fc) _) as [st|] eqn:Hloop; [|discriminate].
  pose proof (rewriteScanLoop_spec i (getArity rel) _ [] _ _
                (afterConjuncts_init i (getArity rel)) Hloop) as Hinv.
  simpl in Hinv. destruct Hinv as (Hlen & Hpat & _ & _).
  destruct (indexable st); [|discriminate].
  intros [= <- <- <- <- <-] col value Hcol.
  assert (Hlt : (col < getArity rel)%nat)
    by (rewrite <- Hlen; eapply lookup_lt_Some; eauto).
  rewrite (Hpat col Hlt) in Hcol. inversion Hcol as [Hfirst]. clear Hcol.
  unfold firstBinding in Hfirst.
  assert (Hin : value ∈ omap (bindingOn i col) (getConditions fc)).
  { destruct (omap (bindingOn i col) (getConditions fc)) as [|v l]; [discriminate|].
    simpl in Hfirst. inversion Hfirst. apply list_elem_of_here. }
  apply list_elem_of_omap in Hin. destruct Hin as (c & _ & Hc).
  unfold bindingOn in Hc.
  destruct (getIndexElement c i) as [[e v]|] eqn:Hget; [|discriminate].
  destruct (decide (e = col)); [|discriminate]. inversion Hc; subst v.
  unfold getIndexElement in Hget.
  destruct c as [| |op lhs rhs| |]; try discriminate.
  destruct op; try discriminate.
  assert (Hside : forall a b : RamExpression,
             (getLevel a =? i) && (isConstant b || (getLevel b <? i)) = true ->
             isConstant b = true \/ getLevel b < i).
  { intros a b Hab. apply andb_true_iff in Hab. destruct Hab as [_ Hb].
    apply orb_true_iff in Hb. destruct Hb as [Hb|Hb]; [left; exact Hb|].
    right. apply Z.ltb_lt. exact Hb. }
  destruct lhs as [n|li le|o args|o args|args];
    try (destruct rhs as [n'|ri re|o' args'|o' args'|args']; try discriminate;
         destruct ((getLevel (RamElementAccess ri re) =? i) && _) eqn:Hab;
         [|discriminate]; inversion Hget; subst; eapply Hside; exact Hab).
  destruct ((getLevel (RamElementAccess li le) =? i) && _) eqn:Hab.
  - inversion Hget; subst. eapply Hside; exact Hab.
  - destruct rhs as [n'|ri re|o' args'|o' args'|args']; try discriminate.
    destruct ((getLevel (RamElementAccess ri re) =? i) && _) eqn:Hab';
      [|discriminate]. inversion Hget; subst. eapply Hside; exact Hab'.
Qed.

Lemma rewriteScan_pattern_values_witness :
  isConstant (RamNumber 1) = true \/ getLevel (RamNumber 1) < 0.
Proof.
  apply (rewriteScan_pattern_values (mkRelation "R" 2) 0
           (RamFilter (Some (RamConstraint EQ (RamElementAccess 0 0) (RamNumber 1)))
              (RamProject (mkRelation "S" 1) [RamElementAccess 0 1]) "") ""
           (mkRelation "R" 2) 0
           [Some (RamNumber 1); None]
           (RamProject (mkRelation "S" 1) [RamElementAccess 0 1]) "" eq_refl 0%nat).
  reflexivity.
Defined.

(** ** The mapper and the driver of the existence-check conversion *)

(** The queries of the result are the captures of the queries. *)
Lemma queryCapturer_queries (capture : RamOperation -> option (RamOperation * bool))
    (merge : bool -> bool -> bool) :
  forall node modified node' modified',
    queryCapturer capture merge node modified = Some (node', modified') ->
    Forall2 (fun query query' => exists s, capture query = Some (query', s))
      (queriesOf node) (queriesOf node').
Proof.
  induction node as [operation|statements IH] using RamStatement_nested_ind;
    intros modified node' modified'.
  - simpl. destruct (capture operation) as [[operation' s]|] eqn:Hc; [|discriminate].
    intros [= <- <-]. simpl. constructor; [eauto | constructor].
  - rewrite queryCapturer_sequence.
    destruct (captureAll capture merge statements modified) as [[statements' m']|]
      eqn:Hall; [|discriminate].
    intros [= <- <-]. simpl.
    revert modified statements' m' Hall.
    induction IH as [|s l Hs Hl IHl]; intros modified statements' m'; simpl.
    + intros [= <- <-]. constructor.
    + destruct (queryCapturer capture merge s modified) as [[s' m1]|] eqn:Hq;
        [|discriminate].
      destruct (captureAll capture merge l m1) as [[rest' m2]|] eqn:Hrest;
        [|discriminate].
      intros [= <- <-]. simpl. apply Forall2_app; eauto.
Qed.

Lemma scanCapturer_flag (node : RamOperation) : forall modified,
  snd (scanCapturer node modified) = false ->
  fst (scanCapturer node modified) = node /\ modified = false.
Proof.
  induction node as [k r i b IH p|i rl rp a b IH p|c b IH p|r v|v]; intros modified;
    simpl; try (intros ->; split; reflexivity).
  - destruct (isExistCheck i b).
    + pose proof (scanCapturer_modified b) as Htrue.
      destruct (scanCapturer b true) as [b' m']. simpl in *. congruence.
    + specialize (IH modified). destruct (scanCapturer b modified) as [b' m'].
      simpl in *. intros Hm. destruct (IH Hm) as [-> ->]. split; reflexivity.
  - specialize (IH modified). destruct (scanCapturer b modified) as [b' m'].
    simpl in *. intros Hm. destruct (IH Hm) as [-> ->]. split; reflexivity.
  - specialize (IH modified). destruct (scanCapturer b modified) as [b' m'].
    simpl in *. intros Hm. destruct (IH Hm) as [-> ->]. split; reflexivity.
Qed.

(** The mapper keeps what the three visits of [isExistCheck] look at:
    the projections, the reference levels of the unpackings and the
    expressions, those of a range pattern now in the existence check. *)
Lemma scanCapturer_visits (node : RamOperation) : forall modified,
  projectsOf (fst (scanCapturer node modified)) = projectsOf node
  /\ referenceLevelsOf (fst (scanCapturer node modified)) = referenceLevelsOf node
  /\ expressionsOf (fst (scanCapturer node modified)) = expressionsOf node.
Proof.
  induction node as [k r i b IH p|i rl rp a b IH p|c b IH p|r v|v]; intros modified;
    simpl; try (repeat split; reflexivity).
  - destruct (isExistCheck i b).
    + specialize (IH true). destruct (scanCapturer b true) as [b' m']. simpl in *.
      destruct IH as (-> & -> & ->). repeat split.
      destruct k as [|pattern|]; simpl; try reflexivity.
      rewrite clone_pattern. reflexivity.
    + specialize (IH modified). destruct (scanCapturer b modified) as [b' m'].
      simpl in *. destruct IH as (-> & -> & ->). repeat split.
  - specialize (IH modified). destruct (scanCapturer b modified) as [b' m'].
    simpl in *. destruct IH as (-> & -> & ->). repeat split.
  - specialize (IH modified). destruct (scanCapturer b modified) as [b' m'].
    simpl in *. destruct IH as (-> & -> & ->). repeat split.
Qed.

Lemma scanCapturer_isExistCheck (i : Z) (node : RamOperation) (modified : bool) :
  isExistCheck i (fst (scanCapturer node modified)) = isExistCheck i node.
Proof.
  destruct (scanCapturer_visits node modified) as (Hp & Hr & He).
  unfold isExistCheck. rewrite Hp, Hr, He. reflexivity.
Qed.

Lemma scanCapturer_again (node : RamOperation) : forall modified again,
  scanCapturer (fst (scanCapturer node modified)) again
  = (fst (scanCapturer node modified), again).
Proof.
  induction node as [k r i b IH p|i rl rp a b IH p|c b IH p|r v|v];
    intros modified again; simpl; try reflexivity.
  - destruct (isExistCheck i b) eqn:Hcheck.
    + specialize (IH true again). destruct (scanCapturer b true) as [b' m'].
      simpl in *. rewrite IH. reflexivity.
    + specialize (IH modified again).
      pose proof (scanCapturer_isExistCheck i b modified) as Hsame.
      destruct (scanCapturer b modified) as [b' m']. simpl in *.
      rewrite Hsame, Hcheck, IH. reflexivity.
  - specialize (IH modified again). destruct (scanCapturer b modified) as [b' m'].
    simpl in *. rewrite IH. reflexivity.
  - specialize (IH modified again). destruct (scanCapturer b modified) as [b' m'].
    simpl in *. rewrite IH. reflexivity.
Qed.

(** The mapper of the conversion always returns, and so does the
    driver. *)
Lemma convertExistenceChecks_run (main : RamStatement) :
  applyToMain (fun operation => Some (scanCapturer operation false))
    (fun modified scanModified => if scanModified then true else modified) main
  = Some (convertExistenceChecks main).
Proof.
  unfold convertExistenceChecks.
  destruct (applyToMain _ _ main) as [r|] eqn:Hrun; [reflexivity | exfalso].
  unfold applyToMain in Hrun. destruct main as [operation|statements]; [discriminate|].
  revert Hrun. apply queryCapturer_defined.
  apply List.Forall_forall. intros query _. discriminate.
Qed.

(** X10.  When [convertExistenceChecks] returns [false], the program is
    what it was: no search was replaced. *)
Theorem convertExistenceChecks_unchanged (main : RamStatement) :
  snd (convertExistenceChecks main) = false ->
  fst (convertExistenceChecks main) = main.
Proof.
  pose proof (convertExistenceChecks_run main) as Hrun.
  destruct (convertExistenceChecks main) as [main' modified]. simpl.
  intros ->. unfold applyToMain in Hrun. destruct main as [operation|statements].
  - inversion Hrun. reflexivity.
  - eapply queryCapturer_unchanged in Hrun; [apply Hrun | |].
    + intros m [|]; [discriminate|]. intros ->. split; reflexivity.
    + intros operation operation' [= Hcap].
      pose proof (scanCapturer_flag operation false) as Hflag.
      rewrite Hcap in Hflag. simpl in Hflag. apply Hflag. reflexivity.
Qed.

Lemma convertExistenceChecks_unchanged_witness :
  fst (convertExistenceChecks
         (RamSequence [RamQuery (RamScan (mkRelation "R" 1) 0
            (RamProject (mkRelation "S" 1) [RamElementAccess 0 0]) "")]))
  = RamSequence [RamQuery (RamScan (mkRelation "R" 1) 0
      (RamProject (mkRelation "S" 1) [RamElementAccess 0 0]) "")].
Proof. apply convertExistenceChecks_unchanged. reflexivity. Defined.

(** X11.  [convertExistenceChecks] finds nothing to do on its own
    result: a second run returns the program as it is and reports no
    change. *)
Theorem convertExistenceChecks_idempotent (main : RamStatement) :
  convertExistenceChecks (fst (convertExistenceChecks main))
  = (fst (convertExistenceChecks main), false).
Proof.
  pose proof (convertExistenceChecks_run main) as Hrun.
  pose proof (convertExistenceChecks_run (fst (convertExistenceChecks main))) as Hagain.
  destruct (convertExistenceChecks main) as [main' modified]. simpl in *.
  unfold applyToMain in Hrun. destruct main as [operation|statements].
  - inversion Hrun; subst. reflexivity.
  - pose proof Hrun as Hshape. rewrite queryCapturer_sequence in Hshape.
    destruct (captureAll _ _ statements false) as [[statements' m]|];
      [|discriminate].
    inversion Hshape; subst main' modified. clear Hshape.
    eapply queryCapturer_again in Hrun.
    + unfold applyToMain in Hagain. rewrite Hrun in Hagain.
      inversion Hagain. reflexivity.
    + intros m'. reflexivity.
    + intros operation operation' s [= Hcap].
      replace operation' with (fst (scanCapturer operation false))
        by (rewrite Hcap; reflexivity).
      rewrite scanCapturer_again. reflexivity.
Qed.

(** X12.  [convertExistenceChecks] keeps, in every query, the
    projections, the reference levels of the unpackings and the
    expressions, each list in its order: a search is replaced, its
    nested operation and its range pattern are kept. *)
Theorem convertExistenceChecks_keeps (main : RamStatement) :
  Forall2 (fun query query' =>
             projectsOf query' = projectsOf query
             /\ referenceLevelsOf query' = referenceLevelsOf query
             /\ expressionsOf query' = expressionsOf query)
    (queriesOf main) (queriesOf (fst (convertExistenceChecks main))).
Proof.
  pose proof (convertExistenceChecks_run main) as Hrun.
  destruct (convertExistenceChecks main) as [main' modified]. simpl.
  unfold applyToMain in Hrun. destruct main as [operation|statements].
  - inversion Hrun. simpl. constructor; [|constructor]. repeat split.
  - apply queryCapturer_queries in Hrun.
    eapply Forall2_impl; [exact Hrun|].
    intros query query' (s & [= Hcap]).
    replace query' with (fst (scanCapturer query false))
      by (rewrite Hcap; reflexivity).
    apply scanCapturer_visits.
Qed.

(** X13.  [getConditions] loses nothing of the condition: conjoining
    what it returns, last to first, with the lambda [addCondition] of
    [rewriteScan] gives the condition back; a null condition gives no
    conjunct and is given back as null. *)
Theorem getConditions_conjoined (condition : option RamCondition) :
  fold_left addCondition (rev (getConditions condition)) None = condition.
Proof.
  destruct condition as [c|]; [|reflexivity]. simpl.
  induction c as [lhs IHl rhs _| | | |]; try reflexivity.
  simpl. rewrite fold_left_app, IHl. reflexivity.
Qed.

(** ** What the two passes leave behind *)

(** No scan sits on a filter with an indexable conjunct. *)
Fixpoint scansIndexed (node : RamOperation) : bool :=
  match node with
  | RamRelationSearch kind rel identifier operation _ =>
      match kind, operation with
      | Scan, RamFilter fc _ _ =>
          negb (existsb (isIndexable identifier) (getConditions fc))
      | _, _ => true
      end && scansIndexed operation
  | RamUnpackRecord _ _ _ _ operation _ => scansIndexed operation
  | RamFilter _ operation _ => scansIndexed operation
  | RamProject _ _ => true
  | RamReturn _ => true
  end.

(** Every relation search has a nested operation that depends on its
    tuple. *)
Fixpoint searchesUsed (node : RamOperation) : bool :=
  match node with
  | RamRelationSearch _ _ identifier operation _ =>
      negb (isExistCheck identifier operation) && searchesUsed operation
  | RamUnpackRecord _ _ _ _ operation _ => searchesUsed operation
  | RamFilter _ operation _ => searchesUsed operation
  | RamProject _ _ => true
  | RamReturn _ => true
  end.

Lemma scanState_indexable (rel : RamRelation) (i : Z) (fc : option RamCondition)
    (st : IndexState) :
  scanState rel i fc = Some st ->
  indexable st = existsb (isIndexable i) (getConditions fc).
Proof.
  intros Hst.
  pose proof (rewriteScanLoop_spec i (getArity rel) _ [] _ _
                (afterConjuncts_init i (getArity rel)) Hst) as Hinv.
  simpl in Hinv. apply Hinv.
Qed.

Lemma indexScanCapturer_complete_sized (n : nat) : forall node modified node' modified',
  (operationSize node <= n)%nat ->
  indexScanCapturer node modified = Some (node', modified') ->
  scansIndexed node' = true.
Proof.
  induction n as [|n IH]; intros node modified node' modified' Hsize.
  - destruct node; simpl in Hsize; lia.
  - intros Hrun. pose proof Hrun as Hcases. rewrite indexScanCapturer_cases in Hcases.
    destruct node as [k r i b p|i rl rp a b p|c b p|r v|v]; simpl in Hsize.
    + assert (Hdescend : forall m,
                (k <> Scan \/ isFilter b = false) ->
                rebuilt (fun o => RamRelationSearch k r i o p) (indexScanCapturer b m)
                = Some (node', modified') ->
                scansIndexed node' = true).
      { intros m Hkind H. apply rebuilt_Some in H. destruct H as (o & Ho & ->).
        pose proof (indexScanCapturer_filter _ _ _ _ Ho) as Hfilter.
        assert (Hdone : scansIndexed o = true)
          by (apply (IH b m o modified'); [lia | exact Ho]).
        simpl. rewrite Hdone, andb_true_r.
        destruct k; try reflexivity.
        destruct Hkind as [Hkind|Hkind]; [congruence|].
        destruct b; try discriminate Hkind; simpl in Hfilter;
          destruct o; try discriminate Hfilter; reflexivity. }
      destruct k;
        [destruct b as [| |fc inner t| |]| |];
        try (apply (Hdescend modified); [(left; discriminate) || (right; reflexivity)
                                        | exact Hcases]).
      destruct (scanState r i fc) as [st|] eqn:Hst; [|discriminate].
      pose proof (scanState_indexable r i fc st Hst) as Hidx.
      destruct (indexable st); apply rebuilt_Some in Hcases;
        destruct Hcases as (o & Ho & ->); simpl in Hsize;
        assert (Hdone : scansIndexed o = true)
          by (eapply (IH inner); [lia | exact Ho]).
      * simpl. destruct (condition st); simpl; exact Hdone.
      * simpl. rewrite <- Hidx. exact Hdone.
    + apply rebuilt_Some in Hcases. destruct Hcases as (o & Ho & ->). simpl.
      eapply (IH b); [lia | exact Ho].
    + apply rebuilt_Some in Hcases. destruct Hcases as (o & Ho & ->). simpl.
      eapply (IH b); [lia | exact Ho].
    + inversion Hcases; subst. reflexivity.
    + inversion Hcases; subst. reflexivity.
Qed.

Lemma Forall2_right {A B} (P : A -> B -> Prop) (Q : B -> Prop) (l : list A)
    (l' : list B) :
  (forall a b, P a b -> Q b) -> Forall2 P l l' -> Forall Q l'.
Proof. intros HPQ H. induction H; constructor; eauto. Qed.

(** X28.  After [createIndices] no scan that it reached is left on a
    filter with an indexable conjunct: every such scan has become an
    index scan. *)
Theorem createIndices_complete (main main' : RamStatement) (modified : bool) :
  createIndices main = Some (main', modified) ->
  Forall (fun query => scansIndexed query = true) (reachedQueries main').
Proof.
  unfold createIndices, applyToMain. destruct main as [operation|statements].
  - intros [= <- <-]. constructor.
  - intros H. pose proof H as Hshape. rewrite queryCapturer_sequence in Hshape.
    destruct (captureAll _ _ statements false) as [[statements' m]|];
      [|discriminate].
    inversion Hshape; subst main' modified. clear Hshape.
    apply queryCapturer_queries in H.
    eapply Forall2_right; [|exact H].
    intros query query' (s & Hs). simpl in Hs.
    apply (indexScanCapturer_complete_sized (operationSize query) query false query' s);
      [lia | exact Hs].
Qed.

Lemma createIndices_complete_witness :
  Forall (fun query => scansIndexed query = true)
    (reachedQueries
       (RamSequence [RamQuery (RamIndexScan (mkRelation "R" 2) 0
                       [Some (RamNumber 1); None]
                       (RamProject (mkRelation "S" 1) [RamElementAccess 0 1]) "")])).
Proof.
  apply (createIndices_complete
           (RamSequence [RamQuery (RamScan (mkRelation "R" 2) 0
              (RamFilter (Some (RamConstraint EQ (RamElementAccess 0 0) (RamNumber 1)))
                 (RamProject (mkRelation "S" 1) [RamElementAccess 0 1]) "") "")])
           _ true).
  vm_compute. reflexivity.
Defined.

Lemma scanCapturer_complete (node : RamOperation) : forall modified,
  searchesUsed (fst (scanCapturer node modified)) = true.
Proof.
  induction node as [k r i b IH p|i rl rp a b IH p|c b IH p|r v|v]; intros modified;
    simpl; try reflexivity.
  - destruct (isExistCheck i b) eqn:Hcheck.
    + specialize (IH true). destruct (scanCapturer b true) as [b' m']. exact IH.
    + specialize (IH modified).
      pose proof (scanCapturer_isExistCheck i b modified) as Hsame.
      destruct (scanCapturer b modified) as [b' m']. simpl in *.
      rewrite Hsame, Hcheck, IH. reflexivity.
  - specialize (IH modified). destruct (scanCapturer b modified) as [b' m']. exact IH.
  - specialize (IH modified). destruct (scanCapturer b modified) as [b' m']. exact IH.
Qed.

(** X29.  After [convertExistenceChecks] every relation search left in
    a query that it reached is used: its nested operation fails the
    test for an existence check. *)
Theorem convertExistenceChecks_complete (main : RamStatement) :
  Forall (fun query => searchesUsed query = true)
    (reachedQueries (fst (convertExistenceChecks main))).
Proof.
  pose proof (convertExistenceChecks_run main) as Hrun.
  destruct (convertExistenceChecks main) as [main' modified]. simpl.
  unfold applyToMain in Hrun. destruct main as [operation|statements].
  - inversion Hrun. constructor.
  - pose proof Hrun as Hshape. rewrite queryCapturer_sequence in Hshape.
    destruct (captureAll _ _ statements false) as [[statements' m]|];
      [|discriminate].
    inversion Hshape; subst main' modified. clear Hshape.
    apply queryCapturer_queries in Hrun.
    eapply Forall2_right; [|exact Hrun].
    intros query query' (s & [= Hcap]).
    replace query' with (fst (scanCapturer query false))
      by (rewrite Hcap; reflexivity).
    apply scanCapturer_complete.
Qed.

End Ram.

(** ** The rule tree *)

Module Ast.

(** Modelled from the spec: the node classes of the rule tree are not
    among the sources (section 3.2).  One type stands for the class
    hierarchy below the node base class, children owned by their
    parent in the order of [getChildNodes]: arguments (variables,
    constants, record initialisers, functors, aggregators), literals
    (atoms, negations, binary constraints), clauses and the program.
    An aggregator has an optional target expression and a body of
    literals. *)
Inductive Node :=
| AstVariable (name : string)
| AstNumericConstant (value : Z)
| AstRecordInit (args : list Node)
| AstFunctor (name : string) (args : list Node)
| AstAggregator (op : string) (targetExpression : option Node) (body : list Node)
| AstAtom (name : string) (args : list Node)
| AstNegation (atom : Node)
| AstBinaryConstraint (op : Ram.BinaryConstraintOp) (lhs rhs : Node)
| AstClause (head : Node) (body : list Node)
| AstProgram (clauses : list Node).

Section NodeInduction.
Variable P : Node -> Prop.
Hypothesis HVariable : forall name, P (AstVariable name).
Hypothesis HConstant : forall value, P (AstNumericConstant value).
Hypothesis HRecord : forall args, Forall P args -> P (AstRecordInit args).
Hypothesis HFunctor : forall name args, Forall P args -> P (AstFunctor name args).
Hypothesis HAggregator : forall op target body,
    Ram.ForallOpt P target -> Forall P body -> P (AstAggregator op target body).
Hypothesis HAtom : forall name args, Forall P args -> P (AstAtom name args).
Hypothesis HNegation : forall atom, P atom -> P (AstNegation atom).
Hypothesis HConstraint : forall op lhs rhs, P lhs -> P rhs -> P (AstBinaryConstraint op lhs rhs).
Hypothesis HClause : forall head body, P head -> Forall P body -> P (AstClause head body).
Hypothesis HProgram : forall clauses, Forall P clauses -> P (AstProgram clauses).

Fixpoint Node_nested_ind (n : Node) : P n :=
  let all :=
    fix go (l : list Node) : Forall P l :=
      match l with
      | [] => @List.Forall_nil _ P
      | a :: l' => @List.Forall_cons _ P a l' (Node_nested_ind a) (go l')
      end in
  match n with
  | AstVariable name => HVariable name
  | AstNumericConstant value => HConstant value
  | AstRecordInit args => HRecord args (all args)
  | AstFunctor name args => HFunctor name args (all args)
  | AstAggregator op target body =>
      HAggregator op target body
        (match target return Ram.ForallOpt P target with
         | Some t => Node_nested_ind t
         | None => I
         end)
        (all body)
  | AstAtom name args => HAtom name args (all args)
  | AstNegation atom => HNegation atom (Node_nested_ind atom)
  | AstBinaryConstraint op lhs rhs =>
      HConstraint op lhs rhs (Node_nested_ind lhs) (Node_nested_ind rhs)
  | AstClause head body => HClause head body (Node_nested_ind head) (all body)
  | AstProgram clauses => HProgram clauses (all clauses)
  end.
End NodeInduction.

(** The names of the variables that [visitDepthFirst] meets below a
    node, the node included. *)
Fixpoint variableNames (node : Node) : list string :=
  match node with
  | AstVariable name => [name]
  | AstNumericConstant _ => []
  | AstRecordInit args => flat_map variableNames args
  | AstFunctor _ args => flat_map variableNames args
  | AstAggregator _ target body =>
      match target with Some t => variableNames t | None => [] end
      ++ flat_map variableNames body
  | AstAtom _ args => flat_map variableNames args
  | AstNegation atom => variableNames atom
  | AstBinaryConstraint _ lhs rhs => variableNames lhs ++ variableNames rhs
  | AstClause head body => variableNames head ++ flat_map variableNames body
  | AstProgram clauses => flat_map variableNames clauses
  end.

Fixpoint containsAggregator (node : Node) : bool :=
  match node with
  | AstVariable _ => false
  | AstNumericConstant _ => false
  | AstRecordInit args => existsb containsAggregator args
  | AstFunctor _ args => existsb containsAggregator args
  | AstAggregator _ _ _ => true
  | AstAtom _ args => existsb containsAggregator args
  | AstNegation atom => containsAggregator atom
  | AstBinaryConstraint _ lhs rhs => containsAggregator lhs || containsAggregator rhs
  | AstClause head body => containsAggregator head || existsb containsAggregator body
  | AstProgram clauses => existsb containsAggregator clauses
  end.

(** The binary constraints below a node, the node included. *)
Fixpoint binaryConstraints (node : Node) : list (Ram.BinaryConstraintOp * Node * Node) :=
  match node with
  | AstVariable _ => []
  | AstNumericConstant _ => []
  | AstRecordInit args => flat_map binaryConstraints args
  | AstFunctor _ args => flat_map binaryConstraints args
  | AstAggregator _ target body =>
      match target with Some t => binaryConstraints t | None => [] end
      ++ flat_map binaryConstraints body
  | AstAtom _ args => flat_map binaryConstraints args
  | AstNegation atom => binaryConstraints atom
  | AstBinaryConstraint op lhs rhs =>
      (op, lhs, rhs) :: binaryConstraints lhs ++ binaryConstraints rhs
  | AstClause head body => binaryConstraints head ++ flat_map binaryConstraints body
  | AstProgram clauses => flat_map binaryConstraints clauses
  end.

End Ast.

(** ** The binding store of the magic-set transformation *)

Module MagicSet.
Import Ast.

(** The three members of [BindingStore]. *)
Record BindingStore := mkBindingStore {
  boundVariables : gset string;
  boundHeadVariables : gset string;
  bindingDependencies : gmap string (gset (gset string))
}.

Definition bindHeadVariable (varName : string) (store : BindingStore) : BindingStore :=
  mkBindingStore (boundVariables store) ({[varName]} ∪ boundHeadVariables store)
    (bindingDependencies store).

Definition isBound (varName : string) (store : BindingStore) : bool :=
  bool_decide (varName ∈ boundVariables store)
  || bool_decide (varName ∈ boundHeadVariables store).

Definition getBoundVariables (store : BindingStore) : gset string :=
  boundVariables store.

Definition addBindingDependency (variable : string) (dependency : gset string)
    (deps : gmap string (gset (gset string))) : gmap string (gset (gset string)) :=
  <[variable := {[dependency]} ∪ default ∅ (deps !! variable)]> deps.

(** [processEqualityBindings]; [None] when the assertion on the
    arguments of a record fails. *)
Definition processEqualityBindings (lhs rhs : Node)
    (deps : gmap string (gset (gset string))) : option (gmap string (gset (gset string))) :=
  match lhs with
  | AstVariable var =>
      let deps1 := addBindingDependency var (list_to_set (variableNames rhs)) deps in
      match rhs with
      | AstRecordInit args =>
          foldl (fun acc arg =>
                   match acc, arg with
                   | Some d, AstVariable subVar => Some (addBindingDependency subVar {[var]} d)
                   | _, _ => None
                   end) (Some deps1) args
      | _ => Some deps1
      end
  | _ => Some deps
  end.

(** [generateBindingDependencies]: the equalities of the clause that
    hold no aggregator, each taken in both directions. *)
Definition generateBindingDependencies (clause : Node)
  : option (gmap string (gset (gset string))) :=
  foldl (fun acc bc =>
           match acc, bc with
           | Some d, (op, lhs, rhs) =>
               match processEqualityBindings lhs rhs d with
               | Some d1 => processEqualityBindings rhs lhs d1
               | None => None
               end
           | None, _ => None
           end)
    (Some ∅)
    (List.filter (fun bc => match bc with
                            | (Ram.EQ, lhs, rhs) =>
                                negb (containsAggregator lhs || containsAggregator rhs)
                            | _ => false
                            end)
       (binaryConstraints clause)).

(** The locals of one run of the loop of [reduceDependencies]. *)
Record ReduceState := mkReduceState {
  changed : bool;
  newBindingDependencies : gmap string (gset (gset string));
  variablesToBind : gset string
}.

(** The body of the loop for one entry of the map.  The sets of a
    dependency are visited in their order, in which the empty set comes
    first: the inner loop either breaks at once ([nowBound]), or maps
    every dependency to its unbound variables and sets [changed] when
    one of them held a bound variable.  The assertion that the entry
    has a dependency is not part of the step; it is shown below to hold
    for the stores that the constructor builds. *)
Definition reduceEntry (bound : gset string) (headVar : string)
    (dependencies : gset (gset string)) (st : ReduceState) : ReduceState :=
  if decide (headVar ∈ bound) then
    mkReduceState true (newBindingDependencies st) (variablesToBind st)
  else if decide (∅ ∈ dependencies) then
    mkReduceState true (newBindingDependencies st) ({[headVar]} ∪ variablesToBind st)
  else
    mkReduceState
      (changed st
       || bool_decide (set_Exists (fun dep : gset string => dep ∩ bound ≠ ∅) dependencies))
      (<[headVar := set_map (fun dep : gset string => dep ∖ bound) dependencies]>
         (newBindingDependencies st))
      (variablesToBind st).

Definition reduceRound (store : BindingStore) : ReduceState :=
  map_fold (reduceEntry (boundVariables store)) (mkReduceState false ∅ ∅)
    (bindingDependencies store).

(** The pairs of a key with itself or with a variable of one of its
    dependencies; every run of the loop that reports a change removes
    one of them. *)
Definition tokens (deps : gmap string (gset (gset string))) : gset (string * option string) :=
  list_to_set
    (map_to_list deps ≫= fun '(k, ds) =>
       (k, None) :: (elements ds ≫= fun d => (fun x => (k, Some x)) <$> elements d)).

Lemma elem_of_tokens_key (deps : gmap string (gset (gset string))) (k : string) :
  (k, None) ∈ tokens deps <-> is_Some (deps !! k).
Proof.
  unfold tokens. rewrite elem_of_list_to_set, list_elem_of_bind. split.
  - intros ([k' ds] & Hin & Hmap). apply elem_of_map_to_list in Hmap.
    apply elem_of_cons in Hin. destruct Hin as [Heq|Hin].
    + inversion Heq; subst. eauto.
    + apply list_elem_of_bind in Hin. destruct Hin as (d & Hin & _).
      apply list_elem_of_fmap in Hin. destruct Hin as (x & Heq & _). discriminate.
  - intros [ds Hds]. exists (k, ds). split.
    + apply list_elem_of_here.
    + apply elem_of_map_to_list. exact Hds.
Qed.

Lemma elem_of_tokens_variable (deps : gmap string (gset (gset string))) (k x : string) :
  (k, Some x) ∈ tokens deps <->
  exists ds d, deps !! k = Some ds /\ d ∈ ds /\ x ∈ d.
Proof.
  unfold tokens. rewrite elem_of_list_to_set, list_elem_of_bind. split.
  - intros ([k' ds] & Hin & Hmap). apply elem_of_map_to_list in Hmap.
    apply elem_of_cons in Hin. destruct Hin as [Heq|Hin]; [discriminate|].
    apply list_elem_of_bind in Hin. destruct Hin as (d & Hin & Hd).
    apply list_elem_of_fmap in Hin. destruct Hin as (y & Heq & Hy).
    inversion Heq; subst. exists ds, d.
    apply elem_of_elements in Hd. apply elem_of_elements in Hy. auto.
  - intros (ds & d & Hds & Hd & Hx). exists (k, ds). split.
    + apply list_elem_of_further. apply list_elem_of_bind. exists d. split.
      * apply list_elem_of_fmap. exists x. split; [reflexivity|].
        apply elem_of_elements. exact Hx.
      * apply elem_of_elements. exact Hd.
    + apply elem_of_map_to_list. exact Hds.
Qed.

(** What one run of the loop keeps of an entry, and when it sets
    [changed] for it. *)
Definition keptDependencies (bound : gset string) (k : string)
    (ds : gset (gset string)) : option (gset (gset string)) :=
  if decide (k ∈ bound) then None
  else if decide (∅ ∈ ds) then None
  else Some (set_map (fun d : gset string => d ∖ bound) ds).

Definition entryChanges (bound : gset string) (k : string) (ds : gset (gset string)) : Prop :=
  k ∈ bound \/ ∅ ∈ ds \/ set_Exists (fun d : gset string => d ∩ bound ≠ ∅) ds.

Lemma reduceRound_spec (store : BindingStore) :
  (forall k, newBindingDependencies (reduceRound store) !! k
             = (bindingDependencies store !! k) ≫= keptDependencies (boundVariables store) k)
  /\ (forall k, k ∈ variablesToBind (reduceRound store) <->
                exists ds, bindingDependencies store !! k = Some ds
                           /\ (k ∉ boundVariables store) /\ ∅ ∈ ds)
  /\ (changed (reduceRound store) = true <->
      exists k ds, bindingDependencies store !! k = Some ds
                   /\ entryChanges (boundVariables store) k ds).
Proof.
  unfold reduceRound. set (bound := boundVariables store).
  apply (map_fold_weak_ind
           (fun (r : ReduceState) (m : gmap string (gset (gset string))) =>
              (forall k, newBindingDependencies r !! k = (m !! k) ≫= keptDependencies bound k)
              /\ (forall k, k ∈ variablesToBind r <->
                            exists ds, m !! k = Some ds /\ (k ∉ bound) /\ ∅ ∈ ds)
              /\ (changed r = true <->
                  exists k ds, m !! k = Some ds /\ entryChanges bound k ds))).
  - simpl. split; [|split].
    + intros k. rewrite !lookup_empty. reflexivity.
    + intros k. split; [set_solver|]. intros (ds & Hds & _).
      rewrite lookup_empty in Hds. discriminate.
    + split; [discriminate|]. intros (k & ds & Hds & _).
      rewrite lookup_empty in Hds. discriminate.
  - intros i ds m r Hi (Hnew & Hbind & Hch).
    assert (Hother : forall k, k ≠ i -> <[i:=ds]> m !! k = m !! k)
      by (intros; apply lookup_insert_ne; congruence).
    unfold reduceEntry.
    destruct (decide (i ∈ bound)) as [Hib|Hib];
      [|destruct (decide (∅ ∈ ds)) as [He|He]]; simpl; (split; [|split]).
    + intros k. destruct (decide (k = i)) as [->|Hk].
      * rewrite lookup_insert_eq. simpl. unfold keptDependencies.
        rewrite decide_True by exact Hib. rewrite Hnew, Hi. reflexivity.
      * rewrite Hother by exact Hk. apply Hnew.
    + intros k. rewrite Hbind. destruct (decide (k = i)) as [->|Hk].
      * rewrite lookup_insert_eq, Hi. split.
        -- intros (? & ? & _). discriminate.
        -- intros (? & _ & Hnb & _). contradiction.
      * rewrite Hother by exact Hk. reflexivity.
    + split; [intros _|reflexivity]. exists i, ds. rewrite lookup_insert_eq.
      split; [reflexivity | left; exact Hib].
    + intros k. destruct (decide (k = i)) as [->|Hk].
      * rewrite lookup_insert_eq. simpl. unfold keptDependencies.
        rewrite decide_False by exact Hib. rewrite decide_True by exact He.
        rewrite Hnew, Hi. reflexivity.
      * rewrite Hother by exact Hk. apply Hnew.
    + intros k. rewrite elem_of_union, elem_of_singleton, Hbind.
      destruct (decide (k = i)) as [->|Hk].
      * rewrite lookup_insert_eq. split; [intros _; eauto|]. intros _. left. reflexivity.
      * rewrite Hother by exact Hk. split; [intros [?|?]; [contradiction|assumption]|auto].
    + split; [intros _|reflexivity]. exists i, ds. rewrite lookup_insert_eq.
      split; [reflexivity | right; left; exact He].
    + intros k. destruct (decide (k = i)) as [->|Hk].
      * rewrite !lookup_insert_eq. simpl. unfold keptDependencies.
        rewrite decide_False by exact Hib. rewrite decide_False by exact He. reflexivity.
      * rewrite lookup_insert_ne by congruence. rewrite Hother by exact Hk. apply Hnew.
    + intros k. rewrite Hbind. destruct (decide (k = i)) as [->|Hk].
      * rewrite lookup_insert_eq, Hi. split.
        -- intros (? & ? & _). discriminate.
        -- intros (? & [= <-] & _ & He'). contradiction.
      * rewrite Hother by exact Hk. reflexivity.
    + rewrite orb_true_iff, bool_decide_eq_true, Hch. split.
      * intros [(k & ds' & Hk & Hc)|Hex].
        -- exists k, ds'. split; [|exact Hc].
           rewrite Hother; [exact Hk|]. intros ->. rewrite Hi in Hk. discriminate.
        -- exists i, ds. rewrite lookup_insert_eq. split; [reflexivity|].
           right; right; exact Hex.
      * intros (k & ds' & Hk & Hc). destruct (decide (k = i)) as [->|Hne].
        -- rewrite lookup_insert_eq in Hk. inversion Hk; subst ds'.
           destruct Hc as [?|[?|Hex]]; [contradiction..|]. right. exact Hex.
        -- rewrite Hother in Hk by exact Hne. left. eauto.
Qed.

Lemma keptDependencies_unchanged (bound : gset string) (k : string)
    (ds : gset (gset string)) :
  ~ entryChanges bound k ds -> keptDependencies bound k ds = Some ds.
Proof.
  intros Hno. unfold keptDependencies, entryChanges in *.
  rewrite decide_False by tauto. rewrite decide_False by tauto. f_equal.
  apply set_eq. intros d. rewrite elem_of_map. split.
  - intros (d' & -> & Hd').
    assert (Hdisj : d' ∩ bound = ∅).
    { destruct (decide (d' ∩ bound = ∅)) as [H|H]; [exact H|].
      exfalso. apply Hno. right; right. exists d'. auto. }
    replace (d' ∖ bound) with d' by set_solver. exact Hd'.
  - intros Hd. exists d. split; [|exact Hd].
    assert (Hdisj : d ∩ bound = ∅).
    { destruct (decide (d ∩ bound = ∅)) as [H|H]; [exact H|].
      exfalso. apply Hno. right; right. exists d. auto. }
    set_solver.
Qed.

(** The assertion at the end of [reduceDependencies]: a run of the loop
    that reports no change has rebuilt the map as it was, and binds no
    variable. *)
Lemma reduceRound_unchanged (store : BindingStore) :
  changed (reduceRound store) = false ->
  newBindingDependencies (reduceRound store) = bindingDependencies store
  /\ variablesToBind (reduceRound store) = ∅.
Proof.
  intros Hch. destruct (reduceRound_spec store) as (Hnew & Hbind & Hchanged).
  assert (Hno : forall k ds, bindingDependencies store !! k = Some ds ->
                             ~ entryChanges (boundVariables store) k ds).
  { intros k ds Hk Hc. assert (changed (reduceRound store) = true)
      by (apply Hchanged; eauto). congruence. }
  split.
  - apply map_eq. intros k. rewrite Hnew.
    destruct (bindingDependencies store !! k) as [ds|] eqn:Hk; simpl; [|reflexivity].
    apply keptDependencies_unchanged. eapply Hno; eauto.
  - apply set_eq. intros k. rewrite Hbind. split; [|set_solver].
    intros (ds & Hk & _ & He). exfalso. apply (Hno k ds Hk). right; left. exact He.
Qed.

(** A run of the loop that reports a change removes a token. *)
Lemma reduceRound_changed (store : BindingStore) :
  changed (reduceRound store) = true ->
  tokens (newBindingDependencies (reduceRound store))
  ⊂ tokens (bindingDependencies store).
Proof.
  intros Hch. destruct (reduceRound_spec store) as (Hnew & Hbind & Hchanged).
  set (bound := boundVariables store) in *.
  assert (Hkept : forall k ds', newBindingDependencies (reduceRound store) !! k = Some ds' ->
            exists ds, bindingDependencies store !! k = Some ds
                       /\ (k ∉ bound) /\ (∅ ∉ ds)
                       /\ ds' = set_map (fun d : gset string => d ∖ bound) ds).
  { intros k ds' Hk. rewrite Hnew in Hk.
    destruct (bindingDependencies store !! k) as [ds|]; [|discriminate].
    simpl in Hk. unfold keptDependencies in Hk.
    destruct (decide (k ∈ bound)); [discriminate|].
    destruct (decide (∅ ∈ ds)); [discriminate|].
    inversion Hk. eauto 10. }
  apply Hchanged in Hch. destruct Hch as (k & ds & Hk & Hc).
  split.
  - intros [k' [x|]] Hin.
    + apply elem_of_tokens_variable in Hin. destruct Hin as (ds' & d' & Hk' & Hd' & Hx).
      destruct (Hkept k' ds' Hk') as (ds0 & Hk0 & _ & _ & ->).
      apply elem_of_map in Hd'. destruct Hd' as (d & -> & Hd).
      apply elem_of_tokens_variable. exists ds0, d. set_solver.
    + apply elem_of_tokens_key in Hin. destruct Hin as [ds' Hk'].
      destruct (Hkept k' ds' Hk') as (ds0 & Hk0 & _).
      apply elem_of_tokens_key. eauto.
  - intros Hsub.
    assert (Hdropped : forall ds', newBindingDependencies (reduceRound store) !! k = Some ds' ->
                                  (k ∉ bound) /\ (∅ ∉ ds)
                                  /\ ds' = set_map (fun d : gset string => d ∖ bound) ds).
    { intros ds' Hk'. destruct (Hkept k ds' Hk') as (ds0 & Hk0 & ? & ? & ?).
      rewrite Hk in Hk0. inversion Hk0; subst ds0. auto. }
    assert (Hkey : (k, None) ∈ tokens (newBindingDependencies (reduceRound store))).
    { apply Hsub. apply elem_of_tokens_key. eauto. }
    apply elem_of_tokens_key in Hkey. destruct Hkey as [ds' Hk'].
    destruct (Hdropped ds' Hk') as (Hnb & Hne & ->).
    destruct Hc as [?|[?|(d & Hd & Hdb)]]; [contradiction..|].
    assert (Hx : exists x, x ∈ d /\ x ∈ bound).
    { destruct (set_choose_or_empty (d ∩ bound)) as [[x Hx]|He].
      - exists x. set_solver.
      - exfalso. apply Hdb. apply leibniz_equiv. exact He. }
    destruct Hx as (x & Hxd & Hxb).
    assert (Hvar : (k, Some x) ∈ tokens (newBindingDependencies (reduceRound store))).
    { apply Hsub. apply elem_of_tokens_variable. eauto. }
    apply elem_of_tokens_variable in Hvar. destruct Hvar as (ds'' & d' & Hk'' & Hd' & Hx').
    rewrite Hk' in Hk''. inversion Hk''; subst ds''.
    apply elem_of_map in Hd'. destruct Hd' as (d0 & -> & _). set_solver.
Qed.

Definition inspect {A} (a : A) : {b : A | a = b} := exist _ a eq_refl.

(** [reduceDependencies]: one run of the loop, the variables to bind
    are added to the bound ones, and while a change is reported the map
    is replaced and the reduction run again.  Returns the store and the
    returned flag.  The recursion ends because every run that reports a
    change removes a token. *)
Equations? reduceDependencies (store : BindingStore) : BindingStore * bool
  by wf (size (tokens (bindingDependencies store))) lt :=
reduceDependencies store with inspect (changed (reduceRound store)) := {
  | exist _ true Hchanged =>
      (fst (reduceDependencies
              (mkBindingStore
                 (variablesToBind (reduceRound store) ∪ boundVariables store)
                 (boundHeadVariables store)
                 (newBindingDependencies (reduceRound store)))),
       true)
  | exist _ false _ =>
      (mkBindingStore
         (variablesToBind (reduceRound store) ∪ boundVariables store)
         (boundHeadVariables store)
         (bindingDependencies store),
       false) }.
Proof.
  simpl. apply subset_size. apply reduceRound_changed. exact Hchanged.
Qed.

(** The constructor, [None] when the assertion on record arguments
    fails while the dependencies are generated. *)
Definition newBindingStore (clause : Node) : option BindingStore :=
  match generateBindingDependencies clause with
  | Some deps => Some (fst (reduceDependencies (mkBindingStore ∅ ∅ deps)))
  | None => None
  end.

Definition bindVariable (varName : string) (store : BindingStore) : BindingStore :=
  fst (reduceDependencies
         (mkBindingStore ({[varName]} ∪ boundVariables store)
            (boundHeadVariables store) (bindingDependencies store))).

(** ** Properties of the binding store *)

(** A store on which a run of the loop reports no change. *)
Definition settled (store : BindingStore) : Prop :=
  changed (reduceRound store) = false.

Lemma store_eta (store : BindingStore) :
  mkBindingStore (∅ ∪ boundVariables store) (boundHeadVariables store)
    (bindingDependencies store) = store.
Proof. destruct store as [b h d]. simpl. f_equal. set_solver. Qed.

Lemma reduceDependencies_settled (store : BindingStore) :
  settled (fst (reduceDependencies store)).
Proof.
  funelim (reduceDependencies store); simpl.
  - assumption.
  - destruct (reduceRound_unchanged store e) as [_ Hbind].
    rewrite Hbind, store_eta. exact e.
Qed.

Lemma reduceDependencies_fixed (store : BindingStore) :
  settled store -> reduceDependencies store = (store, false).
Proof.
  intros Hs. funelim (reduceDependencies store).
  - unfold settled in Hs. congruence.
  - destruct (reduceRound_unchanged store e) as [_ Hbind].
    rewrite Hbind, store_eta. reflexivity.
Qed.

Lemma settled_spec (store : BindingStore) :
  settled store <->
  (forall k, k ∈ dom (bindingDependencies store) -> k ∉ boundVariables store)
  /\ (forall k ds d x, bindingDependencies store !! k = Some ds -> d ∈ ds -> x ∈ d ->
                      x ∉ boundVariables store)
  /\ (forall k ds, bindingDependencies store !! k = Some ds -> ∅ ∉ ds).
Proof.
  unfold settled. destruct (reduceRound_spec store) as (_ & _ & Hchanged). split.
  - intros Hs.
    assert (Hno : forall k ds, bindingDependencies store !! k = Some ds ->
                               ~ entryChanges (boundVariables store) k ds).
    { intros k ds Hk Hc. assert (changed (reduceRound store) = true)
        by (apply Hchanged; eauto). congruence. }
    split; [|split].
    + intros k Hk Hb. apply elem_of_dom in Hk. destruct Hk as [ds Hk].
      apply (Hno k ds Hk). left. exact Hb.
    + intros k ds d x Hk Hd Hx Hb. apply (Hno k ds Hk). right; right.
      exists d. split; [exact Hd|]. set_solver.
    + intros k ds Hk He. apply (Hno k ds Hk). right; left. exact He.
  - intros (H1 & H2 & H3).
    apply not_true_is_false. intros Hch.
    apply Hchanged in Hch. destruct Hch as (k & ds & Hk & [Hb|[He|(d & Hd & Hdb)]]).
    + apply (H1 k); [|exact Hb]. apply elem_of_dom. eauto.
    + apply (H3 k ds Hk He).
    + destruct (set_choose_or_empty (d ∩ boundVariables store)) as [[x Hx]|He].
      * apply (H2 k ds d x Hk Hd); set_solver.
      * apply Hdb. apply leibniz_equiv. exact He.
Qed.

(** The reduction only adds bound variables, leaves the bound head
    variables alone, and binds every key that it drops. *)
Lemma reduceDependencies_grows (store : BindingStore) :
  boundVariables store ⊆ boundVariables (fst (reduceDependencies store))
  /\ boundHeadVariables (fst (reduceDependencies store)) = boundHeadVariables store
  /\ (forall k, k ∈ dom (bindingDependencies store) ->
                k ∈ dom (bindingDependencies (fst (reduceDependencies store)))
                \/ k ∈ boundVariables (fst (reduceDependencies store))).
Proof.
  funelim (reduceDependencies store); simpl.
  - destruct H as (Hb & Hh & Hd). simpl in Hb, Hh, Hd.
    split; [set_solver|]. split; [exact Hh|].
    intros k Hk. apply elem_of_dom in Hk. destruct Hk as [ds Hk].
    destruct (reduceRound_spec store) as (Hnew & Hbind & _).
    destruct (decide (k ∈ boundVariables store)) as [Hkb|Hkb]; [right; set_solver|].
    destruct (decide (∅ ∈ ds)) as [He|He].
    + right. apply Hb. apply elem_of_union. left. apply Hbind. eauto.
    + apply Hd. apply elem_of_dom. rewrite Hnew, Hk. simpl. unfold keptDependencies.
      rewrite decide_False by exact Hkb. rewrite decide_False by exact He. eauto.
  - split; [set_solver|]. split; [reflexivity|]. intros k Hk. left. exact Hk.
Qed.

(** The assertion in the loop: every key comes with at least one
    dependency.  It holds for the generated dependencies and each run
    of the loop keeps it. *)
Definition dependenciesNonEmpty (deps : gmap string (gset (gset string))) : Prop :=
  forall k ds, deps !! k = Some ds -> ds ≠ ∅.

Lemma reduceRound_nonEmpty (store : BindingStore) :
  dependenciesNonEmpty (bindingDependencies store) ->
  dependenciesNonEmpty (newBindingDependencies (reduceRound store)).
Proof.
  intros Hne k ds' Hk. destruct (reduceRound_spec store) as (Hnew & _ & _).
  rewrite Hnew in Hk.
  destruct (bindingDependencies store !! k) as [ds|] eqn:Hds; [|discriminate].
  simpl in Hk. unfold keptDependencies in Hk.
  destruct (decide (k ∈ boundVariables store)); [discriminate|].
  destruct (decide (∅ ∈ ds)); [discriminate|]. inversion Hk; subst ds'.
  specialize (Hne k ds Hds).
  destruct (set_choose_or_empty ds) as [[d Hd]|He].
  - intros Himg. assert (Hin : d ∖ boundVariables store
                                ∈ (set_map (fun d : gset string => d ∖ boundVariables store) ds
                                   : gset (gset string)))
      by (apply elem_of_map; eauto).
    rewrite Himg in Hin. set_solver.
  - exfalso. apply Hne. apply leibniz_equiv. exact He.
Qed.

Lemma addBindingDependency_nonEmpty variable dependency deps :
  dependenciesNonEmpty deps ->
  dependenciesNonEmpty (addBindingDependency variable dependency deps).
Proof.
  intros Hne k ds. unfold addBindingDependency.
  destruct (decide (k = variable)) as [->|Hk].
  - rewrite lookup_insert_eq. intros [= <-]. set_solver.
  - rewrite lookup_insert_ne by congruence. apply Hne.
Qed.

Lemma processEqualityBindings_nonEmpty lhs rhs deps deps' :
  dependenciesNonEmpty deps ->
  processEqualityBindings lhs rhs deps = Some deps' ->
  dependenciesNonEmpty deps'.
Proof.
  intros Hne. unfold processEqualityBindings.
  destruct lhs as [var| | | | | | | | |]; try (intros [= <-]; exact Hne).
  pose proof (addBindingDependency_nonEmpty var (list_to_set (variableNames rhs)) deps Hne)
    as Hne1.
  destruct rhs as [| |args| | | | | | |]; try (intros [= <-]; exact Hne1).
  revert Hne1. generalize (addBindingDependency var (list_to_set (variableNames (AstRecordInit args))) deps).
  induction args as [|arg args IH]; intros d Hd; simpl.
  - intros [= <-]. exact Hd.
  - destruct arg as [subVar| | | | | | | | |];
      try (intros Hf; exfalso; revert Hf; clear;
           induction args as [|a l IHl]; simpl; [discriminate | exact IHl]).
    apply IH. apply addBindingDependency_nonEmpty. exact Hd.
Qed.

Lemma generateBindingDependencies_nonEmpty clause deps :
  generateBindingDependencies clause = Some deps -> dependenciesNonEmpty deps.
Proof.
  unfold generateBindingDependencies.
  generalize (List.filter
                (fun bc : Ram.BinaryConstraintOp * Node * Node =>
                   match bc with
                   | (Ram.EQ, lhs, rhs) =>
                       negb (containsAggregator lhs || containsAggregator rhs)
                   | _ => false
                   end) (binaryConstraints clause)).
  intros l.
  assert (Hinit : dependenciesNonEmpty (∅ : gmap string (gset (gset string))))
    by (intros k ds Hk; rewrite lookup_empty in Hk; discriminate).
  revert Hinit. generalize (∅ : gmap string (gset (gset string))).
  induction l as [|[[op lhs] rhs] l IH]; intros d Hd; simpl.
  - intros [= <-]. exact Hd.
  - destruct (processEqualityBindings lhs rhs d) as [d1|] eqn:H1.
    + destruct (processEqualityBindings rhs lhs d1) as [d2|] eqn:H2.
      * apply IH. eapply processEqualityBindings_nonEmpty; [|exact H2].
        eapply processEqualityBindings_nonEmpty; [|exact H1]. exact Hd.
      * intros Hf. exfalso. revert Hf. clear.
        induction l as [|[[? ?] ?] l IHl]; simpl; [discriminate | exact IHl].
    + intros Hf. exfalso. revert Hf. clear.
      induction l as [|[[? ?] ?] l IHl]; simpl; [discriminate | exact IHl].
Qed.

(** The stable fixed point of C6. *)
Definition stable (store : BindingStore) : Prop :=
  (forall k, k ∈ dom (bindingDependencies store) -> k ∉ boundVariables store)
  /\ (forall k ds d x, bindingDependencies store !! k = Some ds -> d ∈ ds -> x ∈ d ->
                      x ∉ boundVariables store)
  /\ (forall k ds, bindingDependencies store !! k = Some ds -> ∅ ∉ ds)
  /\ reduceDependencies store = (store, false).

Lemma reduceDependencies_stable (store : BindingStore) :
  stable (fst (reduceDependencies store)).
Proof.
  pose proof (reduceDependencies_settled store) as Hs.
  destruct (proj1 (settled_spec _) Hs) as (H1 & H2 & H3).
  repeat split; try assumption.
  apply reduceDependencies_fixed. exact Hs.
Qed.

(** C6.  The store that the constructor returns, and the store after
    every call of [bindVariable], is a stable fixed point: no key of
    the dependencies is bound, no dependency holds a bound variable, no
    key has an empty dependency, and a further call of
    [reduceDependencies] returns [false] and leaves the store as it
    is.  Every key that a call of [bindVariable] drops from the
    dependencies is bound afterwards, and the variable itself is
    bound. *)
Theorem bindingStore_stable :
  (forall clause store, newBindingStore clause = Some store -> stable store)
  /\ (forall varName store,
        stable (bindVariable varName store)
        /\ varName ∈ boundVariables (bindVariable varName store)
        /\ forall k, k ∈ dom (bindingDependencies store) ->
                     k ∈ dom (bindingDependencies (bindVariable varName store))
                     \/ k ∈ boundVariables (bindVariable varName store)).
Proof.
  split.
  - intros clause store. unfold newBindingStore.
    destruct (generateBindingDependencies clause) as [deps|]; [|discriminate].
    intros [= <-]. apply reduceDependencies_stable.
  - intros varName store. unfold bindVariable.
    split; [apply reduceDependencies_stable|].
    match goal with |- context [reduceDependencies ?s] =>
      destruct (reduceDependencies_grows s) as (Hb & _ & Hd) end.
    simpl in Hb, Hd. split; [set_solver | exact Hd].
Qed.

(** Scenario S5: the clause with [x = f(y, z)] and [y = g(w)]. *)
Definition fixedPointClause : Node :=
  AstClause (AstAtom "p" [AstVariable "x"])
    [AstBinaryConstraint Ram.EQ (AstVariable "x")
       (AstFunctor "f" [AstVariable "y"; AstVariable "z"]);
     AstBinaryConstraint Ram.EQ (AstVariable "y") (AstFunctor "g" [AstVariable "w"])].

(** What a store holds, as lists. *)
Definition contents (store : BindingStore)
  : list string * list string * list (string * list (list string)) :=
  (elements (boundVariables store), elements (boundHeadVariables store),
   (fun '(k, ds) => (k, elements <$> elements ds))
     <$> map_to_list (bindingDependencies store)).

Example newBindingStore_fixedPointClause :
  contents <$> newBindingStore fixedPointClause
  = Some ([], [], [("y", [["w"]]); ("x", [["y"; "z"]])]).
Proof. vm_compute. reflexivity. Qed.

Example bindVariable_w :
  (fun store => contents (bindVariable "w" store)) <$> newBindingStore fixedPointClause
  = Some (["w"; "y"], [], [("x", [["z"]])]).
Proof. vm_compute. reflexivity. Qed.

Example bindVariable_w_z :
  (fun store => contents (bindVariable "z" (bindVariable "w" store)))
    <$> newBindingStore fixedPointClause
  = Some (["w"; "y"; "z"; "x"], [], []).
Proof. vm_compute. reflexivity. Qed.

Lemma bindingStore_stable_witness :
  exists store,
    newBindingStore fixedPointClause = Some store
    /\ stable store /\ stable (bindVariable "w" store).
Proof.
  eexists. split; [reflexivity|]. split.
  - apply (proj1 bindingStore_stable fixedPointClause). reflexivity.
  - apply (proj2 bindingStore_stable).
Defined.

(** C10, as amended.  [bindHeadVariable] adds the variable to the bound
    head variables only: afterwards [isBound] holds for it, while
    [getBoundVariables] and the dependencies are what they were (no
    reduction is run, so no variable becomes bound on account of it).
    The variable is thus in [getBoundVariables] afterwards exactly when
    it was there before. *)
Theorem bindHeadVariable_separate (varName : string) (store : BindingStore) :
  isBound varName (bindHeadVariable varName store) = true
  /\ boundHeadVariables (bindHeadVariable varName store)
     = {[varName]} ∪ boundHeadVariables store
  /\ getBoundVariables (bindHeadVariable varName store) = getBoundVariables store
  /\ bindingDependencies (bindHeadVariable varName store) = bindingDependencies store
  /\ (varName ∈ getBoundVariables (bindHeadVariable varName store)
      <-> varName ∈ getBoundVariables store)
  /\ (forall other, other <> varName ->
        isBound other (bindHeadVariable varName store) = isBound other store).
Proof.
  unfold isBound, bindHeadVariable, getBoundVariables. simpl.
  split; [|split; [reflexivity|split; [reflexivity|split; [reflexivity|split; [reflexivity|]]]]].
  - apply orb_true_iff. right. apply bool_decide_eq_true. set_solver.
  - intros other Hne. f_equal. apply bool_decide_ext. set_solver.
Qed.

Lemma bindHeadVariable_separate_witness :
  isBound "y" (bindHeadVariable "x" (mkBindingStore {[ "x" ]} ∅ ∅))
  = isBound "y" (mkBindingStore {[ "x" ]} ∅ ∅).
Proof.
  apply (proj2 (proj2 (proj2 (proj2 (proj2
           (bindHeadVariable_separate "x" (mkBindingStore {[ "x" ]} ∅ ∅))))))).
  discriminate.
Defined.

(** No reduction is run: with the dependency [x <- {v}] in the store,
    binding [v] as a head variable leaves [x] unbound, where
    [bindVariable] binds it. *)
Example bindHeadVariable_no_reduction :
  let store := mkBindingStore ∅ ∅ (<["x" := {[ ({[ "v" ]} : gset string) ]}]> ∅) in
  isBound "x" (bindHeadVariable "v" store) = false
  /\ isBound "x" (bindVariable "v" store) = true.
Proof. vm_compute. split; reflexivity. Qed.

(** The clause [p(x) :- x = 1]: the constructor binds [x]. *)
Example newBindingStore_bound_by_constant :
  contents
    <$> newBindingStore
          (AstClause (AstAtom "p" [AstVariable "x"])
             [AstBinaryConstraint Ram.EQ (AstVariable "x") (AstNumericConstant 1)])
  = Some (["x"], [], []).
Proof. vm_compute. reflexivity. Qed.

(** C10 as stated fails: for a variable that is already among the bound
    variables (here [x] of the store built for [p(x) :- x = 1]), the
    variable is in [getBoundVariables] after [bindHeadVariable]. *)
Lemma bindHeadVariable_counterexample :
  ~ (forall (store : BindingStore) (v : string),
        isBound v (bindHeadVariable v store) = true
        /\ v ∉ getBoundVariables (bindHeadVariable v store)).
Proof.
  intros H. destruct (H (mkBindingStore {[ "x" ]} ∅ ∅) "x") as [_ Hnot].
  apply Hnot. unfold getBoundVariables, bindHeadVariable. simpl. set_solver.
Qed.

(** ** What the reduction computes *)

(** A variable can be derived from the bound variables when it is bound,
    or is a key one of whose dependencies holds derivable variables
    only (none at all, for the empty dependency). *)
Inductive derivable (bound : gset string) (deps : gmap string (gset (gset string)))
  : string -> Prop :=
| derivable_bound (x : string) : x ∈ bound -> derivable bound deps x
| derivable_dependency (k : string) (ds : gset (gset string)) (d : gset string) :
    deps !! k = Some ds -> d ∈ ds ->
    (forall x, x ∈ d -> derivable bound deps x) ->
    derivable bound deps k.

(** The dependencies of the keys outside [bound], without the variables
    in [bound]. *)
Definition unboundPart (bound : gset string) (deps : gmap string (gset (gset string)))
  : gmap string (gset (gset string)) :=
  map_imap (fun k ds =>
              if decide (k ∈ bound) then None
              else Some (set_map (fun d : gset string => d ∖ bound) ds))
    deps.

Lemma derivable_mono (bound bound' : gset string)
    (deps : gmap string (gset (gset string))) (x : string) :
  bound ⊆ bound' -> derivable bound deps x -> derivable bound' deps x.
Proof.
  intros Hsub H. induction H as [x Hx|k ds d Hk Hd _ IH].
  - apply derivable_bound. set_solver.
  - eapply derivable_dependency; eauto.
Qed.

(** One run of the loop changes nothing of what can be derived. *)
Lemma reduceRound_derivable (store : BindingStore) (x : string) :
  derivable (variablesToBind (reduceRound store) ∪ boundVariables store)
    (newBindingDependencies (reduceRound store)) x
  <-> derivable (boundVariables store) (bindingDependencies store) x.
Proof.
  destruct (reduceRound_spec store) as (Hnew & Hbind & _).
  set (bound := boundVariables store) in *. split.
  - intros H. induction H as [x Hx|k ds' d' Hk Hd' _ IH].
    + apply elem_of_union in Hx. destruct Hx as [Hx|Hx].
      * apply Hbind in Hx. destruct Hx as (ds & Hds & _ & He).
        apply (derivable_dependency _ _ x ds ∅ Hds He). set_solver.
      * apply derivable_bound. exact Hx.
    + rewrite Hnew in Hk.
      destruct (bindingDependencies store !! k) as [ds|] eqn:Hds; [|discriminate].
      simpl in Hk. unfold keptDependencies in Hk.
      destruct (decide (k ∈ bound)); [discriminate|].
      destruct (decide (∅ ∈ ds)); [discriminate|]. inversion Hk; subst ds'.
      apply elem_of_map in Hd'. destruct Hd' as (d & -> & Hd).
      apply (derivable_dependency _ _ k ds d Hds Hd). intros y Hy.
      destruct (decide (y ∈ bound)) as [Hyb|Hyb]; [apply derivable_bound; exact Hyb|].
      apply IH. set_solver.
  - intros H. induction H as [x Hx|k ds d Hk Hd _ IH].
    + apply derivable_bound. set_solver.
    + destruct (decide (k ∈ bound)) as [Hkb|Hkb];
        [apply derivable_bound; set_solver|].
      destruct (decide (∅ ∈ ds)) as [He|He].
      * apply derivable_bound. apply elem_of_union. left. apply Hbind. eauto.
      * apply (derivable_dependency _ _ k
                 (set_map (fun d : gset string => d ∖ bound) ds) (d ∖ bound)).
        -- rewrite Hnew, Hk. simpl. unfold keptDependencies.
           rewrite decide_False by exact Hkb. rewrite decide_False by exact He.
           reflexivity.
        -- apply elem_of_map. eauto.
        -- intros y Hy. apply IH. set_solver.
Qed.

(** On a settled store nothing but the bound variables can be derived. *)
Lemma settled_derivable (store : BindingStore) (x : string) :
  settled store ->
  derivable (boundVariables store) (bindingDependencies store) x ->
  x ∈ boundVariables store.
Proof.
  intros Hs. apply settled_spec in Hs. destruct Hs as (_ & Hvars & Hempty).
  intros H. induction H as [x Hx|k ds d Hk Hd _ IH]; [exact Hx|].
  exfalso. destruct (set_choose_or_empty d) as [[y Hy]|He].
  - apply (Hvars k ds d y Hk Hd Hy). apply IH. exact Hy.
  - apply (Hempty k ds Hk). apply leibniz_equiv in He. subst d. exact Hd.
Qed.

Lemma set_map_difference_twice (bound bound' : gset string) (ds : gset (gset string)) :
  bound ⊆ bound' ->
  (set_map (fun d : gset string => d ∖ bound')
     (set_map (fun d : gset string => d ∖ bound) ds : gset (gset string))
   : gset (gset string))
  = set_map (fun d : gset string => d ∖ bound') ds.
Proof.
  intros Hsub. apply set_eq. intros d. rewrite !elem_of_map. split.
  - intros (d1 & -> & Hd1). apply elem_of_map in Hd1. destruct Hd1 as (d0 & -> & Hd0).
    exists d0. split; [|exact Hd0]. apply set_eq. set_solver.
  - intros (d0 & -> & Hd0). exists (d0 ∖ bound). split.
    + apply set_eq. set_solver.
    + apply elem_of_map. eauto.
Qed.

Lemma unboundPart_settled (store : BindingStore) :
  settled store ->
  unboundPart (boundVariables store) (bindingDependencies store)
  = bindingDependencies store.
Proof.
  intros Hs. apply settled_spec in Hs. destruct Hs as (Hkeys & Hvars & _).
  apply map_eq. intros k. unfold unboundPart. rewrite map_lookup_imap.
  destruct (bindingDependencies store !! k) as [ds|] eqn:Hk; [|reflexivity]. simpl.
  rewrite decide_False by (apply Hkeys; apply elem_of_dom; eauto).
  f_equal. apply set_eq. intros d. rewrite elem_of_map. split.
  - intros (d0 & -> & Hd0).
    replace (d0 ∖ boundVariables store) with d0; [exact Hd0|].
    apply set_eq. intros y. specialize (Hvars k ds d0 y Hk Hd0). set_solver.
  - intros Hd. exists d. split; [|exact Hd].
    apply set_eq. intros y. specialize (Hvars k ds d y Hk Hd). set_solver.
Qed.

Lemma unboundPart_round (store : BindingStore) (bound' : gset string) :
  variablesToBind (reduceRound store) ∪ boundVariables store ⊆ bound' ->
  unboundPart bound' (newBindingDependencies (reduceRound store))
  = unboundPart bound' (bindingDependencies store).
Proof.
  intros Hsub. destruct (reduceRound_spec store) as (Hnew & Hbind & _).
  apply map_eq. intros k. unfold unboundPart. rewrite !map_lookup_imap, Hnew.
  destruct (bindingDependencies store !! k) as [ds|] eqn:Hk; [|reflexivity]. simpl.
  unfold keptDependencies.
  destruct (decide (k ∈ boundVariables store)) as [Hkb|Hkb].
  - simpl. rewrite decide_True by set_solver. reflexivity.
  - destruct (decide (∅ ∈ ds)) as [He|He]; simpl.
    + rewrite decide_True; [reflexivity|]. apply Hsub. apply elem_of_union. left.
      apply Hbind. eauto.
    + destruct (decide (k ∈ bound')); [reflexivity|]. f_equal.
      apply set_map_difference_twice. set_solver.
Qed.

(** The result of [reduceDependencies] in closed form. *)
Lemma reduceDependencies_closed (store : BindingStore) :
  (forall x, x ∈ boundVariables (fst (reduceDependencies store))
             <-> derivable (boundVariables store) (bindingDependencies store) x)
  /\ boundHeadVariables (fst (reduceDependencies store)) = boundHeadVariables store
  /\ bindingDependencies (fst (reduceDependencies store))
     = unboundPart (boundVariables (fst (reduceDependencies store)))
         (bindingDependencies store).
Proof.
  funelim (reduceDependencies store); simpl.
  - destruct H as (Hb & Hh & Hd). simpl in Hb, Hh, Hd. split; [|split].
    + intros x. rewrite Hb. apply reduceRound_derivable.
    + exact Hh.
    + rewrite Hd. apply unboundPart_round.
      match goal with |- _ ⊆ boundVariables (fst (reduceDependencies ?s)) =>
        destruct (reduceDependencies_grows s) as (Hgrow & _) end.
      exact Hgrow.
  - destruct (reduceRound_unchanged store e) as [_ Hbind]. rewrite Hbind.
    split; [|split].
    + intros x. split.
      * intros Hx. apply derivable_bound. set_solver.
      * intros Hx. apply (settled_derivable store x e) in Hx. set_solver.
    + reflexivity.
    + replace (∅ ∪ boundVariables store) with (boundVariables store) by set_solver.
      symmetry. apply unboundPart_settled. exact e.
Qed.

(** X14.  After [reduceDependencies] the bound variables are exactly
    those that can be derived from the variables bound before through
    the dependencies: a key is bound as soon as all variables of one of
    its dependencies are.  The reduction binds nothing else and misses
    none. *)
Theorem reduceDependencies_derives (store : BindingStore) (x : string) :
  x ∈ getBoundVariables (fst (reduceDependencies store))
  <-> derivable (boundVariables store) (bindingDependencies store) x.
Proof. apply reduceDependencies_closed. Qed.

Lemma derivable_unboundPart (extra bound bound1 : gset string)
    (deps : gmap string (gset (gset string))) (x : string) :
  (forall y, y ∈ bound1 <-> derivable bound deps y) ->
  derivable (extra ∪ bound1) (unboundPart bound1 deps) x
  <-> derivable (extra ∪ bound) deps x.
Proof.
  intros Hclosed. split.
  - intros H. induction H as [x Hx|k ds' d' Hk Hd' _ IH].
    + apply elem_of_union in Hx. destruct Hx as [Hx|Hx].
      * apply derivable_bound. set_solver.
      * apply Hclosed in Hx. eapply derivable_mono; [|exact Hx]. set_solver.
    + unfold unboundPart in Hk. rewrite map_lookup_imap in Hk.
      destruct (deps !! k) as [ds|] eqn:Hds; [|discriminate]. simpl in Hk.
      destruct (decide (k ∈ bound1)); [discriminate|]. inversion Hk; subst ds'.
      apply elem_of_map in Hd'. destruct Hd' as (d & -> & Hd).
      apply (derivable_dependency _ _ k ds d Hds Hd). intros y Hy.
      destruct (decide (y ∈ bound1)) as [Hyb|Hyb].
      * apply Hclosed in Hyb. eapply derivable_mono; [|exact Hyb]. set_solver.
      * apply IH. set_solver.
  - intros H. induction H as [x Hx|k ds d Hk Hd _ IH].
    + apply derivable_bound. apply elem_of_union in Hx. destruct Hx as [Hx|Hx].
      * set_solver.
      * apply elem_of_union. right. apply Hclosed. apply derivable_bound. exact Hx.
    + destruct (decide (k ∈ bound1)) as [Hkb|Hkb];
        [apply derivable_bound; set_solver|].
      apply (derivable_dependency _ _ k
               (set_map (fun d : gset string => d ∖ bound1) ds) (d ∖ bound1)).
      * unfold unboundPart. rewrite map_lookup_imap, Hk. simpl.
        rewrite decide_False by exact Hkb. reflexivity.
      * apply elem_of_map. eauto.
      * intros y Hy. apply IH. set_solver.
Qed.

Lemma unboundPart_twice (bound bound' : gset string)
    (deps : gmap string (gset (gset string))) :
  bound ⊆ bound' ->
  unboundPart bound' (unboundPart bound deps) = unboundPart bound' deps.
Proof.
  intros Hsub. apply map_eq. intros k. unfold unboundPart.
  rewrite !map_lookup_imap.
  destruct (deps !! k) as [ds|] eqn:Hk; [|reflexivity]. simpl.
  destruct (decide (k ∈ bound)) as [Hkb|Hkb]; simpl.
  - rewrite decide_True by set_solver. reflexivity.
  - destruct (decide (k ∈ bound')); [reflexivity|]. f_equal.
    apply set_map_difference_twice. exact Hsub.
Qed.

Lemma store_eq (store store' : BindingStore) :
  boundVariables store = boundVariables store' ->
  boundHeadVariables store = boundHeadVariables store' ->
  bindingDependencies store = bindingDependencies store' ->
  store = store'.
Proof. destruct store, store'. simpl. intros -> -> ->. reflexivity. Qed.

Lemma bindVariable_closed (varName : string) (store : BindingStore) :
  (forall x, x ∈ boundVariables (bindVariable varName store)
             <-> derivable ({[varName]} ∪ boundVariables store)
                   (bindingDependencies store) x)
  /\ boundHeadVariables (bindVariable varName store) = boundHeadVariables store
  /\ bindingDependencies (bindVariable varName store)
     = unboundPart (boundVariables (bindVariable varName store))
         (bindingDependencies store).
Proof.
  unfold bindVariable.
  match goal with |- context [reduceDependencies ?s] =>
    destruct (reduceDependencies_closed s) as (Hb & Hh & Hd) end.
  simpl in Hb, Hh, Hd. auto.
Qed.

(** After two calls of [bindVariable] on a store whose dependencies are
    those of its own reduction. *)
Lemma bindVariable_twice (a b : string) (store : BindingStore) :
  (forall x, x ∈ boundVariables (bindVariable a (bindVariable b store))
             <-> derivable ({[a]} ∪ ({[b]} ∪ boundVariables store))
                   (bindingDependencies store) x)
  /\ boundHeadVariables (bindVariable a (bindVariable b store))
     = boundHeadVariables store
  /\ bindingDependencies (bindVariable a (bindVariable b store))
     = unboundPart (boundVariables (bindVariable a (bindVariable b store)))
         (bindingDependencies store).
Proof.
  destruct (bindVariable_closed b store) as (Hb1 & Hh1 & Hd1).
  destruct (bindVariable_closed a (bindVariable b store)) as (Hb2 & Hh2 & Hd2).
  split; [|split].
  - intros x. rewrite Hb2, Hd1. apply derivable_unboundPart. exact Hb1.
  - congruence.
  - rewrite Hd2, Hd1. apply unboundPart_twice.
    intros y Hy. apply Hb2. apply derivable_bound. set_solver.
Qed.

(** X15.  The order of two calls of [bindVariable] does not matter: the
    store is the same, bound variables and remaining dependencies. *)
Theorem bindVariable_commutes (a b : string) (store : BindingStore) :
  bindVariable a (bindVariable b store) = bindVariable b (bindVariable a store).
Proof.
  destruct (bindVariable_twice a b store) as (Hb & Hh & Hd).
  destruct (bindVariable_twice b a store) as (Hb' & Hh' & Hd').
  assert (Hbound : boundVariables (bindVariable a (bindVariable b store))
                   = boundVariables (bindVariable b (bindVariable a store))).
  { apply set_eq. intros x. rewrite Hb, Hb'.
    replace ({[a]} ∪ ({[b]} ∪ boundVariables store))
      with ({[b]} ∪ ({[a]} ∪ boundVariables store)) by (apply set_eq; set_solver).
    reflexivity. }
  apply store_eq; [exact Hbound | congruence |].
  rewrite Hd, Hd', Hbound. reflexivity.
Qed.

(** X16.  A second call of [bindVariable] for the same variable changes
    nothing. *)
Theorem bindVariable_idempotent (varName : string) (store : BindingStore) :
  bindVariable varName (bindVariable varName store) = bindVariable varName store.
Proof.
  assert (Hin : varName ∈ boundVariables (bindVariable varName store)).
  { apply (bindVariable_closed varName store). apply derivable_bound. set_solver. }
  assert (Hsettled : settled (bindVariable varName store))
    by apply reduceDependencies_settled.
  unfold bindVariable at 1.
  replace ({[varName]} ∪ boundVariables (bindVariable varName store))
    with (∅ ∪ boundVariables (bindVariable varName store))
    by (apply set_eq; set_solver).
  rewrite store_eta, (reduceDependencies_fixed _ Hsettled). reflexivity.
Qed.

(** X17.  The bound head variables play no part in the reduction:
    binding a head variable before or after a call of [bindVariable]
    gives the same store. *)
Theorem bindHeadVariable_commutes (headName varName : string) (store : BindingStore) :
  bindHeadVariable headName (bindVariable varName store)
  = bindVariable varName (bindHeadVariable headName store).
Proof.
  destruct (bindVariable_closed varName store) as (Hb & Hh & Hd).
  destruct (bindVariable_closed varName (bindHeadVariable headName store))
    as (Hb' & Hh' & Hd').
  simpl in Hb', Hh', Hd'.
  assert (Hbound : boundVariables (bindVariable varName store)
                   = boundVariables (bindVariable varName
                                       (bindHeadVariable headName store))).
  { apply set_eq. intros x. rewrite Hb, Hb'. reflexivity. }
  apply store_eq; simpl.
  - exact Hbound.
  - rewrite Hh, Hh'. reflexivity.
  - rewrite Hd, Hd', Hbound. reflexivity.
Qed.

(** X18.  The assertion in the loop of [reduceDependencies], that an
    entry of the map has at least one dependency, cannot fail: it holds
    of the map that [generateBindingDependencies] builds, and a run of
    the loop hands on a map of which it holds, as does the whole
    reduction. *)
Theorem dependencies_never_empty :
  (forall clause deps, generateBindingDependencies clause = Some deps ->
                       dependenciesNonEmpty deps)
  /\ (forall store, dependenciesNonEmpty (bindingDependencies store) ->
        dependenciesNonEmpty (newBindingDependencies (reduceRound store))
        /\ dependenciesNonEmpty (bindingDependencies (fst (reduceDependencies store)))).
Proof.
  split.
  - apply generateBindingDependencies_nonEmpty.
  - intros store Hne. split; [apply reduceRound_nonEmpty; exact Hne|].
    funelim (reduceDependencies store); simpl.
    + apply H. simpl. apply reduceRound_nonEmpty. exact Hne.
    + exact Hne.
Qed.

Lemma dependencies_never_empty_witness :
  exists deps,
    generateBindingDependencies fixedPointClause = Some deps
    /\ dependenciesNonEmpty deps
    /\ dependenciesNonEmpty
         (bindingDependencies (fst (reduceDependencies (mkBindingStore ∅ ∅ deps)))).
Proof.
  eexists. split; [reflexivity|].
  assert (Hdeps : dependenciesNonEmpty
                    (default ∅ (generateBindingDependencies fixedPointClause))).
  { apply (proj1 dependencies_never_empty fixedPointClause). reflexivity. }
  split; [exact Hdeps|].
  apply (proj2 dependencies_never_empty
           (mkBindingStore ∅ ∅
              (default ∅ (generateBindingDependencies fixedPointClause)))).
  exact Hdeps.
Defined.

(** X19.  The assertion at the end of [reduceDependencies] cannot fail:
    a run of the loop that reports no change has rebuilt the map of
    dependencies as it was, and has found no variable to bind. *)
Theorem unchanged_round_rebuilds (store : BindingStore) :
  changed (reduceRound store) = false ->
  newBindingDependencies (reduceRound store) = bindingDependencies store
  /\ variablesToBind (reduceRound store) = ∅.
Proof. apply reduceRound_unchanged. Qed.

(** A store in which [x] waits for [y] and [z], and [w] is bound. *)
Definition waitingStore : BindingStore :=
  mkBindingStore {["w"]} ∅ {["x" := {[ {["y"; "z"]} ]}]}.

Lemma unchanged_round_rebuilds_witness :
  newBindingDependencies (reduceRound waitingStore) = bindingDependencies waitingStore
  /\ variablesToBind (reduceRound waitingStore) = ∅.
Proof.
  apply (unchanged_round_rebuilds waitingStore). vm_compute. reflexivity.
Defined.

(** ** The generation of the dependencies *)

(** The equalities that [generateBindingDependencies] collects, and the
    loop over a collection of them.  The source keeps the collection in
    a set of pointers, so the order of the loop is that of the
    addresses. *)
Definition consideredConstraints (clause : Node)
  : list (Ram.BinaryConstraintOp * Node * Node) :=
  List.filter (fun bc => match bc with
                          | (Ram.EQ, lhs, rhs) =>
                              negb (containsAggregator lhs || containsAggregator rhs)
                          | _ => false
                          end)
    (binaryConstraints clause).

Definition bindingsFrom (constraints : list (Ram.BinaryConstraintOp * Node * Node))
  : option (gmap string (gset (gset string))) :=
  foldl (fun acc bc =>
           match acc, bc with
           | Some d, (op, lhs, rhs) =>
               match processEqualityBindings lhs rhs d with
               | Some d1 => processEqualityBindings rhs lhs d1
               | None => None
               end
           | None, _ => None
           end)
    (Some ∅) constraints.

Lemma generateBindingDependencies_bindingsFrom (clause : Node) :
  generateBindingDependencies clause = bindingsFrom (consideredConstraints clause).
Proof. reflexivity. Qed.

Definition isVariable (node : Node) : bool :=
  match node with AstVariable _ => true | _ => false end.

(** The assertion of [processEqualityBindings] holds for the pair. *)
Definition recordOfVariables (lhs rhs : Node) : bool :=
  match lhs, rhs with
  | AstVariable _, AstRecordInit args => forallb isVariable args
  | _, _ => true
  end.

(** The dependencies that [processEqualityBindings] adds for a pair for
    which the assertion holds. *)
Definition addedDependencies (lhs rhs : Node) : list (string * gset string) :=
  match lhs with
  | AstVariable var =>
      (var, list_to_set (variableNames rhs)) ::
      match rhs with
      | AstRecordInit args =>
          flat_map (fun arg => match arg with
                               | AstVariable subVar => [(subVar, {[var]})]
                               | _ => []
                               end) args
      | _ => []
      end
  | _ => []
  end.

Definition addAll (l : list (string * gset string))
    (deps : gmap string (gset (gset string))) : gmap string (gset (gset string)) :=
  foldl (fun d '(k, dependency) => addBindingDependency k dependency d) deps l.

Lemma recordArguments_spec (var : string) (args : list Node) :
  forall deps : gmap string (gset (gset string)),
    foldl (fun acc arg =>
             match acc, arg with
             | Some d, AstVariable subVar =>
                 Some (addBindingDependency subVar {[var]} d)
             | _, _ => None
             end) (Some deps) args
    = if forallb isVariable args
      then Some (addAll (flat_map (fun arg => match arg with
                                              | AstVariable subVar => [(subVar, {[var]})]
                                              | _ => []
                                              end) args) deps)
      else None.
Proof.
  induction args as [|arg args IH]; intros deps; simpl; [reflexivity|].
  destruct arg as [subVar| | | | | | | | |]; simpl;
    try (clear; induction args as [|a l IHl]; simpl; [reflexivity | exact IHl]).
  apply IH.
Qed.

Lemma processEqualityBindings_spec (lhs rhs : Node)
    (deps : gmap string (gset (gset string))) :
  processEqualityBindings lhs rhs deps
  = if recordOfVariables lhs rhs then Some (addAll (addedDependencies lhs rhs) deps)
    else None.
Proof.
  destruct lhs as [var| | | | | | | | |]; try reflexivity.
  destruct rhs as [| |args| | | | | | |]; try reflexivity.
  unfold processEqualityBindings, recordOfVariables, addedDependencies.
  rewrite recordArguments_spec. reflexivity.
Qed.

Lemma addBindingDependency_commutes (k k' : string) (dep dep' : gset string)
    (deps : gmap string (gset (gset string))) :
  addBindingDependency k dep (addBindingDependency k' dep' deps)
  = addBindingDependency k' dep' (addBindingDependency k dep deps).
Proof.
  unfold addBindingDependency. destruct (decide (k = k')) as [->|Hne].
  - rewrite !lookup_insert_eq, !insert_insert_eq. simpl. f_equal.
    apply set_eq. set_solver.
  - rewrite (lookup_insert_ne _ k' k) by congruence.
    rewrite (lookup_insert_ne _ k k') by congruence.
    apply insert_insert_ne. congruence.
Qed.

Lemma addAll_one (k : string) (dep : gset string) (l : list (string * gset string)) :
  forall deps,
    addAll l (addBindingDependency k dep deps)
    = addBindingDependency k dep (addAll l deps).
Proof.
  induction l as [|[k' dep'] l IH]; intros deps; simpl; [reflexivity|].
  unfold addAll in *. simpl. rewrite <- IH. f_equal.
  apply addBindingDependency_commutes.
Qed.

Lemma addAll_commutes (l l' : list (string * gset string)) : forall deps,
  addAll l (addAll l' deps) = addAll l' (addAll l deps).
Proof.
  induction l as [|[k dep] l IH]; intros deps; [reflexivity|].
  unfold addAll at 1 4. simpl. fold (addAll l (addBindingDependency k dep (addAll l' deps))).
  fold (addAll l (addBindingDependency k dep deps)).
  rewrite <- (addAll_one k dep l'). apply IH.
Qed.

(** The body of the loop for one constraint. *)
Definition constraintStep (acc : option (gmap string (gset (gset string))))
    (bc : Ram.BinaryConstraintOp * Node * Node)
  : option (gmap string (gset (gset string))) :=
  match acc, bc with
  | Some d, (op, lhs, rhs) =>
      match processEqualityBindings lhs rhs d with
      | Some d1 => processEqualityBindings rhs lhs d1
      | None => None
      end
  | None, _ => None
  end.

Definition constraintHolds (bc : Ram.BinaryConstraintOp * Node * Node) : bool :=
  match bc with
  | (_, lhs, rhs) => recordOfVariables lhs rhs && recordOfVariables rhs lhs
  end.

Lemma constraintStep_spec (acc : option (gmap string (gset (gset string))))
    (bc : Ram.BinaryConstraintOp * Node * Node) :
  constraintStep acc bc
  = match acc with
    | Some d =>
        if constraintHolds bc
        then Some (addAll (addedDependencies (snd bc) (snd (fst bc)))
                     (addAll (addedDependencies (snd (fst bc)) (snd bc)) d))
        else None
    | None => None
    end.
Proof.
  destruct acc as [d|]; [|reflexivity]. destruct bc as [[op lhs] rhs]. simpl.
  rewrite processEqualityBindings_spec.
  destruct (recordOfVariables lhs rhs); simpl; [|reflexivity].
  apply processEqualityBindings_spec.
Qed.

Lemma constraintStep_commutes (acc : option (gmap string (gset (gset string))))
    (bc bc' : Ram.BinaryConstraintOp * Node * Node) :
  constraintStep (constraintStep acc bc) bc'
  = constraintStep (constraintStep acc bc') bc.
Proof.
  rewrite !constraintStep_spec. destruct acc as [d|]; [|reflexivity].
  destruct (constraintHolds bc), (constraintHolds bc'); try reflexivity.
  f_equal.
  rewrite (addAll_commutes (addedDependencies (snd (fst bc')) (snd bc'))
             (addedDependencies (snd bc) (snd (fst bc)))).
  rewrite (addAll_commutes (addedDependencies (snd (fst bc')) (snd bc'))
             (addedDependencies (snd (fst bc)) (snd bc))).
  rewrite (addAll_commutes (addedDependencies (snd bc') (snd (fst bc')))
             (addedDependencies (snd bc) (snd (fst bc)))).
  rewrite (addAll_commutes (addedDependencies (snd bc') (snd (fst bc')))
             (addedDependencies (snd (fst bc)) (snd bc))).
  reflexivity.
Qed.

Lemma bindingsFrom_steps (constraints : list (Ram.BinaryConstraintOp * Node * Node)) :
  bindingsFrom constraints = foldl constraintStep (Some ∅) constraints.
Proof. reflexivity. Qed.

Lemma foldl_constraintStep_permutation
    (l l' : list (Ram.BinaryConstraintOp * Node * Node)) :
  Permutation l l' ->
  forall acc, foldl constraintStep acc l = foldl constraintStep acc l'.
Proof.
  induction 1 as [|bc l l' _ IH|bc bc' l|l l1 l2 _ IH1 _ IH2]; intros acc; simpl.
  - reflexivity.
  - apply IH.
  - rewrite constraintStep_commutes. reflexivity.
  - rewrite IH1. apply IH2.
Qed.

(** X20.  The dependencies do not depend on the order in which the loop
    of [generateBindingDependencies] takes the constraints: processed
    in any order, the considered constraints of a clause give the map
    that the clause gives in the order of the visit, or fail as it
    does. *)
Theorem generateBindingDependencies_order (clause : Node)
    (constraints : list (Ram.BinaryConstraintOp * Node * Node)) :
  Permutation constraints (consideredConstraints clause) ->
  bindingsFrom constraints = generateBindingDependencies clause.
Proof.
  intros Hperm. rewrite generateBindingDependencies_bindingsFrom, !bindingsFrom_steps.
  apply foldl_constraintStep_permutation. exact Hperm.
Qed.

Lemma generateBindingDependencies_order_witness :
  bindingsFrom
    [(Ram.EQ, AstVariable "y", AstFunctor "g" [AstVariable "w"]);
     (Ram.EQ, AstVariable "x", AstFunctor "f" [AstVariable "y"; AstVariable "z"])]
  = generateBindingDependencies fixedPointClause.
Proof.
  apply generateBindingDependencies_order. apply perm_swap.
Defined.

Lemma foldl_constraintStep_None (l : list (Ram.BinaryConstraintOp * Node * Node)) :
  foldl constraintStep None l = None.
Proof. induction l as [|bc l IH]; simpl; [reflexivity | exact IH]. Qed.

(** X21.  [generateBindingDependencies] fails on the assertion that the
    arguments of a record are variables exactly when the clause holds
    an equality without aggregators between a variable and a record
    one of whose arguments is no variable; on every other clause it
    returns the dependencies. *)
Theorem generateBindingDependencies_fails (clause : Node) :
  generateBindingDependencies clause = None
  <-> exists bc, In bc (consideredConstraints clause) /\ constraintHolds bc = false.
Proof.
  rewrite generateBindingDependencies_bindingsFrom, bindingsFrom_steps.
  generalize (consideredConstraints clause). intros l.
  generalize (∅ : gmap string (gset (gset string))).
  induction l as [|bc l IH]; intros d.
  - simpl. split; [discriminate | intros (bc & [] & _)].
  - cbn [foldl]. rewrite constraintStep_spec. destruct (constraintHolds bc) eqn:Hbc.
    + rewrite IH. split.
      * intros (bc' & Hin & Hbad). exists bc'. split; [right; exact Hin | exact Hbad].
      * intros (bc' & [<-|Hin] & Hbad); [congruence|].
        exists bc'. split; assumption.
    + rewrite foldl_constraintStep_None. split; [|reflexivity].
      intros _. exists bc. split; [left; reflexivity | exact Hbc].
Qed.

(** ** The queue of adornments of [AdornDatabaseTransformer] *)

Section AdornmentQueue.

(** [AstQualifiedName], its order and [getAdornmentID] are declared
    outside the sources; the queue is modelled over any type of names,
    any comparison of adorned predicates and any identifier function. *)
Context {QualifiedName : Type} `{Countable QualifiedName}.
Variable getAdornmentID : QualifiedName -> string -> QualifiedName.
Variable less : QualifiedName * string -> QualifiedName * string -> bool.

(** The members [headAdornmentsToDo], a set kept in the order of its
    comparison, and [headAdornmentsSeen]. *)
Record AdornmentQueue := mkAdornmentQueue {
  headAdornmentsToDo : list (QualifiedName * string);
  headAdornmentsSeen : gset QualifiedName
}.

(** [std::set::insert]: the element goes before the first greater one,
    and is dropped when an equivalent one is met. *)
Fixpoint setInsert (x : QualifiedName * string) (l : list (QualifiedName * string))
  : list (QualifiedName * string) :=
  match l with
  | [] => [x]
  | y :: rest =>
      if less x y then x :: l
      else if less y x then y :: setInsert x rest
      else l
  end.

Definition queueAdornment (relName : QualifiedName) (adornmentMarker : string)
    (queue : AdornmentQueue) : AdornmentQueue :=
  let adornmentID := getAdornmentID relName adornmentMarker in
  if decide (adornmentID ∈ headAdornmentsSeen queue) then queue
  else mkAdornmentQueue
         (setInsert (relName, adornmentMarker) (headAdornmentsToDo queue))
         ({[adornmentID]} ∪ headAdornmentsSeen queue).

Definition hasAdornmentToProcess (queue : AdornmentQueue) : bool :=
  match headAdornmentsToDo queue with
  | [] => false
  | _ :: _ => true
  end.

(** [nextAdornmentToProcess]: [None] when the assertion fails. *)
Definition nextAdornmentToProcess (queue : AdornmentQueue)
  : option ((QualifiedName * string) * AdornmentQueue) :=
  match headAdornmentsToDo queue with
  | [] => None
  | headAdornment :: rest =>
      Some (headAdornment, mkAdornmentQueue rest (headAdornmentsSeen queue))
  end.

(** The queues of a run: the empty one, and those that the two
    operations make of them. *)
Inductive reached : AdornmentQueue -> Prop :=
| reached_empty : reached (mkAdornmentQueue [] ∅)
| reached_queue (relName : QualifiedName) (adornmentMarker : string)
    (queue : AdornmentQueue) :
    reached queue -> reached (queueAdornment relName adornmentMarker queue)
| reached_next (queue queue' : AdornmentQueue) (headAdornment : QualifiedName * string) :
    reached queue ->
    nextAdornmentToProcess queue = Some (headAdornment, queue') ->
    reached queue'.

(** The queues that follow a queue in a run. *)
Inductive follows (queue : AdornmentQueue) : AdornmentQueue -> Prop :=
| follows_here : follows queue queue
| follows_queue (relName : QualifiedName) (adornmentMarker : string)
    (later : AdornmentQueue) :
    follows queue later ->
    follows queue (queueAdornment relName adornmentMarker later)
| follows_next (later later' : AdornmentQueue) (headAdornment : QualifiedName * string) :
    follows queue later ->
    nextAdornmentToProcess later = Some (headAdornment, later') ->
    follows queue later'.

Lemma setInsert_elements (x y : QualifiedName * string)
    (l : list (QualifiedName * string)) :
  In y (setInsert x l) -> y = x \/ In y l.
Proof.
  induction l as [|z l IH]; simpl.
  - intros [<-|[]]. left. reflexivity.
  - destruct (less x z); [|destruct (less z x)]; simpl.
    + intros [<-|Hin]; auto.
    + intros [<-|Hin]; [auto|]. destruct (IH Hin); auto.
    + auto.
Qed.

Lemma setInsert_NoDup (x : QualifiedName * string) (l : list (QualifiedName * string)) :
  ~ In x l -> List.NoDup l -> List.NoDup (setInsert x l).
Proof.
  induction l as [|z l IH]; simpl; intros Hx Hl.
  - constructor; [intros [] | constructor].
  - destruct (less x z); [|destruct (less z x)].
    + constructor; [exact Hx | exact Hl].
    + inversion Hl as [|z' l' Hz Hl']; subst. constructor.
      * intros Hin. apply setInsert_elements in Hin. destruct Hin as [->|Hin]; tauto.
      * apply IH; tauto.
    + exact Hl.
Qed.

(** In a run, every adorned predicate to do has its identifier among
    those seen, and is to do once. *)
Lemma reached_seen (queue : AdornmentQueue) :
  reached queue ->
  (forall relName adornmentMarker,
      In (relName, adornmentMarker) (headAdornmentsToDo queue) ->
      getAdornmentID relName adornmentMarker ∈ headAdornmentsSeen queue)
  /\ List.NoDup (headAdornmentsToDo queue).
Proof.
  induction 1 as [|r m queue _ [IHseen IHdup]|queue queue' x _ [IHseen IHdup] Hnext].
  - simpl. split; [intros r m [] | constructor].
  - unfold queueAdornment.
    destruct (decide (getAdornmentID r m ∈ headAdornmentsSeen queue)) as [Hin|Hnew];
      [split; assumption|]. simpl. split.
    + intros r' m' Hin. apply setInsert_elements in Hin.
      destruct Hin as [[= -> ->]|Hin]; [set_solver|].
      apply elem_of_union. right. apply IHseen. exact Hin.
    + apply setInsert_NoDup; [|exact IHdup].
      intros Hin. apply Hnew. apply IHseen. exact Hin.
  - unfold nextAdornmentToProcess in Hnext.
    destruct (headAdornmentsToDo queue) as [|y rest] eqn:Htodo; [discriminate|].
    inversion Hnext; subst. simpl. split.
    + intros r m Hin. apply IHseen. right. exact Hin.
    + inversion IHdup. assumption.
Qed.

(** X22.  In a run of the queue an adorned predicate is handed out at
    most once: after [nextAdornmentToProcess] has returned it, it is
    not to do again, whatever is queued or taken afterwards. *)
Theorem adornment_processed_once (queue queue' later : AdornmentQueue)
    (relName : QualifiedName) (adornmentMarker : string) :
  reached queue ->
  nextAdornmentToProcess queue = Some ((relName, adornmentMarker), queue') ->
  follows queue' later ->
  ~ In (relName, adornmentMarker) (headAdornmentsToDo later).
Proof.
  intros Hreached Hnext Hfollows.
  destruct (reached_seen queue Hreached) as [Hseen Hdup].
  unfold nextAdornmentToProcess in Hnext.
  destruct (headAdornmentsToDo queue) as [|y rest] eqn:Htodo; [discriminate|].
  inversion Hnext; subst y queue'. clear Hnext.
  enough (getAdornmentID relName adornmentMarker ∈ headAdornmentsSeen later
          /\ ~ In (relName, adornmentMarker) (headAdornmentsToDo later)) by tauto.
  induction Hfollows as [|r m later _ [IHseen IHout]|later later' x _ [IHseen IHout] Hn].
  - simpl. split.
    + apply Hseen. left. reflexivity.
    + inversion Hdup. assumption.
  - unfold queueAdornment.
    destruct (decide (getAdornmentID r m ∈ headAdornmentsSeen later)) as [Hin|Hnew];
      [split; assumption|]. simpl. split; [set_solver|].
    intros Hin. apply setInsert_elements in Hin.
    destruct Hin as [[= <- <-]|Hin]; [apply Hnew; exact IHseen | exact (IHout Hin)].
  - unfold nextAdornmentToProcess in Hn.
    destruct (headAdornmentsToDo later) as [|z rest'] eqn:Hl; [discriminate|].
    inversion Hn; subst. simpl. split; [exact IHseen|].
    intros Hin. apply IHout. right. exact Hin.
Qed.

(** X23.  A predicate whose identifier has been seen is never queued
    again: queueing an adorned predicate a second time, at once or
    after anything else was queued or taken, leaves the queue as it
    is. *)
Theorem queueAdornment_seen (queue later : AdornmentQueue)
    (relName : QualifiedName) (adornmentMarker : string) :
  follows (queueAdornment relName adornmentMarker queue) later ->
  queueAdornment relName adornmentMarker later = later.
Proof.
  intros Hfollows.
  enough (getAdornmentID relName adornmentMarker ∈ headAdornmentsSeen later) as Hin
      by (unfold queueAdornment; rewrite decide_True by exact Hin; reflexivity).
  induction Hfollows as [|r m later _ IH|later later' x _ IH Hn].
  - unfold queueAdornment.
    destruct (decide (getAdornmentID relName adornmentMarker ∈ headAdornmentsSeen queue));
      [assumption | simpl; set_solver].
  - unfold queueAdornment.
    destruct (decide (getAdornmentID r m ∈ headAdornmentsSeen later));
      [assumption | simpl; set_solver].
  - unfold nextAdornmentToProcess in Hn.
    destruct (headAdornmentsToDo later); [discriminate|].
    inversion Hn; subst. exact IH.
Qed.

End AdornmentQueue.

(** An instance of the queue: names are strings, the identifier is
    the name followed by the marker, the order is that of the pairs of
    strings. *)
Definition stringAdornmentID (relName adornmentMarker : string) : string :=
  (relName +:+ "." +:+ adornmentMarker)%string.

Definition stringLess (a b : string * string) : bool :=
  String.ltb (fst a) (fst b)
  || (String.eqb (fst a) (fst b) && String.ltb (snd a) (snd b)).

Lemma adornment_processed_once_witness :
  ~ In ("p", "bf")
      (headAdornmentsToDo
         (queueAdornment stringAdornmentID stringLess "p" "bf"
            (mkAdornmentQueue [] {[stringAdornmentID "p" "bf"]}))).
Proof.
  apply (adornment_processed_once stringAdornmentID stringLess
           (queueAdornment stringAdornmentID stringLess "p" "bf"
              (mkAdornmentQueue [] ∅))
           (mkAdornmentQueue [] {[stringAdornmentID "p" "bf"]})).
  - apply reached_queue. apply reached_empty.
  - vm_compute. reflexivity.
  - apply follows_queue. apply follows_here.
Defined.

Lemma queueAdornment_seen_witness :
  queueAdornment stringAdornmentID stringLess "p" "bf"
    (queueAdornment stringAdornmentID stringLess "q" "fb"
       (queueAdornment stringAdornmentID stringLess "p" "bf" (mkAdornmentQueue [] ∅)))
  = queueAdornment stringAdornmentID stringLess "q" "fb"
      (queueAdornment stringAdornmentID stringLess "p" "bf" (mkAdornmentQueue [] ∅)).
Proof.
  apply (queueAdornment_seen stringAdornmentID stringLess (mkAdornmentQueue [] ∅)).
  apply follows_queue. apply follows_here.
Defined.

End MagicSet.

(** ** Unique variables in aggregators *)

Module UniqueAggregationVariables.
Import Ast.

(** [toString] of the aggregation number (a counter that starts at 0
    and is only incremented): its decimal digits. *)
Definition toString (aggNumber : nat) : string :=
  DecimalString.NilEmpty.string_of_uint (Nat.to_uint aggNumber).

(** The name that [setName] gives: a space, the name, the number. *)
Definition freshName (name : string) (aggNumber : nat) : string :=
  (" " ++ name ++ toString aggNumber)%string.

(** The renaming visit below an aggregator: every variable whose name
    is found in [names] has its name replaced. *)
Fixpoint renameVariables (names : gset string) (aggNumber : nat) (node : Node) : Node :=
  match node with
  | AstVariable name =>
      if decide (name ∈ names) then AstVariable (freshName name aggNumber) else node
  | AstNumericConstant _ => node
  | AstRecordInit args => AstRecordInit (map (renameVariables names aggNumber) args)
  | AstFunctor name args => AstFunctor name (map (renameVariables names aggNumber) args)
  | AstAggregator op target body =>
      AstAggregator op (option_map (renameVariables names aggNumber) target)
        (map (renameVariables names aggNumber) body)
  | AstAtom name args => AstAtom name (map (renameVariables names aggNumber) args)
  | AstNegation atom => AstNegation (renameVariables names aggNumber atom)
  | AstBinaryConstraint op lhs rhs =>
      AstBinaryConstraint op (renameVariables names aggNumber lhs)
        (renameVariables names aggNumber rhs)
  | AstClause head body =>
      AstClause (renameVariables names aggNumber head)
        (map (renameVariables names aggNumber) body)
  | AstProgram clauses => AstProgram (map (renameVariables names aggNumber) clauses)
  end.

(** The visitor of [transform] on one node, with the captured
    [aggNumber] and [changed]: an aggregator with a target expression
    has the variables renamed whose names the target expression holds,
    and takes the next number. *)
Definition visitAggregator (node : Node) (st : nat * bool) : Node * (nat * bool) :=
  match node with
  | AstAggregator op (Some target) body =>
      let names : gset string := list_to_set (variableNames target) in
      (renameVariables names (fst st) node,
       (S (fst st),
        snd st || existsb (fun name => bool_decide (name ∈ names)) (variableNames node)))
  | _ => (node, st)
  end.

Definition visitAll (visit : Node -> nat * bool -> Node * (nat * bool)) :=
  fix go (nodes : list Node) (st : nat * bool) : list Node * (nat * bool) :=
    match nodes with
    | [] => ([], st)
    | node :: rest =>
        let (node', st1) := visit node st in
        let (rest', st2) := go rest st1 in
        (node' :: rest', st2)
    end.

(** [visitDepthFirstPostOrder]: the children first (the target
    expression of an aggregator before its body), then the node. *)
Fixpoint visitPostOrder (node : Node) (st : nat * bool) : Node * (nat * bool) :=
  match node with
  | AstVariable _ => (node, st)
  | AstNumericConstant _ => (node, st)
  | AstRecordInit args =>
      let (args', st') := visitAll visitPostOrder args st in (AstRecordInit args', st')
  | AstFunctor name args =>
      let (args', st') := visitAll visitPostOrder args st in (AstFunctor name args', st')
  | AstAggregator op target body =>
      let (target', st1) :=
        match target with
        | Some t => let (t', st1) := visitPostOrder t st in (Some t', st1)
        | None => (None, st)
        end in
      let (body', st2) := visitAll visitPostOrder body st1 in
      visitAggregator (AstAggregator op target' body') st2
  | AstAtom name args =>
      let (args', st') := visitAll visitPostOrder args st in (AstAtom name args', st')
  | AstNegation atom =>
      let (atom', st') := visitPostOrder atom st in (AstNegation atom', st')
  | AstBinaryConstraint op lhs rhs =>
      let (lhs', st1) := visitPostOrder lhs st in
      let (rhs', st2) := visitPostOrder rhs st1 in
      (AstBinaryConstraint op lhs' rhs', st2)
  | AstClause head body =>
      let (head', st1) := visitPostOrder head st in
      let (body', st2) := visitAll visitPostOrder body st1 in
      (AstClause head' body', st2)
  | AstProgram clauses =>
      let (clauses', st') := visitAll visitPostOrder clauses st in
      (AstProgram clauses', st')
  end.

(** [transform]: the program afterwards, and the returned flag. *)
Definition transform (program : Node) : Node * bool :=
  let (program', st) := visitPostOrder program (0%nat, false) in
  (program', snd st).

(** ** Properties of the renaming *)

(** A renaming of the variables of a node by a function on names. *)
Fixpoint mapVariables (rho : string -> string) (node : Node) : Node :=
  match node with
  | AstVariable name => AstVariable (rho name)
  | AstNumericConstant _ => node
  | AstRecordInit args => AstRecordInit (map (mapVariables rho) args)
  | AstFunctor name args => AstFunctor name (map (mapVariables rho) args)
  | AstAggregator op target body =>
      AstAggregator op (option_map (mapVariables rho) target) (map (mapVariables rho) body)
  | AstAtom name args => AstAtom name (map (mapVariables rho) args)
  | AstNegation atom => AstNegation (mapVariables rho atom)
  | AstBinaryConstraint op lhs rhs =>
      AstBinaryConstraint op (mapVariables rho lhs) (mapVariables rho rhs)
  | AstClause head body => AstClause (mapVariables rho head) (map (mapVariables rho) body)
  | AstProgram clauses => AstProgram (map (mapVariables rho) clauses)
  end.


(** All the nodes below a node, the node included. *)
Fixpoint subNodes (node : Node) : list Node :=
  node ::
  match node with
  | AstVariable _ => []
  | AstNumericConstant _ => []
  | AstRecordInit args => flat_map subNodes args
  | AstFunctor _ args => flat_map subNodes args
  | AstAggregator _ target body =>
      match target with Some t => subNodes t | None => [] end ++ flat_map subNodes body
  | AstAtom _ args => flat_map subNodes args
  | AstNegation atom => subNodes atom
  | AstBinaryConstraint _ lhs rhs => subNodes lhs ++ subNodes rhs
  | AstClause head body => subNodes head ++ flat_map subNodes body
  | AstProgram clauses => flat_map subNodes clauses
  end.

Lemma map_pointwise_Forall {A B} (f g : A -> B) (l : list A) :
  Forall (fun a => f a = g a) l -> map f l = map g l.
Proof.
  induction 1 as [|a l Ha Hl IH]; simpl; [reflexivity | rewrite Ha, IH; reflexivity].
Qed.

Lemma renameVariables_mapVariables (names : gset string) (aggNumber : nat) (node : Node) :
  renameVariables names aggNumber node
  = mapVariables
      (fun name => if decide (name ∈ names) then freshName name aggNumber else name) node.
Proof.
  induction node as [name|value|args IH|name args IH|op target body IHt IHb|name args IH
                    |atom IH|op lhs rhs IHl IHr|head body IHh IHb|clauses IH]
    using Node_nested_ind; simpl.
  - destruct (decide (name ∈ names)); reflexivity.
  - reflexivity.
  - f_equal. apply map_pointwise_Forall. exact IH.
  - f_equal. apply map_pointwise_Forall. exact IH.
  - f_equal.
    + destruct target as [t|]; simpl in *; [rewrite IHt|]; reflexivity.
    + apply map_pointwise_Forall. exact IHb.
  - f_equal. apply map_pointwise_Forall. exact IH.
  - rewrite IH. reflexivity.
  - rewrite IHl, IHr. reflexivity.
  - rewrite IHh. f_equal. apply map_pointwise_Forall. exact IHb.
  - f_equal. apply map_pointwise_Forall. exact IH.
Qed.

Lemma flat_map_variableNames (rho : string -> string) (l : list Node) :
  Forall (fun n => variableNames (mapVariables rho n) = map rho (variableNames n)) l ->
  flat_map variableNames (map (mapVariables rho) l) = map rho (flat_map variableNames l).
Proof.
  induction 1 as [|a l Ha Hl IH]; simpl; [reflexivity|].
  rewrite Ha, IH, map_app. reflexivity.
Qed.

Lemma variableNames_mapVariables (rho : string -> string) (node : Node) :
  variableNames (mapVariables rho node) = map rho (variableNames node).
Proof.
  induction node as [name|value|args IH|name args IH|op target body IHt IHb|name args IH
                    |atom IH|op lhs rhs IHl IHr|head body IHh IHb|clauses IH]
    using Node_nested_ind; simpl;
    try reflexivity; try (apply flat_map_variableNames; assumption).
  - rewrite map_app, (flat_map_variableNames rho body IHb).
    destruct target as [t|]; simpl in *; [rewrite IHt|]; reflexivity.
  - exact IH.
  - rewrite map_app, IHl, IHr. reflexivity.
  - rewrite map_app, IHh, (flat_map_variableNames rho body IHb). reflexivity.
Qed.


























(** An aggregator without target expression inside the body of an
    aggregator with the target expression [x]. *)
Definition nestedAggregators : Node :=
  AstProgram
    [AstClause (AstAtom "r" [AstVariable "s"])
       [AstBinaryConstraint Ram.EQ (AstVariable "s")
          (AstAggregator "sum" (Some (AstVariable "x"))
             [AstAtom "a" [AstVariable "x"; AstVariable "y"];
              AstBinaryConstraint Ram.EQ (AstVariable "y")
                (AstAggregator "count" None [AstAtom "b" [AstVariable "x"]])])]].

Example transform_nestedAggregators :
  transform nestedAggregators
  = (AstProgram
       [AstClause (AstAtom "r" [AstVariable "s"])
          [AstBinaryConstraint Ram.EQ (AstVariable "s")
             (AstAggregator "sum" (Some (AstVariable " x0"))
                [AstAtom "a" [AstVariable " x0"; AstVariable "y"];
                 AstBinaryConstraint Ram.EQ (AstVariable "y")
                   (AstAggregator "count" None [AstAtom "b" [AstVariable " x0"]])])]],
     true).
Proof. vm_compute. reflexivity. Qed.



(** ** Further properties of the renaming *)

Lemma mapVariables_compose (f g : string -> string) (node : Node) :
  mapVariables f (mapVariables g node) = mapVariables (fun name => f (g name)) node.
Proof.
  induction node as [name|value|args IH|name args IH|op target body IHt IHb|name args IH
                    |atom IH|op lhs rhs IHl IHr|head body IHh IHb|clauses IH]
    using Node_nested_ind; simpl; try reflexivity.
  - f_equal. rewrite map_map. apply map_pointwise_Forall. exact IH.
  - f_equal. rewrite map_map. apply map_pointwise_Forall. exact IH.
  - f_equal.
    + destruct target as [t|]; simpl in *; [rewrite IHt|]; reflexivity.
    + rewrite map_map. apply map_pointwise_Forall. exact IHb.
  - f_equal. rewrite map_map. apply map_pointwise_Forall. exact IH.
  - rewrite IH. reflexivity.
  - rewrite IHl, IHr. reflexivity.
  - rewrite IHh. f_equal. rewrite map_map. apply map_pointwise_Forall. exact IHb.
  - f_equal. rewrite map_map. apply map_pointwise_Forall. exact IH.
Qed.

Lemma map_fixed_Forall {A} (f : A -> A) (l : list A) :
  Forall (fun a => f a = a) l -> map f l = l.
Proof.
  induction 1 as [|a l Ha Hl IH]; simpl; [reflexivity | rewrite Ha, IH; reflexivity].
Qed.

Lemma Forall_flat_map_names (rho : string -> string) (l : list Node) :
  Forall (fun n => (forall name, In name (variableNames n) -> rho name = name) ->
                   mapVariables rho n = n) l ->
  (forall name, In name (flat_map variableNames l) -> rho name = name) ->
  Forall (fun n => mapVariables rho n = n) l.
Proof.
  induction 1 as [|a l Ha Hl IH]; intros Hnames; constructor.
  - apply Ha. intros name Hin. apply Hnames. simpl. apply in_or_app. left. exact Hin.
  - apply IH. intros name Hin. apply Hnames. simpl. apply in_or_app. right. exact Hin.
Qed.

(** A renaming that fixes the names of the variables of a node leaves
    the node as it is. *)
Lemma mapVariables_fixed (rho : string -> string) (node : Node) :
  (forall name, In name (variableNames node) -> rho name = name) ->
  mapVariables rho node = node.
Proof.
  induction node as [name|value|args IH|name args IH|op target body IHt IHb|name args IH
                    |atom IH|op lhs rhs IHl IHr|head body IHh IHb|clauses IH]
    using Node_nested_ind; simpl; intros Hnames; try reflexivity.
  - rewrite Hnames by (left; reflexivity). reflexivity.
  - f_equal. apply map_fixed_Forall. apply Forall_flat_map_names; assumption.
  - f_equal. apply map_fixed_Forall. apply Forall_flat_map_names; assumption.
  - f_equal.
    + destruct target as [t|]; simpl in *; [|reflexivity]. rewrite IHt; [reflexivity|].
      intros name Hin. apply Hnames. apply in_or_app. left. exact Hin.
    + apply map_fixed_Forall. apply Forall_flat_map_names; [assumption|].
      intros name Hin. apply Hnames. apply in_or_app. right. exact Hin.
  - f_equal. apply map_fixed_Forall. apply Forall_flat_map_names; assumption.
  - rewrite IH by exact Hnames. reflexivity.
  - rewrite IHl, IHr; [reflexivity | |];
      intros name Hin; apply Hnames; apply in_or_app; [right | left]; exact Hin.
  - rewrite IHh.
    + f_equal. apply map_fixed_Forall. apply Forall_flat_map_names; [assumption|].
      intros name Hin. apply Hnames. apply in_or_app. right. exact Hin.
    + intros name Hin. apply Hnames. apply in_or_app. left. exact Hin.
  - f_equal. apply map_fixed_Forall. apply Forall_flat_map_names; assumption.
Qed.

(** A node without the names of its variables. *)
Definition withoutNames (node : Node) : Node := mapVariables (fun _ => EmptyString) node.

(** The name is the old one, or one that starts with a space. *)
Definition keptOrFresh (old new : string) : Prop :=
  new = old \/ exists rest, new = (" " ++ rest)%string.

(** Some aggregator below the node, the node included, has a target
    expression that holds a variable. *)
Fixpoint holdsTargetVariable (node : Node) : bool :=
  match node with
  | AstVariable _ => false
  | AstNumericConstant _ => false
  | AstRecordInit args => existsb holdsTargetVariable args
  | AstFunctor _ args => existsb holdsTargetVariable args
  | AstAggregator _ target body =>
      match target with
      | Some t =>
          holdsTargetVariable t
          || match variableNames t with [] => false | _ :: _ => true end
      | None => false
      end
      || existsb holdsTargetVariable body
  | AstAtom _ args => existsb holdsTargetVariable args
  | AstNegation atom => holdsTargetVariable atom
  | AstBinaryConstraint _ lhs rhs => holdsTargetVariable lhs || holdsTargetVariable rhs
  | AstClause head body => holdsTargetVariable head || existsb holdsTargetVariable body
  | AstProgram clauses => existsb holdsTargetVariable clauses
  end.

(** What a visit makes of a node and of the flag. *)
Definition visited (node : Node) (st : nat * bool) (r : Node * (nat * bool)) : Prop :=
  withoutNames (fst r) = withoutNames node
  /\ Forall2 keptOrFresh (variableNames node) (variableNames (fst r))
  /\ snd (snd r) = snd st || holdsTargetVariable node
  /\ (snd (snd r) = false -> fst r = node).

Lemma visitAll_visited (l : list Node) :
  Forall (fun node => forall st, visited node st (visitPostOrder node st)) l ->
  forall st,
    map withoutNames (fst (visitAll visitPostOrder l st)) = map withoutNames l
    /\ Forall2 keptOrFresh (flat_map variableNames l)
         (flat_map variableNames (fst (visitAll visitPostOrder l st)))
    /\ snd (snd (visitAll visitPostOrder l st)) = snd st || existsb holdsTargetVariable l
    /\ (snd (snd (visitAll visitPostOrder l st)) = false ->
        fst (visitAll visitPostOrder l st) = l).
Proof.
  induction 1 as [|a l Ha Hl IH]; intros st; simpl.
  - repeat split; [constructor | rewrite orb_false_r; reflexivity].
  - destruct (Ha st) as (Ha1 & Ha2 & Ha3 & Ha4).
    destruct (visitPostOrder a st) as [a' st1].
    destruct (IH st1) as (Hl1 & Hl2 & Hl3 & Hl4).
    destruct (visitAll visitPostOrder l st1) as [l' st2]. simpl in *.
    split; [|split; [|split]].
    + rewrite Ha1, Hl1. reflexivity.
    + apply Forall2_app; assumption.
    + rewrite Hl3, Ha3, orb_assoc. reflexivity.
    + intros Hf. rewrite Hl3 in Hf. apply orb_false_iff in Hf. destruct Hf as [Hf1 Hf].
      rewrite Hl3, Hf1, Hf in Hl4. rewrite (Hl4 eq_refl), (Ha4 Hf1). reflexivity.
Qed.

Lemma target_names_found (l rest : list string) :
  existsb (fun name => bool_decide (name ∈ (list_to_set l : gset string))) (l ++ rest)
  = match l with [] => false | _ :: _ => true end.
Proof.
  destruct l as [|x l]; simpl.
  - induction rest as [|y rest IH]; simpl; [reflexivity|].
    rewrite bool_decide_eq_false_2 by set_solver. exact IH.
  - rewrite bool_decide_eq_true_2 by set_solver. reflexivity.
Qed.

Lemma keptOrFresh_renamed (names : gset string) (aggNumber : nat)
    (olds mids : list string) :
  Forall2 keptOrFresh olds mids ->
  Forall2 keptOrFresh olds
    (map (fun name => if decide (name ∈ names) then freshName name aggNumber else name)
       mids).
Proof.
  induction 1 as [|old mid olds mids Hom _ IH]; simpl; constructor; [|exact IH].
  destruct (decide (mid ∈ names)); [|exact Hom].
  right. unfold freshName. eauto.
Qed.

Lemma withoutNames_renamed (names : gset string) (aggNumber : nat) (node : Node) :
  withoutNames (renameVariables names aggNumber node) = withoutNames node.
Proof.
  unfold withoutNames. rewrite renameVariables_mapVariables. apply mapVariables_compose.
Qed.

Lemma renameVariables_fixed (names : gset string) (aggNumber : nat) (node : Node) :
  existsb (fun name => bool_decide (name ∈ names)) (variableNames node) = false ->
  renameVariables names aggNumber node = node.
Proof.
  intros Hnone. rewrite renameVariables_mapVariables. apply mapVariables_fixed.
  intros name Hin. destruct (decide (name ∈ names)) as [Hn|Hn]; [|reflexivity].
  exfalso. assert (Htrue : existsb (fun name => bool_decide (name ∈ names))
                             (variableNames node) = true).
  { apply existsb_exists. exists name. split; [exact Hin|].
    apply bool_decide_eq_true_2. exact Hn. }
  congruence.
Qed.

Lemma visitPostOrder_visited (node : Node) : forall st,
  visited node st (visitPostOrder node st).
Proof.
  unfold visited.
  induction node as [name|value|args IH|name args IH|op target body IHt IHb|name args IH
                    |atom IH|op lhs rhs IHl IHr|head body IHh IHb|clauses IH]
    using Node_nested_ind; intros st; simpl.
  - repeat split; [repeat constructor | rewrite orb_false_r; reflexivity].
  - repeat split; [constructor | rewrite orb_false_r; reflexivity].
  - destruct (visitAll_visited args IH st) as (H1 & H2 & H3 & H4).
    destruct (visitAll visitPostOrder args st) as [args' st']. simpl in *.
    unfold withoutNames in *. simpl. repeat split; try assumption.
    + f_equal. exact H1.
    + intros Hf. rewrite (H4 Hf). reflexivity.
  - destruct (visitAll_visited args IH st) as (H1 & H2 & H3 & H4).
    destruct (visitAll visitPostOrder args st) as [args' st']. simpl in *.
    unfold withoutNames in *. simpl. repeat split; try assumption.
    + f_equal. exact H1.
    + intros Hf. rewrite (H4 Hf). reflexivity.
  - destruct target as [t|]; simpl in IHt.
    + destruct (IHt st) as (Ht1 & Ht2 & Ht3 & Ht4).
      destruct (visitPostOrder t st) as [t' st1].
      destruct (visitAll_visited body IHb st1) as (Hb1 & Hb2 & Hb3 & Hb4).
      destruct (visitAll visitPostOrder body st1) as [body' st2]. simpl in *.
      assert (Hfound :
                existsb (fun name => bool_decide
                           (name ∈ (list_to_set (variableNames t') : gset string)))
                  (variableNames t' ++ flat_map variableNames body')
                = match variableNames t with [] => false | _ :: _ => true end).
      { rewrite target_names_found. apply Forall2_length in Ht2.
        destruct (variableNames t), (variableNames t'); simpl in Ht2;
          (reflexivity || discriminate). }
      split; [|split; [|split]].
      * change (withoutNames
                  (renameVariables (list_to_set (variableNames t')) (fst st2)
                     (AstAggregator op (Some t') body'))
                = withoutNames (AstAggregator op (Some t) body)).
        rewrite withoutNames_renamed. unfold withoutNames in *. simpl.
        rewrite Ht1. f_equal. exact Hb1.
      * change (Forall2 keptOrFresh
                  (variableNames (AstAggregator op (Some t) body))
                  (variableNames
                     (renameVariables (list_to_set (variableNames t')) (fst st2)
                        (AstAggregator op (Some t') body')))).
        rewrite renameVariables_mapVariables, variableNames_mapVariables.
        apply keptOrFresh_renamed. simpl. apply Forall2_app; assumption.
      * rewrite Hfound, Hb3, Ht3.
        destruct (snd st), (holdsTargetVariable t),
          (existsb holdsTargetVariable body), (variableNames t); reflexivity.
      * rewrite Hfound, Hb3, Ht3. intros Hf.
        apply orb_false_iff in Hf. destruct Hf as [Hf Hvars].
        apply orb_false_iff in Hf. destruct Hf as [Hf Hbody].
        rewrite Ht3, Hf in Ht4. rewrite Hb3, Ht3, Hf, Hbody in Hb4.
        rewrite (Ht4 eq_refl), (Hb4 eq_refl) in *.
        change (renameVariables (list_to_set (variableNames t)) (fst st2)
                  (AstAggregator op (Some t) body)
                = AstAggregator op (Some t) body).
        apply renameVariables_fixed. simpl. rewrite target_names_found. exact Hvars.
    + destruct (visitAll_visited body IHb st) as (Hb1 & Hb2 & Hb3 & Hb4).
      destruct (visitAll visitPostOrder body st) as [body' st2]. simpl in *.
      unfold withoutNames in *. simpl. repeat split; try assumption.
      * f_equal. exact Hb1.
      * intros Hf. rewrite (Hb4 Hf). reflexivity.
  - destruct (visitAll_visited args IH st) as (H1 & H2 & H3 & H4).
    destruct (visitAll visitPostOrder args st) as [args' st']. simpl in *.
    unfold withoutNames in *. simpl. repeat split; try assumption.
    + f_equal. exact H1.
    + intros Hf. rewrite (H4 Hf). reflexivity.
  - destruct (IH st) as (H1 & H2 & H3 & H4).
    destruct (visitPostOrder atom st) as [atom' st']. simpl in *.
    unfold withoutNames in *. simpl. repeat split; try assumption.
    + f_equal. exact H1.
    + intros Hf. rewrite (H4 Hf). reflexivity.
  - destruct (IHl st) as (Hl1 & Hl2 & Hl3 & Hl4).
    destruct (visitPostOrder lhs st) as [lhs' st1].
    destruct (IHr st1) as (Hr1 & Hr2 & Hr3 & Hr4).
    destruct (visitPostOrder rhs st1) as [rhs' st2]. simpl in *.
    unfold withoutNames in *. simpl. split; [|split; [|split]].
    + rewrite Hl1, Hr1. reflexivity.
    + apply Forall2_app; assumption.
    + rewrite Hr3, Hl3, orb_assoc. reflexivity.
    + intros Hf. rewrite Hr3 in Hf. apply orb_false_iff in Hf. destruct Hf as [Hf1 Hf].
      rewrite Hr3, Hf1, Hf in Hr4. rewrite (Hr4 eq_refl), (Hl4 Hf1). reflexivity.
  - destruct (IHh st) as (Hh1 & Hh2 & Hh3 & Hh4).
    destruct (visitPostOrder head st) as [head' st1].
    destruct (visitAll_visited body IHb st1) as (Hb1 & Hb2 & Hb3 & Hb4).
    destruct (visitAll visitPostOrder body st1) as [body' st2]. simpl in *.
    unfold withoutNames in *. simpl. split; [|split; [|split]].
    + rewrite Hh1. f_equal. exact Hb1.
    + apply Forall2_app; assumption.
    + rewrite Hb3, Hh3, orb_assoc. reflexivity.
    + intros Hf. rewrite Hb3 in Hf. apply orb_false_iff in Hf. destruct Hf as [Hf1 Hf].
      rewrite Hb3, Hf1, Hf in Hb4. rewrite (Hb4 eq_refl), (Hh4 Hf1). reflexivity.
  - destruct (visitAll_visited clauses IH st) as (H1 & H2 & H3 & H4).
    destruct (visitAll visitPostOrder clauses st) as [clauses' st']. simpl in *.
    unfold withoutNames in *. simpl. repeat split; try assumption.
    + f_equal. exact H1.
    + intros Hf. rewrite (H4 Hf). reflexivity.
Qed.

(** An aggregator with a target expression that holds a variable. *)
Definition targetWithVariable (node : Node) : Prop :=
  match node with
  | AstAggregator _ (Some t) _ => variableNames t <> []
  | _ => False
  end.

Lemma existsb_holdsTargetVariable (l : list Node) :
  Forall (fun n => holdsTargetVariable n = true
                   <-> exists x, In x (subNodes n) /\ targetWithVariable x) l ->
  existsb holdsTargetVariable l = true
  <-> exists x, In x (flat_map subNodes l) /\ targetWithVariable x.
Proof.
  induction 1 as [|a l Ha Hl IH]; simpl.
  - split; [discriminate | intros (x & [] & _)].
  - rewrite orb_true_iff, Ha, IH. split.
    + intros [(x & Hin & Hx)|(x & Hin & Hx)]; exists x;
        (split; [apply in_or_app; auto | exact Hx]).
    + intros (x & Hin & Hx). apply in_app_or in Hin. destruct Hin; eauto.
Qed.

Lemma holdsTargetVariable_spec (node : Node) :
  holdsTargetVariable node = true
  <-> exists x, In x (subNodes node) /\ targetWithVariable x.
Proof.
  assert (Hchildren : forall (n : Node) (b : bool) (l : list Node),
             ~ targetWithVariable n ->
             (b = true <-> exists x, In x l /\ targetWithVariable x) ->
             (b = true <-> exists x, In x (n :: l) /\ targetWithVariable x)).
  { intros n b l Hn Hb. rewrite Hb. split.
    - intros (x & Hin & Hx). exists x. split; [right; exact Hin | exact Hx].
    - intros (x & [<-|Hin] & Hx); [contradiction | eauto]. }
  induction node as [name|value|args IH|name args IH|op target body IHt IHb|name args IH
                    |atom IH|op lhs rhs IHl IHr|head body IHh IHb|clauses IH]
    using Node_nested_ind; cbn [holdsTargetVariable subNodes].
  - apply Hchildren; [tauto|]. split; [discriminate | intros (x & [] & _)].
  - apply Hchildren; [tauto|]. split; [discriminate | intros (x & [] & _)].
  - apply Hchildren; [tauto|]. apply existsb_holdsTargetVariable. exact IH.
  - apply Hchildren; [tauto|]. apply existsb_holdsTargetVariable. exact IH.
  - pose proof (existsb_holdsTargetVariable body IHb) as Hbody.
    destruct target as [t|]; simpl in IHt.
    + rewrite !orb_true_iff, IHt, Hbody. split.
      * intros [[(x & Hin & Hx)|Hvars]|(x & Hin & Hx)].
        -- exists x. split; [right; apply in_or_app; left; exact Hin | exact Hx].
        -- exists (AstAggregator op (Some t) body). split; [left; reflexivity|].
           simpl. destruct (variableNames t); [discriminate | discriminate].
        -- exists x. split; [right; apply in_or_app; right; exact Hin | exact Hx].
      * intros (x & [<-|Hin] & Hx).
        -- left. right. simpl in Hx. destruct (variableNames t); [contradiction|].
           reflexivity.
        -- apply in_app_or in Hin. destruct Hin; [left; left | right]; eauto.
    + simpl. apply Hchildren; [tauto | exact Hbody].
  - apply Hchildren; [tauto|]. apply existsb_holdsTargetVariable. exact IH.
  - apply Hchildren; [tauto | exact IH].
  - apply Hchildren; [tauto|]. rewrite orb_true_iff, IHl, IHr. split.
    + intros [(x & Hin & Hx)|(x & Hin & Hx)]; exists x;
        (split; [apply in_or_app; auto | exact Hx]).
    + intros (x & Hin & Hx). apply in_app_or in Hin. destruct Hin; eauto.
  - apply Hchildren; [tauto|].
    rewrite orb_true_iff, IHh, (existsb_holdsTargetVariable body IHb). split.
    + intros [(x & Hin & Hx)|(x & Hin & Hx)]; exists x;
        (split; [apply in_or_app; auto | exact Hx]).
    + intros (x & Hin & Hx). apply in_app_or in Hin. destruct Hin; eauto.
  - apply Hchildren; [tauto|]. apply existsb_holdsTargetVariable. exact IH.
Qed.

(** X24.  When [transform] returns [false], the program is what it was:
    no variable was renamed. *)
Theorem transform_unchanged (program : Node) :
  snd (transform program) = false -> fst (transform program) = program.
Proof.
  unfold transform.
  destruct (visitPostOrder_visited program (0%nat, false)) as (_ & _ & _ & Hsame).
  destruct (visitPostOrder program (0%nat, false)) as [program' st]. exact Hsame.
Qed.

Lemma transform_unchanged_witness :
  fst (transform (AstProgram [AstClause (AstAtom "p" [AstVariable "x"])
                                [AstAtom "q" [AstVariable "x"]]]))
  = AstProgram [AstClause (AstAtom "p" [AstVariable "x"])
                  [AstAtom "q" [AstVariable "x"]]].
Proof. apply transform_unchanged. reflexivity. Defined.

(** X25.  [transform] returns [true] exactly when the program holds an
    aggregator whose target expression holds a variable. *)
Theorem transform_changed (program : Node) :
  snd (transform program) = true
  <-> exists op t body,
        In (AstAggregator op (Some t) body) (subNodes program)
        /\ variableNames t <> [].
Proof.
  unfold transform.
  destruct (visitPostOrder_visited program (0%nat, false)) as (_ & _ & Hflag & _).
  destruct (visitPostOrder program (0%nat, false)) as [program' st]. simpl in *.
  rewrite Hflag, holdsTargetVariable_spec. split.
  - intros (x & Hin & Hx). destruct x as [| | | |op [t|] body| | | | |]; try contradiction.
    exists op, t, body. split; assumption.
  - intros (op & t & body & Hin & Hvars).
    exists (AstAggregator op (Some t) body). split; assumption.
Qed.

(** X26.  [transform] changes names of variables and nothing else: with
    the names taken out, the program is what it was. *)
Theorem transform_names_only (program : Node) :
  withoutNames (fst (transform program)) = withoutNames program.
Proof.
  unfold transform.
  destruct (visitPostOrder_visited program (0%nat, false)) as (Hshape & _).
  destruct (visitPostOrder program (0%nat, false)) as [program' st]. exact Hshape.
Qed.

(** X27.  Every variable of the program keeps its name or takes one
    that starts with a space; the variables are as many as before, in
    the same order. *)
Theorem transform_names (program : Node) :
  Forall2 keptOrFresh (variableNames program) (variableNames (fst (transform program))).
Proof.
  unfold transform.
  destruct (visitPostOrder_visited program (0%nat, false)) as (_ & Hnames & _).
  destruct (visitPostOrder program (0%nat, false)) as [program' st]. exact Hnames.
Qed.

End UniqueAggregationVariables.
